(** * Email scheduler: scheduling, rate limiting and the queue worker

    A shallow embedding of the backend of the email scheduler
    (controllers/emailController.ts, services/queueService.ts,
    services/rateLimitService.ts, services/emailService.ts) together with
    the properties of its specification.

    Conventions of the embedding.
    - Instants are milliseconds since the epoch, in [Z] (a JS [Date] is its
      [getTime()]).
    - Strings are byte strings; the white space of [String.prototype.trim]
      and of the regular-expression class [\s] is its ASCII part.
    - Asynchronous functions are run to completion one after the other:
      every [await] is a sequence point of a state-and-exception monad over
      the [World] (the Postgres tables, the Redis keys, the BullMQ queue,
      the clock and the log of calls made to the collaborators). *)

From Stdlib Require Import ZArith String Ascii List Bool Lia.
From stdpp Require Import base tactics option list strings gmap pretty.

Local Open Scope string_scope.
Local Open Scope Z_scope.
Local Open Scope list_scope.

(** ** JavaScript strings: [trim], [split], [join], [Number] *)

Module Js.

(** The ASCII members of the ECMAScript [WhiteSpace] and [LineTerminator]
    productions: TAB, LF, VT, FF, CR and SPACE. *)
Definition isWhiteSpace (c : ascii) : bool :=
  let n := nat_of_ascii c in
  ((9 <=? n)%nat && (n <=? 13)%nat) || (n =? 32)%nat.

Fixpoint trimStart (s : string) : string :=
  match s with
  | String c s' => if isWhiteSpace c then trimStart s' else s
  | EmptyString => EmptyString
  end.

Fixpoint trimEnd (s : string) : string :=
  match s with
  | String c s' =>
      match trimEnd s' with
      | EmptyString => if isWhiteSpace c then EmptyString else String c EmptyString
      | t => String c t
      end
  | EmptyString => EmptyString
  end.

(** [s.trim()] *)
Definition trim (s : string) : string := trimEnd (trimStart s).

(** A string is truthy when it is not empty. *)
Definition truthy (s : string) : bool :=
  match s with EmptyString => false | _ => true end.

(** [xs.join(sep)] *)
Fixpoint join (sep : string) (xs : list string) : string :=
  match xs with
  | [] => EmptyString
  | [x] => x
  | x :: rest => x +:+ sep +:+ join sep rest
  end.

(** [s.split(c)] for a one-character separator. *)
Fixpoint split_go (sep : ascii) (cur : string) (s : string) : list string :=
  match s with
  | EmptyString => [String.rev cur]
  | String c s' =>
      if Ascii.eqb c sep then String.rev cur :: split_go sep EmptyString s'
      else split_go sep (String c cur) s'
  end.
Definition split (sep : ascii) (s : string) : list string :=
  split_go sep EmptyString s.

(** [s.split(sep)[0]] *)
Definition splitHead (sep : ascii) (s : string) : string :=
  match split sep s with x :: _ => x | [] => EmptyString end.

Definition digit (c : ascii) : option Z :=
  let n := nat_of_ascii c in
  if ((48 <=? n)%nat && (n <=? 57)%nat) then Some (Z.of_nat n - 48) else None.

Fixpoint digits (acc : Z) (s : string) : option Z :=
  match s with
  | EmptyString => Some acc
  | String c s' =>
      match digit c with
      | Some d => digits (10 * acc + d) s'
      | None => None
      end
  end.

(** [Number(s)] on strings of decimal digits (the empty string gives 0);
    [None] stands for [NaN]. *)
Definition Number (s : string) : option Z := digits 0 s.

(** [String(n).padStart(2, '0')] *)
Definition padStart2 (s : string) : string :=
  match s with
  | String c EmptyString => String "0" s
  | EmptyString => "00"
  | _ => s
  end.

(** [`${n}`] for an integer *)
Definition toString (n : Z) : string := pretty n.

End Js.

(** ** Regular expressions, matched by derivatives *)

Module Regex.

Inductive t : Type :=
| Void
| Eps
| Class (p : ascii -> bool)
| Seq (r1 r2 : t)
| Alt (r1 r2 : t)
| Star (r : t).

(** [r+] *)
Definition Plus (r : t) : t := Seq r (Star r).

Fixpoint nullable (r : t) : bool :=
  match r with
  | Void => false
  | Eps => true
  | Class _ => false
  | Seq r1 r2 => nullable r1 && nullable r2
  | Alt r1 r2 => nullable r1 || nullable r2
  | Star _ => true
  end.

Fixpoint deriv (c : ascii) (r : t) : t :=
  match r with
  | Void => Void
  | Eps => Void
  | Class p => if p c then Eps else Void
  | Seq r1 r2 =>
      if nullable r1 then Alt (Seq (deriv c r1) r2) (deriv c r2)
      else Seq (deriv c r1) r2
  | Alt r1 r2 => Alt (deriv c r1) (deriv c r2)
  | Star r1 => Seq (deriv c r1) (Star r1)
  end.

(** [/^r$/.test(s)] *)
Fixpoint test (r : t) (s : string) : bool :=
  match s with
  | EmptyString => nullable r
  | String c s' => test (deriv c r) s'
  end.

(** [[^\s@]] *)
Definition notSpaceAt (c : ascii) : bool :=
  negb (Js.isWhiteSpace c) && negb (Ascii.eqb c "@").
Definition char (x : ascii) : t := Class (Ascii.eqb x).

(** [/^[^\s@]+@[^\s@]+\.[^\s@]+$/] *)
Definition emailRegex : t :=
  Seq (Plus (Class notSpaceAt))
    (Seq (char "@")
       (Seq (Plus (Class notSpaceAt))
          (Seq (char ".") (Plus (Class notSpaceAt))))).

End Regex.

(** ** UTC calendar fields of an instant ([Date.prototype.getUTC*],
    [Date.UTC]) *)

Module JsDate.

Definition msPerHour : Z := 3600000.
Definition msPerDay : Z := 86400000.

(** Proleptic Gregorian civil date of a day number (days since
    1970-01-01): (year, month 1..12, day 1..31). *)
Definition civilFromDays (z0 : Z) : Z * Z * Z :=
  let z := z0 + 719468 in
  let era := z / 146097 in
  let doe := z - era * 146097 in
  let yoe := (doe - doe / 1460 + doe / 36524 - doe / 146096) / 365 in
  let y := yoe + era * 400 in
  let doy := doe - (365 * yoe + yoe / 4 - yoe / 100) in
  let mp := (5 * doy + 2) / 153 in
  let d := doy - (153 * mp + 2) / 5 + 1 in
  let m := if mp <? 10 then mp + 3 else mp - 9 in
  (if m <=? 2 then y + 1 else y, m, d).

Definition daysFromCivil (y0 m d : Z) : Z :=
  let y := if m <=? 2 then y0 - 1 else y0 in
  let era := y / 400 in
  let yoe := y - era * 400 in
  let doy := (153 * (if 2 <? m then m - 3 else m + 9) + 2) / 5 + d - 1 in
  let doe := yoe * 365 + yoe / 4 - yoe / 100 + doy in
  era * 146097 + doe - 719468.

Definition getUTCFullYear (t : Z) : Z := (civilFromDays (t / msPerDay)).1.1.
(** zero-based, as in JS *)
Definition getUTCMonth (t : Z) : Z := (civilFromDays (t / msPerDay)).1.2 - 1.
Definition getUTCDate (t : Z) : Z := (civilFromDays (t / msPerDay)).2.
Definition getUTCHours (t : Z) : Z := (t mod msPerDay) / msPerHour.

(** [Date.UTC(year, monthIndex, day, hour, 0, 0)] for in-range fields. *)
Definition UTC (year monthIndex day hour : Z) : Z :=
  daysFromCivil year (monthIndex + 1) day * msPerDay + hour * msPerHour.

End JsDate.

(** ** Data model *)

(** [emailJob.status] *)
Inductive JobStatus : Type := Pending | Sent | Failed.

(** [emailSchedule.status] *)
Inductive ScheduleStatus : Type := Scheduled | InProgress | Completed.

Global Instance JobStatus_eq_dec : EqDecision JobStatus.
Proof. solve_decision. Defined.
Global Instance ScheduleStatus_eq_dec : EqDecision ScheduleStatus.
Proof. solve_decision. Defined.

Record Attachment : Type := {
  filename : string;
  contentBase64 : string;
  contentType : string;
}.

(** types/index.ts, [EmailJobData]: the payload of a queued job. *)
Module EmailJobData.
Record t : Type := {
  scheduleId : string;
  userId : string;
  recipient : string;
  subject : string;
  body : string;
  scheduledTime : Z;
  attachments : list Attachment;
}.
End EmailJobData.

(** A row of the [EmailJob] table, with the columns the code reads and
    writes. [sentTime], [errorMessage] and [jobId] are nullable. *)
Module EmailJob.
Record t : Type := {
  id : string;
  scheduleId : string;
  userId : string;
  recipient : string;
  subject : string;
  body : string;
  scheduledTime : Z;
  status : JobStatus;
  sentTime : option Z;
  errorMessage : option string;
  jobId : option string;
  updatedAt : Z;
}.
End EmailJob.

(** A row of the [EmailSchedule] table. *)
Module EmailSchedule.
Record t : Type := {
  id : string;
  userId : string;
  subject : string;
  body : string;
  recipients : list string;
  startTime : Z;
  delayMs : Z;
  hourlyLimit : Z;
  totalCount : nat;
  sentCount : nat;
  failedCount : nat;
  status : ScheduleStatus;
  updatedAt : Z;
}.
End EmailSchedule.

Module User.
Record t : Type := { id : string; email : string; name : string }.
End User.

(** A job held by the BullMQ queue: its name, payload and the options
    given to [queue.add]. *)
Module QueuedJob.
Record t : Type := {
  name : string;
  data : EmailJobData.t;
  delay : Z;
  jobId : string;
}.
End QueuedJob.

(** The job handed to the worker's processor. *)
Module Job.
Record t : Type := {
  id : string;
  data : EmailJobData.t;
  token : string;
  attemptsMade : nat;
}.
End Job.

(** What a JS [throw] carries: an [Error] with its message, or any other
    value. *)
Inductive Exn : Type :=
| JsError (message : string)
| JsValue (v : string).

(** [mailOptions] of [transporter.sendMail]. *)
Record MailOptions : Type := {
  from : string;
  to : string;
  mailSubject : string;
  html : string;
  text : string;
  mailAttachments : list Attachment;
}.

(** [transporter.sendMail] resolves with [info.messageId] or rejects. *)
Inductive SendOutcome : Type :=
| Delivered (messageId : string)
| Rejected (e : Exn).

(** Calls made to the collaborators, in the order they are made. *)
Inductive Event : Type :=
| RateLimiterCheck (sender : string) (limit : Z)
| RateLimiterIncrement (sender : string)
| MailerSend (recipient : string)
| StoreUpdateJob (id : string) (status : JobStatus)
| StoreUpdateCounts (scheduleId : string)
| QueueAdd (name : string) (delay : Z) (jobId : string)
| QueueMoveToDelayed (jobId : string) (delay : Z)
| Sleep (ms : Z).

Global Instance Event_eq_dec : EqDecision Event.
Proof. solve_decision. Defined.

(** The state the backend runs against.
    - [redis]: the rate-limit keys of Redis. A key is only ever written by
      [INCR], so its value is the decimal string of an integer; the map
      holds that integer ([redis.get] followed by [parseInt(_, 10)]).
    - [redisTtl]: the expiry set on a key, in seconds.
    - [rateLimitCounter]: the table of that name, keyed by (hour, sender).
    - [emailSchedule], [emailJob], [user]: the tables, rows in insertion
      order; [id] is the primary key.
    - [emailQueue]: the module-level queue handle ([None] before
      [initializeQueue]).
    - [emailTransporter]: whether [initializeEmailTransporter] has run.
    - [now]: the clock read by [Date.now()] and [new Date()].
    - [uuidCalls], [mailerCalls]: how often [uuidv4] and
      [transporter.sendMail] were called.
    - [log]: the calls made so far. *)
Record World : Type := {
  redis : gmap string Z;
  redisTtl : gmap string Z;
  rateLimitCounter : gmap (string * string) Z;
  emailSchedule : list EmailSchedule.t;
  emailJob : list EmailJob.t;
  user : list User.t;
  emailQueue : option (list QueuedJob.t);
  emailTransporter : bool;
  now : Z;
  uuidCalls : nat;
  mailerCalls : nat;
  log : list Event;
}.

(** Environment of a run: the configuration read from [process.env] and
    the collaborators the code does not control, [uuidv4] (the n-th call
    returns [uuidv4 n]) and the SMTP transport (the outcome of the n-th
    [sendMail]). *)
Record Env : Type := {
  WORKER_CONCURRENCY : nat;
  DELAY_BETWEEN_EMAILS_MS : Z;
  MAX_EMAILS_PER_HOUR : Z;
  uuidv4 : nat -> string;
  sendMail : nat -> MailOptions -> SendOutcome;
}.

Definition set_redis (f : gmap string Z -> gmap string Z) (w : World) : World :=
  {| redis := f (redis w); redisTtl := redisTtl w;
     rateLimitCounter := rateLimitCounter w; emailSchedule := emailSchedule w;
     emailJob := emailJob w; user := user w; emailQueue := emailQueue w;
     emailTransporter := emailTransporter w; now := now w;
     uuidCalls := uuidCalls w; mailerCalls := mailerCalls w; log := log w |}.

Definition set_redisTtl (f : gmap string Z -> gmap string Z) (w : World) : World :=
  {| redis := redis w; redisTtl := f (redisTtl w);
     rateLimitCounter := rateLimitCounter w; emailSchedule := emailSchedule w;
     emailJob := emailJob w; user := user w; emailQueue := emailQueue w;
     emailTransporter := emailTransporter w; now := now w;
     uuidCalls := uuidCalls w; mailerCalls := mailerCalls w; log := log w |}.

Definition set_rateLimitCounter
    (f : gmap (string * string) Z -> gmap (string * string) Z) (w : World) : World :=
  {| redis := redis w; redisTtl := redisTtl w;
     rateLimitCounter := f (rateLimitCounter w); emailSchedule := emailSchedule w;
     emailJob := emailJob w; user := user w; emailQueue := emailQueue w;
     emailTransporter := emailTransporter w; now := now w;
     uuidCalls := uuidCalls w; mailerCalls := mailerCalls w; log := log w |}.

Definition set_emailSchedule
    (f : list EmailSchedule.t -> list EmailSchedule.t) (w : World) : World :=
  {| redis := redis w; redisTtl := redisTtl w;
     rateLimitCounter := rateLimitCounter w; emailSchedule := f (emailSchedule w);
     emailJob := emailJob w; user := user w; emailQueue := emailQueue w;
     emailTransporter := emailTransporter w; now := now w;
     uuidCalls := uuidCalls w; mailerCalls := mailerCalls w; log := log w |}.

Definition set_emailJob (f : list EmailJob.t -> list EmailJob.t) (w : World) : World :=
  {| redis := redis w; redisTtl := redisTtl w;
     rateLimitCounter := rateLimitCounter w; emailSchedule := emailSchedule w;
     emailJob := f (emailJob w); user := user w; emailQueue := emailQueue w;
     emailTransporter := emailTransporter w; now := now w;
     uuidCalls := uuidCalls w; mailerCalls := mailerCalls w; log := log w |}.

Definition set_user (f : list User.t -> list User.t) (w : World) : World :=
  {| redis := redis w; redisTtl := redisTtl w;
     rateLimitCounter := rateLimitCounter w; emailSchedule := emailSchedule w;
     emailJob := emailJob w; user := f (user w); emailQueue := emailQueue w;
     emailTransporter := emailTransporter w; now := now w;
     uuidCalls := uuidCalls w; mailerCalls := mailerCalls w; log := log w |}.

Definition set_emailQueue
    (f : option (list QueuedJob.t) -> option (list QueuedJob.t)) (w : World) : World :=
  {| redis := redis w; redisTtl := redisTtl w;
     rateLimitCounter := rateLimitCounter w; emailSchedule := emailSchedule w;
     emailJob := emailJob w; user := user w; emailQueue := f (emailQueue w);
     emailTransporter := emailTransporter w; now := now w;
     uuidCalls := uuidCalls w; mailerCalls := mailerCalls w; log := log w |}.

Definition set_now (f : Z -> Z) (w : World) : World :=
  {| redis := redis w; redisTtl := redisTtl w;
     rateLimitCounter := rateLimitCounter w; emailSchedule := emailSchedule w;
     emailJob := emailJob w; user := user w; emailQueue := emailQueue w;
     emailTransporter := emailTransporter w; now := f (now w);
     uuidCalls := uuidCalls w; mailerCalls := mailerCalls w; log := log w |}.

Definition set_uuidCalls (f : nat -> nat) (w : World) : World :=
  {| redis := redis w; redisTtl := redisTtl w;
     rateLimitCounter := rateLimitCounter w; emailSchedule := emailSchedule w;
     emailJob := emailJob w; user := user w; emailQueue := emailQueue w;
     emailTransporter := emailTransporter w; now := now w;
     uuidCalls := f (uuidCalls w); mailerCalls := mailerCalls w; log := log w |}.

Definition set_mailerCalls (f : nat -> nat) (w : World) : World :=
  {| redis := redis w; redisTtl := redisTtl w;
     rateLimitCounter := rateLimitCounter w; emailSchedule := emailSchedule w;
     emailJob := emailJob w; user := user w; emailQueue := emailQueue w;
     emailTransporter := emailTransporter w; now := now w;
     uuidCalls := uuidCalls w; mailerCalls := f (mailerCalls w); log := log w |}.

Definition set_log (f : list Event -> list Event) (w : World) : World :=
  {| redis := redis w; redisTtl := redisTtl w;
     rateLimitCounter := rateLimitCounter w; emailSchedule := emailSchedule w;
     emailJob := emailJob w; user := user w; emailQueue := emailQueue w;
     emailTransporter := emailTransporter w; now := now w;
     uuidCalls := uuidCalls w; mailerCalls := mailerCalls w; log := f (log w) |}.

(** ** The monad of asynchronous code: state and exceptions *)

Inductive Outcome (A : Type) : Type :=
| Val (a : A)
| Throw (e : Exn).
Arguments Val {A} a.
Arguments Throw {A} e.

Definition M (A : Type) : Type := World -> Outcome A * World.

Definition ret {A} (a : A) : M A := fun w => (Val a, w).

Definition bind {A B} (m : M A) (k : A -> M B) : M B :=
  fun w =>
    match m w with
    | (Val a, w') => k a w'
    | (Throw e, w') => (Throw e, w')
    end.

Definition throw {A} (e : Exn) : M A := fun w => (Throw e, w).

(** [try { m } catch (error) { h error }] *)
Definition tryCatch {A} (m : M A) (h : Exn -> M A) : M A :=
  fun w =>
    match m w with
    | (Val a, w') => (Val a, w')
    | (Throw e, w') => h e w'
    end.

Definition gets {A} (f : World -> A) : M A := fun w => (Val (f w), w).
Definition modify (f : World -> World) : M unit := fun w => (Val tt, f w).

Notation "'let*' x := m 'in' k" := (bind m (fun x => k))
  (at level 10, x name, m at level 100, k at level 200).

Definition emit (e : Event) : M unit := modify (set_log (fun l => l ++ [e])).

(** [Date.now()], [new Date()] *)
Definition dateNow : M Z := gets now.

(** [await new Promise((resolve) => setTimeout(resolve, ms))] *)
Definition sleep (ms : Z) : M unit :=
  let* _ := emit (Sleep ms) in
  modify (set_now (fun t => t + Z.max 0 ms)).

(** [error instanceof Error ? error.message : 'Unknown error'] *)
Definition messageOf (e : Exn) : string :=
  match e with
  | JsError m => m
  | JsValue _ => "Unknown error"
  end.

(** ** The Prisma client over the tables *)

Module Prisma.

(** Replaces the first row that satisfies [p]: the row [findUnique]
    returns for a primary key. *)
Fixpoint updateFirst {A} (p : A -> bool) (f : A -> A) (rows : list A) : list A :=
  match rows with
  | [] => []
  | r :: rest => if p r then f r :: rest else r :: updateFirst p f rest
  end.

Definition jobHasId (id : string) (r : EmailJob.t) : bool :=
  String.eqb (EmailJob.id r) id.
Definition scheduleHasId (id : string) (r : EmailSchedule.t) : bool :=
  String.eqb (EmailSchedule.id r) id.
Definition userHasId (id : string) (r : User.t) : bool :=
  String.eqb (User.id r) id.

Definition notFound : Exn := JsError "Record to update not found.".
Definition uniqueViolation : Exn :=
  JsError "Unique constraint failed on the fields: (`id`)".

(** [prisma.emailJob.findUnique({ where: { id } })] *)
Definition emailJob_findUnique (id : string) : M (option EmailJob.t) :=
  gets (fun w => find (jobHasId id) (emailJob w)).

(** [prisma.emailJob.update({ where: { id }, data })]; rejects when no row
    has the id. *)
Definition emailJob_update (id : string) (data : EmailJob.t -> EmailJob.t) : M unit :=
  let* found := emailJob_findUnique id in
  match found with
  | Some _ => modify (set_emailJob (updateFirst (jobHasId id) data))
  | None => throw notFound
  end.

(** [prisma.emailJob.create({ data })]; rejects when the id is taken. *)
Definition emailJob_create (row : EmailJob.t) : M EmailJob.t :=
  let* found := emailJob_findUnique (EmailJob.id row) in
  match found with
  | Some _ => throw uniqueViolation
  | None =>
      let* _ := modify (set_emailJob (fun rows => rows ++ [row])) in
      ret row
  end.

(** [prisma.emailJob.count({ where: { scheduleId, status } })] *)
Definition emailJob_count (scheduleId : string) (status : JobStatus) : M nat :=
  gets (fun w =>
    length (filter (fun r => EmailJob.scheduleId r = scheduleId
                             /\ EmailJob.status r = status) (emailJob w))).

Definition emailSchedule_findUnique (id : string) : M (option EmailSchedule.t) :=
  gets (fun w => find (scheduleHasId id) (emailSchedule w)).

Definition emailSchedule_update (id : string)
    (data : EmailSchedule.t -> EmailSchedule.t) : M unit :=
  let* found := emailSchedule_findUnique id in
  match found with
  | Some _ => modify (set_emailSchedule (updateFirst (scheduleHasId id) data))
  | None => throw notFound
  end.

Definition emailSchedule_create (row : EmailSchedule.t) : M EmailSchedule.t :=
  let* found := emailSchedule_findUnique (EmailSchedule.id row) in
  match found with
  | Some _ => throw uniqueViolation
  | None =>
      let* _ := modify (set_emailSchedule (fun rows => rows ++ [row])) in
      ret row
  end.

(** [prisma.user.upsert({ where: { id }, update: {}, create })] *)
Definition user_upsert (row : User.t) : M unit :=
  modify (set_user (fun rows =>
    match find (userHasId (User.id row)) rows with
    | Some _ => rows
    | None => rows ++ [row]
    end)).

(** [prisma.rateLimitCounter.findUnique({ where: { hour_sender } })],
    projected on [count]. *)
Definition rateLimitCounter_findUnique (hour sender : string) : M (option Z) :=
  gets (fun w => rateLimitCounter w !! (hour, sender)).

(** [prisma.rateLimitCounter.upsert], writing [count] in both branches. *)
Definition rateLimitCounter_upsert (hour sender : string) (count : Z) : M unit :=
  modify (set_rateLimitCounter (fun m => <[(hour, sender) := count]> m)).

End Prisma.

(** ** config/connections.ts: the Redis client *)

Module Redis.

(** [redis.get(key)] followed by [parseInt(_, 10)] *)
Definition get (key : string) : M (option Z) :=
  gets (fun w => redis w !! key).

(** [redis.incr(key)]: an absent key counts as 0. *)
Definition incr (key : string) : M Z :=
  let* cur := get key in
  let n := match cur with Some c => c + 1 | None => 1 end in
  let* _ := modify (set_redis (fun m => <[key := n]> m)) in
  ret n.

(** [redis.expire(key, seconds)] *)
Definition expire (key : string) (seconds : Z) : M unit :=
  modify (set_redisTtl (fun m => <[key := seconds]> m)).

End Redis.

(** ** services/rateLimitService.ts *)

Definition HOUR_IN_SECONDS : Z := 3600.

(** [getHourWindow(date)]: the hour window "YYYY-MM-DD-HH" of an instant. *)
Definition getHourWindow (date : Z) : string :=
  let year := JsDate.getUTCFullYear date in
  let month := Js.padStart2 (Js.toString (JsDate.getUTCMonth date + 1)) in
  let day := Js.padStart2 (Js.toString (JsDate.getUTCDate date)) in
  let hour := Js.padStart2 (Js.toString (JsDate.getUTCHours date)) in
  Js.toString year +:+ "-" +:+ month +:+ "-" +:+ day +:+ "-" +:+ hour.

(** [getNextHourWindow(hourWindow)]: the instant the next window starts;
    [None] is the invalid date. *)
Definition getNextHourWindow (hourWindow : string) : option Z :=
  match map Js.Number (Js.split "-" hourWindow) with
  | Some year :: Some month :: Some day :: Some hour :: _ =>
      Some (JsDate.UTC year (month - 1) day hour + JsDate.msPerHour)
  | _ => None
  end.

Definition rateLimitKey (hourWindow sender : string) : string :=
  "rate-limit:" +:+ hourWindow +:+ ":" +:+ sender.

Record RateLimitCheck : Type := {
  canSend : bool;
  currentCount : Z;
  limit : Z;
  nextWindowTime : option Z;
}.

(** [checkRateLimit(sender, limit)] *)
Definition checkRateLimit (sender : string) (limit : Z) : M RateLimitCheck :=
  let* _ := emit (RateLimiterCheck sender limit) in
  let* t := dateNow in
  let hourWindow := getHourWindow t in
  let redisKey := rateLimitKey hourWindow sender in
  tryCatch
    (let* count := Redis.get redisKey in
     let* currentCount :=
       match count with
       | Some c => ret c
       | None =>
           let* dbRecord := Prisma.rateLimitCounter_findUnique hourWindow sender in
           ret (match dbRecord with Some c => c | None => 0 end)
       end in
     let canSend := currentCount <? limit in
     let nextWindow := getNextHourWindow hourWindow in
     ret {| canSend := canSend; currentCount := currentCount;
            limit := limit; nextWindowTime := nextWindow |})
    (fun error => throw error).

(** [incrementRateLimit(sender)] *)
Definition incrementRateLimit (sender : string) : M Z :=
  let* _ := emit (RateLimiterIncrement sender) in
  let* t := dateNow in
  let hourWindow := getHourWindow t in
  let redisKey := rateLimitKey hourWindow sender in
  tryCatch
    (let* newCount := Redis.incr redisKey in
     let* _ :=
       if newCount =? 1 then Redis.expire redisKey (HOUR_IN_SECONDS + 60)
       else ret tt in
     (* the upsert is not awaited and its rejection is only logged; it
        is run at once here *)
     let* _ := Prisma.rateLimitCounter_upsert hourWindow sender newCount in
     ret newCount)
    (fun error => throw error).

(** ** services/emailService.ts *)

Record SendResult : Type := {
  success : bool;
  messageId : option string;
  error : option string;
}.

Definition notInitialized : string :=
  "Email transporter not initialized. Call initializeEmailTransporter() first.".

(** [getEmailTransporter()] *)
Definition getEmailTransporter : M unit :=
  let* ready := gets emailTransporter in
  if ready then ret tt
  else throw (JsError notInitialized).

(** [transporter.sendMail(mailOptions)] *)
Definition transporter_sendMail (env : Env) (mailOptions : MailOptions) : M string :=
  let* _ := emit (MailerSend (to mailOptions)) in
  let* n := gets mailerCalls in
  let* _ := modify (set_mailerCalls S) in
  match sendMail env n mailOptions with
  | Delivered messageId => ret messageId
  | Rejected e => throw e
  end.

(** The [html] template of the mail (attribute quotes written as single
    quotes). *)
Definition htmlOf (body : string) (t : Z) : string :=
  "<html><body style='font-family: Arial, sans-serif; line-height: 1.6;'>"
  +:+ body
  +:+ "<hr style='margin-top: 2rem; border: none; border-top: 1px solid #ddd;'>"
  +:+ "<p style='color: #666; font-size: 12px;'>"
  +:+ "This is a test email sent via Ethereal Email.<br/>Message ID: "
  +:+ Js.toString t +:+ "</p></body></html>".

(** [sendEmail(recipient, subject, body, sender, attachments)] *)
Definition sendEmail (env : Env) (recipient subject body sender : string)
    (attachments : list Attachment) : M SendResult :=
  tryCatch
    (let* _ := getEmailTransporter in
     let* t := dateNow in
     let mailOptions :=
       {| from := sender; to := recipient; mailSubject := subject;
          html := htmlOf body t; text := body;
          mailAttachments := attachments |} in
     let* messageId := transporter_sendMail env mailOptions in
     ret {| success := true; messageId := Some messageId; error := None |})
    (fun error =>
       let errorMessage := messageOf error in
       ret {| success := false; messageId := None; error := Some errorMessage |}).

(** The [data] of the update in [updateEmailJobStatus]; an [undefined]
    field leaves its column as it is. *)
Definition jobStatusPatch (status : JobStatus) (sentTime : option Z)
    (errorMessage : option string) (t : Z) (r : EmailJob.t) : EmailJob.t :=
  {| EmailJob.id := EmailJob.id r;
     EmailJob.scheduleId := EmailJob.scheduleId r;
     EmailJob.userId := EmailJob.userId r;
     EmailJob.recipient := EmailJob.recipient r;
     EmailJob.subject := EmailJob.subject r;
     EmailJob.body := EmailJob.body r;
     EmailJob.scheduledTime := EmailJob.scheduledTime r;
     EmailJob.status := status;
     EmailJob.sentTime :=
       match sentTime with Some t' => Some t' | None => EmailJob.sentTime r end;
     EmailJob.errorMessage :=
       match errorMessage with Some m => Some m | None => EmailJob.errorMessage r end;
     EmailJob.jobId := EmailJob.jobId r;
     EmailJob.updatedAt := t |}.

(** [updateEmailJobStatus(jobId, status, { sentTime, errorMessage })] *)
Definition updateEmailJobStatus (jobId : string) (status : JobStatus)
    (sentTime : option Z) (errorMessage : option string) : M unit :=
  let* _ := emit (StoreUpdateJob jobId status) in
  tryCatch
    (let* t := dateNow in
     Prisma.emailJob_update jobId (jobStatusPatch status sentTime errorMessage t))
    (fun error => throw error).

(** [getEmailJobCountByStatus(scheduleId, status)] *)
Definition getEmailJobCountByStatus (scheduleId : string) (status : JobStatus) : M nat :=
  tryCatch (Prisma.emailJob_count scheduleId status) (fun error => throw error).

Definition scheduleCountsPatch (sentCount failedCount : nat) (isCompleted : bool)
    (t : Z) (r : EmailSchedule.t) : EmailSchedule.t :=
  {| EmailSchedule.id := EmailSchedule.id r;
     EmailSchedule.userId := EmailSchedule.userId r;
     EmailSchedule.subject := EmailSchedule.subject r;
     EmailSchedule.body := EmailSchedule.body r;
     EmailSchedule.recipients := EmailSchedule.recipients r;
     EmailSchedule.startTime := EmailSchedule.startTime r;
     EmailSchedule.delayMs := EmailSchedule.delayMs r;
     EmailSchedule.hourlyLimit := EmailSchedule.hourlyLimit r;
     EmailSchedule.totalCount := EmailSchedule.totalCount r;
     EmailSchedule.sentCount := sentCount;
     EmailSchedule.failedCount := failedCount;
     EmailSchedule.status := if isCompleted then Completed else InProgress;
     EmailSchedule.updatedAt := t |}.

(** [updateScheduleCounts(scheduleId)] *)
Definition updateScheduleCounts (scheduleId : string) : M unit :=
  let* _ := emit (StoreUpdateCounts scheduleId) in
  tryCatch
    (let* sentCount := getEmailJobCountByStatus scheduleId Sent in
     let* failedCount := getEmailJobCountByStatus scheduleId Failed in
     let* schedule := Prisma.emailSchedule_findUnique scheduleId in
     match schedule with
     | Some schedule =>
         let sentPlus := (sentCount + failedCount)%nat in
         let isCompleted := (EmailSchedule.totalCount schedule <=? sentPlus)%nat in
         let* t := dateNow in
         Prisma.emailSchedule_update scheduleId
           (scheduleCountsPatch sentCount failedCount isCompleted t)
     | None => ret tt
     end)
    (fun error => throw error).

(** ** services/queueService.ts *)

(** [defaultJobOptions] of the queue: [attempts] and the base [delay] of
    the exponential [backoff]. *)
Definition queueAttempts : nat := 3.
Definition queueBackoffDelay : Z := 2000.

(** [getQueue()] *)
Definition getQueue : M (list QueuedJob.t) :=
  let* q := gets emailQueue in
  match q with
  | Some jobs => ret jobs
  | None => throw (JsError "Queue not initialized. Call initializeQueue() first.")
  end.

(** [queue.add(name, data, { delay, jobId })]: BullMQ keeps one job per
    [jobId]; adding an id it already holds returns the job it holds. *)
Definition queue_add (name : string) (data : EmailJobData.t) (delay : Z)
    (jobId : string) : M string :=
  let* _ := emit (QueueAdd name delay jobId) in
  let* _ := modify (set_emailQueue (fun q =>
    match q with
    | Some jobs =>
        match find (fun j => String.eqb (QueuedJob.jobId j) jobId) jobs with
        | Some _ => Some jobs
        | None =>
            Some (jobs ++ [ {| QueuedJob.name := name; QueuedJob.data := data;
                               QueuedJob.delay := delay; QueuedJob.jobId := jobId |} ])
        end
    | None => None
    end)) in
  ret jobId.

(** [scheduleEmailJob(data)] *)
Definition scheduleEmailJob (data : EmailJobData.t) : M string :=
  let* _ := getQueue in
  let* t := dateNow in
  let delay := EmailJobData.scheduledTime data - t in
  let* t' := dateNow in
  queue_add ("email-" +:+ EmailJobData.recipient data) data (Z.max 0 delay)
    (EmailJobData.scheduleId data +:+ "-" +:+ EmailJobData.recipient data
       +:+ "-" +:+ Js.toString t').

(** [job.moveToDelayed(delayMs, job.token)] *)
Definition job_moveToDelayed (job : Job.t) (delayMs : Z) : M unit :=
  emit (QueueMoveToDelayed (Job.id job) delayMs).

(** [result.error || 'Failed to send email'] *)
Definition errorOr (e : option string) (dflt : string) : string :=
  match e with
  | Some m => if Js.truthy m then m else dflt
  | None => dflt
  end.

(** The part of the processor from [// Send email] to the end of the
    [try] block. *)
Definition sendAndRecord (env : Env) (job : Job.t) (sender : string)
    : M (option SendResult) :=
  let data := Job.data job in
  let scheduleId := EmailJobData.scheduleId data in
  let* result :=
    sendEmail env (EmailJobData.recipient data) (EmailJobData.subject data)
      (EmailJobData.body data) sender (EmailJobData.attachments data) in
  if success result then
    let* _ := incrementRateLimit sender in
    let* emailJob := Prisma.emailJob_findUnique scheduleId in
    let* _ :=
      match emailJob with
      | Some _ =>
          let* t := dateNow in
          updateEmailJobStatus scheduleId Sent (Some t) None
      | None => ret tt
      end in
    let* _ := sleep (DELAY_BETWEEN_EMAILS_MS env) in
    let* _ := updateScheduleCounts scheduleId in
    ret (Some {| success := true; messageId := messageId result; error := None |})
  else
    let* emailJob := Prisma.emailJob_findUnique scheduleId in
    let* _ :=
      match emailJob with
      | Some _ => updateEmailJobStatus scheduleId Failed None (error result)
      | None => ret tt
      end in
    let* _ := updateScheduleCounts scheduleId in
    throw (JsError (errorOr (error result) "Failed to send email")).

(** The processor given to [new Worker('emails', async (job) => ...)] in
    [initializeWorker]. [Val None] is the bare [return] after
    [moveToDelayed]. *)
Definition processor (env : Env) (job : Job.t) : M (option SendResult) :=
  tryCatch
    (let sender := "noreply@reachinbox.app" in
     let* rateLimitCheck := checkRateLimit sender (MAX_EMAILS_PER_HOUR env) in
     if negb (canSend rateLimitCheck) then
       let nextWindow := nextWindowTime rateLimitCheck in
       let* t := dateNow in
       match nextWindow with
       | Some next =>
           let delayMs := next - t in
           if 0 <? delayMs then
             let* _ := job_moveToDelayed job delayMs in
             ret None
           else sendAndRecord env job sender
       | None => sendAndRecord env job sender
       end
     else sendAndRecord env job sender)
    (fun error =>
       let errorMessage := messageOf error in
       let scheduleId := EmailJobData.scheduleId (Job.data job) in
       let* emailJob := Prisma.emailJob_findUnique scheduleId in
       let* _ :=
         match emailJob with
         | Some _ => updateEmailJobStatus scheduleId Failed None (Some errorMessage)
         | None => ret tt
         end in
       throw error).

(** ** controllers/emailController.ts *)

(** [startTime] of the request body, after [new Date(startTime)]. *)
Inductive StartTime : Type :=
| StartMissing
| StartInvalid
| StartAt (t : Z).

(** What [scheduleEmails] reads from the request: the [x-user-id] header
    and the body. [None] is an absent field; [reqRecipients = None] also
    covers a value that is not an array. *)
Record Request : Type := {
  reqUserId : option string;
  reqSubject : option string;
  reqBody : option string;
  reqRecipients : option (list string);
  reqStartTime : StartTime;
  reqDelayMs : option Z;
  reqHourlyLimit : option Z;
  reqAttachments : option (list Attachment);
}.

Inductive Response : Type :=
| Created (scheduleId : string) (totalEmails : nat) (createdJobs : nat)
| BadRequest (error : string)
| Unauthorized (error : string)
| ServerError (message : string).

Record CreatedJob : Type := {
  cjJobId : string;
  cjRecipient : string;
  cjScheduledTime : Z;
}.

Definition falsy (s : option string) : bool :=
  match s with
  | Some s' => negb (Js.truthy s')
  | None => true
  end.

Definition next_uuid (env : Env) : M string :=
  let* n := gets uuidCalls in
  let* _ := modify (set_uuidCalls S) in
  ret (uuidv4 env n).

(** The [try] block of the loop of [scheduleEmails] for the row
    [emailJob]: the job is given to the queue, pushed on [createdJobs], and
    its queue id written to the row; a failure is logged and the loop goes
    on. *)
Definition enqueueAndLink (emailJob : EmailJob.t) (data : EmailJobData.t)
    (createdJobs : list CreatedJob) : M (list CreatedJob) :=
  tryCatch
    (let* jobId := scheduleEmailJob data in
     let pushed := createdJobs ++
       [ {| cjJobId := jobId; cjRecipient := EmailJobData.recipient data;
            cjScheduledTime := EmailJobData.scheduledTime data |} ] in
     tryCatch
       (let* t := dateNow in
        let* _ := Prisma.emailJob_update (EmailJob.id emailJob)
          (fun r =>
             {| EmailJob.id := EmailJob.id r;
                EmailJob.scheduleId := EmailJob.scheduleId r;
                EmailJob.userId := EmailJob.userId r;
                EmailJob.recipient := EmailJob.recipient r;
                EmailJob.subject := EmailJob.subject r;
                EmailJob.body := EmailJob.body r;
                EmailJob.scheduledTime := EmailJob.scheduledTime r;
                EmailJob.status := EmailJob.status r;
                EmailJob.sentTime := EmailJob.sentTime r;
                EmailJob.errorMessage := EmailJob.errorMessage r;
                EmailJob.jobId := Some jobId;
                EmailJob.updatedAt := t |}) in
        ret pushed)
       (fun _ => ret pushed))
    (fun _ => ret createdJobs).

(** The [for] loop of [scheduleEmails], from index [i] on. *)
Fixpoint scheduleLoop (env : Env) (schedule : EmailSchedule.t) (userId : string)
    (subject body : string) (attachments : list Attachment)
    (scheduleStartTime delayMs : Z) (i : nat) (rest : list string)
    (createdJobs : list CreatedJob) : M (list CreatedJob) :=
  match rest with
  | [] => ret createdJobs
  | recipient :: rest' =>
      let scheduledTime := scheduleStartTime + Z.of_nat i * delayMs in
      let* jid := next_uuid env in
      let* t := dateNow in
      let* emailJob := Prisma.emailJob_create
        {| EmailJob.id := jid;
           EmailJob.scheduleId := EmailSchedule.id schedule;
           EmailJob.userId := userId;
           EmailJob.recipient := recipient;
           EmailJob.subject := subject;
           EmailJob.body := body;
           EmailJob.scheduledTime := scheduledTime;
           EmailJob.status := Pending;
           EmailJob.sentTime := None;
           EmailJob.errorMessage := None;
           EmailJob.jobId := None;
           EmailJob.updatedAt := t |} in
      let* createdJobs' :=
        enqueueAndLink emailJob
          {| EmailJobData.scheduleId := EmailSchedule.id schedule;
             EmailJobData.userId := userId;
             EmailJobData.recipient := recipient;
             EmailJobData.subject := subject;
             EmailJobData.body := body;
             EmailJobData.scheduledTime := scheduledTime;
             EmailJobData.attachments := attachments |}
          createdJobs in
      scheduleLoop env schedule userId subject body attachments
        scheduleStartTime delayMs (S i) rest' createdJobs'
  end.

(** Modelled from the spec: the Prisma schema (prisma/schema.prisma) is
    not among the sources. A campaign is created [scheduled] and becomes
    [in-progress] once [sentCount + failedCount >= 1], its counters being
    written by the aggregator alone: the counters of a new row, which
    [emailSchedule.create] leaves to the schema, start at 0. *)
Definition schemaDefaultCount : nat := 0.

(** [scheduleEmails(req, res)]; the value is the response sent. The
    nullable columns that [emailJob.create] leaves out are null. *)
Definition scheduleEmails (env : Env) (req : Request) : M Response :=
  tryCatch
    (let delayMs := default 2000 (reqDelayMs req) in
     let hourlyLimit := default 200 (reqHourlyLimit req) in
     let attachments := default [] (reqAttachments req) in
     match reqUserId req with
     | None => ret (Unauthorized "User ID required")
     | Some userId =>
     if negb (Js.truthy userId) then ret (Unauthorized "User ID required") else
     match reqRecipients req with
     | None => ret (BadRequest "Missing required fields")
     | Some recipients =>
     if falsy (reqSubject req) || falsy (reqBody req)
        || (length recipients =? 0)%nat
     then ret (BadRequest "Missing required fields") else
     let subject := default EmptyString (reqSubject req) in
     let body := default EmptyString (reqBody req) in
     match reqStartTime req with
     | StartMissing => ret (BadRequest "startTime is required")
     | StartInvalid => ret (BadRequest "Invalid startTime format")
     | StartAt scheduleStartTime =>
     let invalidEmails :=
       List.filter (fun email => negb (Regex.test Regex.emailRegex (Js.trim email)))
         recipients in
     if (0 <? length invalidEmails)%nat then
       ret (BadRequest ("Invalid email addresses: " +:+ Js.join ", " invalidEmails))
     else
     let validRecipients := List.filter Js.truthy (map Js.trim recipients) in
     let* _ := Prisma.user_upsert
       {| User.id := userId; User.email := userId;
          User.name := Js.splitHead "@" userId |} in
     let* sid := next_uuid env in
     let* t := dateNow in
     let* schedule := Prisma.emailSchedule_create
       {| EmailSchedule.id := sid;
          EmailSchedule.userId := userId;
          EmailSchedule.subject := subject;
          EmailSchedule.body := body;
          EmailSchedule.recipients := validRecipients;
          EmailSchedule.startTime := scheduleStartTime;
          EmailSchedule.delayMs := delayMs;
          EmailSchedule.hourlyLimit := hourlyLimit;
          EmailSchedule.totalCount := length validRecipients;
          EmailSchedule.sentCount := schemaDefaultCount;
          EmailSchedule.failedCount := schemaDefaultCount;
          EmailSchedule.status := Scheduled;
          EmailSchedule.updatedAt := t |} in
     let* createdJobs :=
       scheduleLoop env schedule userId subject body attachments
         scheduleStartTime delayMs 0 validRecipients [] in
     ret (Created (EmailSchedule.id schedule) (length validRecipients)
            (length createdJobs))
     end end end)
    (fun error => ret (ServerError (messageOf error))).

(** ** Runs of the backend *)

(** The states the backend reaches from empty tables: requests to
    [scheduleEmails] and runs of the worker's processor, in any order,
    with any collaborators, while time passes. The two Store writes of a
    run of the worker, [updateEmailJobStatus] and [updateScheduleCounts],
    are steps of their own as well, so that the states between the writes
    of runs that overlap are reached too. *)
Inductive reachable : World -> Prop :=
| reach_init w :
    emailSchedule w = [] -> emailJob w = [] -> reachable w
| reach_schedule env req w :
    reachable w -> reachable (scheduleEmails env req w).2
| reach_process env job w :
    reachable w -> reachable (processor env job w).2
| reach_update jobId status sentTime errorMessage w :
    reachable w ->
    reachable (updateEmailJobStatus jobId status sentTime errorMessage w).2
| reach_counts scheduleId w :
    reachable w -> reachable (updateScheduleCounts scheduleId w).2
| reach_tick ms w :
    reachable w -> reachable (set_now (fun t => t + Z.max 0 ms) w).

(** ** Vocabulary of the properties *)

(** The calls a computation makes when run from [w]. *)
Definition emitted {A} (m : M A) (w : World) : list Event :=
  drop (length (log w)) (log (m w).2).

(** What the scheduler fixes of a job row at creation: its campaign, its
    recipient and its due time. *)
Definition jobKey (r : EmailJob.t) : string * (string * Z) :=
  (EmailJob.scheduleId r, (EmailJob.recipient r, EmailJob.scheduledTime r)).

(** The (recipient, scheduledTime) of the job rows of a campaign, in the
    order the rows were created. *)
Definition campaignJobs (scheduleId : string) (w : World) : list (string * Z) :=
  (filter (fun k => k.1 = scheduleId) (map jobKey (emailJob w))).*2.

(** The keys of the job rows the loop of [scheduleEmails] creates for the
    recipients [rest], the first of them at index [i]. *)
Fixpoint loopKeys (scheduleId : string) (start delayMs : Z) (i : nat)
    (rest : list string) : list (string * (string * Z)) :=
  match rest with
  | [] => []
  | recipient :: rest' =>
      (scheduleId, (recipient, start + Z.of_nat i * delayMs))
        :: loopKeys scheduleId start delayMs (S i) rest'
  end.

(** Two worlds with the same campaign rows and the same job keys. *)
Definition sameTables (w w' : World) : Prop :=
  emailSchedule w' = emailSchedule w
  /\ map jobKey (emailJob w') = map jobKey (emailJob w).

(** A computation keeps a relation [R] when every run ends in a world
    related to the one it started from. *)
Definition keeps (R : World -> World -> Prop) {A} (m : M A) : Prop :=
  forall w, R w (m w).2.

(** A computation that always returns a value. *)
Definition returns {A} (m : M A) : Prop := forall w, exists a, (m w).1 = Val a.

(** A campaign row is consistent when it is [completed] exactly when its
    counters add up to its total. *)
Definition consistent (s : EmailSchedule.t) : Prop :=
  EmailSchedule.status s = Completed
  <-> (EmailSchedule.sentCount s + EmailSchedule.failedCount s
       = EmailSchedule.totalCount s)%nat.

(** The invariant of the tables: every campaign row is consistent and has
    at most [totalCount] job rows, and every job row belongs to a campaign
    row. *)
Definition tablesInv (w : World) : Prop :=
  (forall s, s ∈ emailSchedule w ->
     consistent s
     /\ (length (campaignJobs (EmailSchedule.id s) w) <= EmailSchedule.totalCount s)%nat)
  /\ (forall j, j ∈ emailJob w ->
        exists s, s ∈ emailSchedule w /\ EmailSchedule.id s = EmailJob.scheduleId j).

(** The world after a call was logged. *)
Definition logged (e : Event) (w : World) : World :=
  set_log (fun l => l ++ [e]) w.

(** The count [checkRateLimit] reads: the Redis key of the hour, else
    the table row of the hour, else 0. *)
Definition countedThisHour (sender : string) (w : World) : Z :=
  let hourWindow := getHourWindow (now w) in
  match redis w !! rateLimitKey hourWindow sender with
  | Some c => c
  | None => default 0 (rateLimitCounter w !! (hourWindow, sender))
  end.

(** The writes of [incrementRateLimit]. *)
Definition incrementedCount (sender : string) (w : World) : Z :=
  match redis w !! rateLimitKey (getHourWindow (now w)) sender with
  | Some c => c + 1
  | None => 1
  end.
Definition incremented (sender : string) (w : World) : World :=
  let hourWindow := getHourWindow (now w) in
  let key := rateLimitKey hourWindow sender in
  let n := incrementedCount sender w in
  set_rateLimitCounter (fun m => <[(hourWindow, sender) := n]> m)
    ((if n =? 1 then set_redisTtl (fun m => <[key := HOUR_IN_SECONDS + 60]> m)
      else fun w' => w')
       (set_redis (fun m => <[key := n]> m) w)).

(** The write of [updateEmailJobStatus] on the row it finds. *)
Definition jobMarked (id : string) (status : JobStatus) (sentTime : option Z)
    (errorMessage : option string) (w : World) : World :=
  set_emailJob
    (Prisma.updateFirst (Prisma.jobHasId id)
       (jobStatusPatch status sentTime errorMessage (now w))) w.

(** [findUnique] of a job row followed, when a row is found, by
    [updateEmailJobStatus]: the worker's way of recording an outcome. *)
Definition markedIfFound (id : string) (status : JobStatus) (sentTime : option Z)
    (errorMessage : option string) (w : World) : World :=
  match find (Prisma.jobHasId id) (emailJob w) with
  | Some _ => jobMarked id status sentTime errorMessage (logged (StoreUpdateJob id status) w)
  | None => w
  end.

Definition countByStatus (scheduleId : string) (status : JobStatus) (w : World) : nat :=
  length (filter (fun r => EmailJob.scheduleId r = scheduleId
                           /\ EmailJob.status r = status) (emailJob w)).

(** The write of [updateScheduleCounts]. *)
Definition recounted (scheduleId : string) (w : World) : World :=
  match find (Prisma.scheduleHasId scheduleId) (emailSchedule w) with
  | Some schedule =>
      let sentCount := countByStatus scheduleId Sent w in
      let failedCount := countByStatus scheduleId Failed w in
      set_emailSchedule
        (Prisma.updateFirst (Prisma.scheduleHasId scheduleId)
           (scheduleCountsPatch sentCount failedCount
              (EmailSchedule.totalCount schedule <=? sentCount + failedCount)%nat
              (now w))) w
  | None => w
  end.

(** The world after [sleep ms]. *)
Definition slept (ms : Z) (w : World) : World :=
  set_now (fun t => t + Z.max 0 ms) (logged (Sleep ms) w).

(** Whether the worker puts the job back for the next hour window, and
    with which delay. *)
Definition defers (sender : string) (limit : Z) (w : World) : option Z :=
  if countedThisHour sender w <? limit then None
  else
    match getNextHourWindow (getHourWindow (now w)) with
    | Some next => if 0 <? next - now w then Some (next - now w) else None
    | None => None
    end.

(** The mail the worker composes for a job at instant [t]. *)
Definition mailFor (sender : string) (data : EmailJobData.t) (t : Z) : MailOptions :=
  {| from := sender; to := EmailJobData.recipient data;
     mailSubject := EmailJobData.subject data;
     html := htmlOf (EmailJobData.body data) t;
     text := EmailJobData.body data;
     mailAttachments := EmailJobData.attachments data |}.

(** The sender identity the worker uses for every job. *)
Definition workerSender : string := "noreply@reachinbox.app".

(** The calls of an update of the looked-up row: one when the row
    exists. *)
Definition updateCalls (id : string) (status : JobStatus) (w : World) : list Event :=
  match find (Prisma.jobHasId id) (emailJob w) with
  | Some _ => [StoreUpdateJob id status]
  | None => []
  end.

(** The calls one run of the processor makes, in order. *)
Definition processorCalls (env : Env) (job : Job.t) (w : World) : list Event :=
  let data := Job.data job in
  let sid := EmailJobData.scheduleId data in
  RateLimiterCheck workerSender (MAX_EMAILS_PER_HOUR env) ::
  match defers workerSender (MAX_EMAILS_PER_HOUR env) w with
  | Some d => [QueueMoveToDelayed (Job.id job) d]
  | None =>
      if emailTransporter w then
        MailerSend (EmailJobData.recipient data) ::
        match sendMail env (mailerCalls w) (mailFor workerSender data (now w)) with
        | Delivered _ =>
            RateLimiterIncrement workerSender :: updateCalls sid Sent w
              ++ [Sleep (DELAY_BETWEEN_EMAILS_MS env); StoreUpdateCounts sid]
        | Rejected _ =>
            updateCalls sid Failed w ++ [StoreUpdateCounts sid] ++ updateCalls sid Failed w
        end
      else updateCalls sid Failed w ++ [StoreUpdateCounts sid] ++ updateCalls sid Failed w
  end.

(** The counters of the rate limiter stay under [limit]. *)
Definition underLimit (limit : Z) (w : World) : Prop :=
  0 < limit
  /\ (forall key c, redis w !! key = Some c -> c < limit)
  /\ (forall key c, rateLimitCounter w !! key = Some c -> c < limit).

(** [Check(sender, limit); Increment(sender); Check(sender, limit)]: the
    [currentCount] of the two checks. *)
Definition checkIncrementCheck (sender : string) (limit : Z) : M (Z * Z) :=
  let* c1 := checkRateLimit sender limit in
  let* _ := incrementRateLimit sender in
  let* c2 := checkRateLimit sender limit in
  ret (currentCount c1, currentCount c2).

(** [n] runs of the processor on one job, each from the state the run
    before it left. *)
Definition attempted (env : Env) (job : Job.t) (n : nat) (w : World) : World :=
  Nat.iter n (fun w0 => (processor env job w0).2) w.

(** ** Concrete runs *)

Module Fixture.

(** 2026-02-07T15:30:00.000Z *)
Definition t0 : Z := 1770478200000.

Definition uuid (n : nat) : string := "uuid-" +:+ pretty n.

(** A transport that delivers every mail. *)
Definition envDeliver : Env :=
  {| WORKER_CONCURRENCY := 5; DELAY_BETWEEN_EMAILS_MS := 2000;
     MAX_EMAILS_PER_HOUR := 200; uuidv4 := uuid;
     sendMail := fun n _ => Delivered ("<msg-" +:+ pretty n +:+ "@ethereal.email>") |}.

(** A transport that bounces every mail for good. *)
Definition envBounce : Env :=
  {| WORKER_CONCURRENCY := 5; DELAY_BETWEEN_EMAILS_MS := 2000;
     MAX_EMAILS_PER_HOUR := 200; uuidv4 := uuid;
     sendMail := fun _ _ => Rejected (JsError "550 5.1.1 mailbox unavailable") |}.

(** A transport that rejects with an [Error] whose message is empty. *)
Definition envSilent : Env :=
  {| WORKER_CONCURRENCY := 5; DELAY_BETWEEN_EMAILS_MS := 2000;
     MAX_EMAILS_PER_HOUR := 200; uuidv4 := uuid;
     sendMail := fun _ _ => Rejected (JsError EmptyString) |}.

(** A [uuidv4] whose first two values coincide: the campaign row and its
    first job row get the same id (they live in different tables). *)
Definition envSameId : Env :=
  {| WORKER_CONCURRENCY := 5; DELAY_BETWEEN_EMAILS_MS := 2000;
     MAX_EMAILS_PER_HOUR := 200;
     uuidv4 := fun n => match n with O => "uuid-0" | S m => uuid m end;
     sendMail := fun n _ => Delivered ("<msg-" +:+ pretty n +:+ "@ethereal.email>") |}.

(** The backend after start-up: empty tables, queue and transport ready. *)
Definition booted : World :=
  {| redis := ∅; redisTtl := ∅; rateLimitCounter := ∅;
     emailSchedule := []; emailJob := []; user := [];
     emailQueue := Some []; emailTransporter := true;
     now := t0; uuidCalls := 0; mailerCalls := 0; log := [] |}.

Definition request (recipients : list string) (hourlyLimit : Z) : Request :=
  {| reqUserId := Some "owner@x.io"; reqSubject := Some "Hi";
     reqBody := Some "<p>Hi</p>"; reqRecipients := Some recipients;
     reqStartTime := StartAt (t0 + 100); reqDelayMs := Some 1000;
     reqHourlyLimit := Some hourlyLimit; reqAttachments := None |}.

(** The job the queue hands to the worker for a recipient of campaign
    [scheduleId]. *)
Definition jobFor (scheduleId recipient : string) (scheduledTime : Z) : Job.t :=
  {| Job.id := scheduleId +:+ "-" +:+ recipient +:+ "-" +:+ Js.toString t0;
     Job.data :=
       {| EmailJobData.scheduleId := scheduleId;
          EmailJobData.userId := "owner@x.io";
          EmailJobData.recipient := recipient;
          EmailJobData.subject := "Hi";
          EmailJobData.body := "<p>Hi</p>";
          EmailJobData.scheduledTime := scheduledTime;
          EmailJobData.attachments := [] |};
     Job.token := "token";
     Job.attemptsMade := 0 |}.

(** One campaign with one recipient, submitted to the booted backend. *)
Definition oneScheduled : World :=
  (scheduleEmails envDeliver (request ["a@x.io"] 10) booted).2.

(** The same address twice, differing in case and padding. *)
Definition twiceScheduled : World :=
  (scheduleEmails envDeliver (request ["a@x.io"; " A@x.io "] 10) booted).2.

(** One campaign whose job row has the id of the campaign row. *)
Definition sameIdScheduled : World :=
  (scheduleEmails envSameId (request ["a@x.io"] 10) booted).2.

(** The hour's counter lost from Redis while the table holds 5. *)
Definition evicted : World :=
  set_rateLimitCounter (fun m => <[(getHourWindow t0, workerSender) := 5]> m) booted.

(** A campaign capped at 1 mail per hour, with one mail already counted
    in the hour. *)
Definition cappedAtOne : World :=
  set_redis (fun m => <[rateLimitKey (getHourWindow t0) workerSender := 1]> m)
    (scheduleEmails envDeliver (request ["a@x.io"; "b@x.io"] 1) booted).2.

(** The worker's runs on [sameIdScheduled]: a bounce, then a delivery,
    then a bounce again. *)
Definition sameIdJob : Job.t := jobFor "uuid-0" "a@x.io" (t0 + 100).
Definition afterBounce : World := (processor envBounce sameIdJob sameIdScheduled).2.
Definition afterDelivery : World := (processor envDeliver sameIdJob afterBounce).2.
Definition afterSecondBounce : World := (processor envBounce sameIdJob afterDelivery).2.

(** The campaign row of [oneScheduled] after its mail was delivered. *)
Definition deliveredRow : EmailSchedule.t :=
  {| EmailSchedule.id := "uuid-0"; EmailSchedule.userId := "owner@x.io";
     EmailSchedule.subject := "Hi"; EmailSchedule.body := "<p>Hi</p>";
     EmailSchedule.recipients := ["a@x.io"]; EmailSchedule.startTime := t0 + 100;
     EmailSchedule.delayMs := 1000; EmailSchedule.hourlyLimit := 10;
     EmailSchedule.totalCount := 1; EmailSchedule.sentCount := 0;
     EmailSchedule.failedCount := 0; EmailSchedule.status := InProgress;
     EmailSchedule.updatedAt := t0 + 2000 |}.

(** The campaign row of [afterDelivery]. *)
Definition completedRow : EmailSchedule.t :=
  {| EmailSchedule.id := "uuid-0"; EmailSchedule.userId := "owner@x.io";
     EmailSchedule.subject := "Hi"; EmailSchedule.body := "<p>Hi</p>";
     EmailSchedule.recipients := ["a@x.io"]; EmailSchedule.startTime := t0 + 100;
     EmailSchedule.delayMs := 1000; EmailSchedule.hourlyLimit := 10;
     EmailSchedule.totalCount := 1; EmailSchedule.sentCount := 1;
     EmailSchedule.failedCount := 0; EmailSchedule.status := Completed;
     EmailSchedule.updatedAt := t0 + 2000 |}.

(** Id, status and sentTime of the job rows. *)
Definition jobStates (w : World) : list (string * JobStatus * option Z) :=
  map (fun r => (EmailJob.id r, EmailJob.status r, EmailJob.sentTime r)) (emailJob w).

End Fixture.

(** * More of the code *)

(** ** services/rateLimitService.ts: [resetRateLimit] *)

(** [redis.del(...keys)]: the keys go, and their expiry with them. *)
Definition redis_del (keys : list string) : M unit :=
  modify (fun w =>
    set_redisTtl (fun m => foldr delete m keys)
      (set_redis (fun m => foldr delete m keys) w)).

(** [redis.keys(prefix + '*')] for a [prefix] without glob characters:
    the keys that start with [prefix], in no particular order. *)
Definition redis_keys (prefix : string) : M (list string) :=
  gets (fun w =>
    List.filter (String.prefix prefix) (map fst (map_to_list (redis w)))).

(** [prisma.rateLimitCounter.deleteMany({ where: { hour, sender } })] *)
Definition rateLimitCounter_deleteMany (hour sender : string) : M unit :=
  modify (set_rateLimitCounter (fun m => delete (hour, sender) m)).

(** [resetRateLimit(sender?)]; [None] is the argument left out. *)
Definition resetRateLimit (sender : option string) : M unit :=
  let* t := dateNow in
  let hourWindow := getHourWindow t in
  let resetAll :=
    let* keys := redis_keys ("rate-limit:" +:+ hourWindow +:+ ":") in
    if (0 <? length keys)%nat then redis_del keys else ret tt in
  match sender with
  | Some s =>
      if Js.truthy s then
        let redisKey := rateLimitKey hourWindow s in
        let* _ := redis_del [redisKey] in
        rateLimitCounter_deleteMany hourWindow s
      else resetAll
  | None => resetAll
  end.

(** ** frontend/src/lib/utils.ts: [parseEmails] *)

(** [c.toLowerCase()] on a byte: the letters A to Z. *)
Definition toLowerChar (c : ascii) : ascii :=
  let n := nat_of_ascii c in
  if ((65 <=? n)%nat && (n <=? 90)%nat) then ascii_of_nat (n + 32) else c.

(** [s.toLowerCase()] *)
Fixpoint toLowerCase (s : string) : string :=
  match s with
  | EmptyString => EmptyString
  | String c s' => String (toLowerChar c) (toLowerCase s')
  end.

(** [s.split(/[...]/)] for a character class [p]. *)
Fixpoint splitClass_go (p : ascii -> bool) (cur : string) (s : string) : list string :=
  match s with
  | EmptyString => [String.rev cur]
  | String c s' =>
      if p c then String.rev cur :: splitClass_go p EmptyString s'
      else splitClass_go p (String c cur) s'
  end.
Definition splitClass (p : ascii -> bool) (s : string) : list string :=
  splitClass_go p EmptyString s.

(** [[,;\t]] *)
Definition delimiter (c : ascii) : bool :=
  Ascii.eqb c "," || Ascii.eqb c ";" || Ascii.eqb c "009".

(** [set.add(x)] on a [Set] kept in insertion order. *)
Definition setAdd (x : string) (set : list string) : list string :=
  if decide (x ∈ set) then set else set ++ [x].

(** The body of the loop over [parts]. *)
Definition parsePart (emails : list string) (part : string) : list string :=
  let email := Js.trim part in
  if Regex.test Regex.emailRegex email then setAdd (toLowerCase email) emails
  else emails.

(** The body of the loop over [lines]. *)
Definition parseLine (emails : list string) (line : string) : list string :=
  let trimmed := Js.trim line in
  if negb (Js.truthy trimmed) then emails
  else foldl parsePart emails (splitClass delimiter trimmed).

(** [parseEmails(csvContent)] *)
Definition parseEmails (csvContent : string) : list string :=
  foldl parseLine [] (Js.split "010" csvContent).

(** [ComposeEmailModal]: the recipients of the request are parsed from
    the uploaded file and the text area, joined by a newline. *)
Definition composedRecipients (csvContent recipientsText : string) : list string :=
  parseEmails (csvContent +:+ String "010" recipientsText).

(** ** Vocabulary of the further properties *)

(** All characters of a string satisfy [p]. *)
Fixpoint allChars (p : ascii -> bool) (s : string) : bool :=
  match s with
  | EmptyString => true
  | String c s' => p c && allChars p s'
  end.

Definition isDigit (c : ascii) : bool :=
  match Js.digit c with Some _ => true | None => false end.

(** The day within its 400-year era, split in year of era, month and day
    of month as [JsDate.civilFromDays] does, and put together again as
    [JsDate.daysFromCivil] does. *)
Definition civilOfDoe (doe : Z) : Z * Z * Z :=
  let yoe := (doe - doe / 1460 + doe / 36524 - doe / 146096) / 365 in
  let doy := doe - (365 * yoe + yoe / 4 - yoe / 100) in
  let mp := (5 * doy + 2) / 153 in
  let d := doy - (153 * mp + 2) / 5 + 1 in
  let m := if mp <? 10 then mp + 3 else mp - 9 in
  (yoe, m, d).

Definition doeOfCivil (yoe m d : Z) : Z :=
  let doy := (153 * (if 2 <? m then m - 3 else m + 9) + 2) / 5 + d - 1 in
  yoe * 365 + yoe / 4 - yoe / 100 + doy.

Definition doeOk (doe : Z) : bool :=
  let '(yoe, m, d) := civilOfDoe doe in
  (0 <=? yoe) && (yoe <=? 399) && (1 <=? m) && (m <=? 12)
  && (1 <=? d) && (d <=? 31) && (doeOfCivil yoe m d =? doe).

(** [doeOk] on the [n] days from [doe] on. *)
Fixpoint doeOkFrom (n : nat) (doe : Z) : bool :=
  match n with
  | O => true
  | S k => if doeOk doe then doeOkFrom k (doe + 1) else false
  end.

(** The strings a regular expression denotes. *)
Inductive matches : Regex.t -> string -> Prop :=
| matches_eps : matches Regex.Eps EmptyString
| matches_class p c : p c = true -> matches (Regex.Class p) (String c EmptyString)
| matches_seq r1 r2 s1 s2 :
    matches r1 s1 -> matches r2 s2 -> matches (Regex.Seq r1 r2) (s1 +:+ s2)
| matches_alt_l r1 r2 s : matches r1 s -> matches (Regex.Alt r1 r2) s
| matches_alt_r r1 r2 s : matches r2 s -> matches (Regex.Alt r1 r2) s
| matches_star_nil r : matches (Regex.Star r) EmptyString
| matches_star_cons r s1 s2 :
    matches r s1 -> matches (Regex.Star r) s2 -> matches (Regex.Star r) (s1 +:+ s2).

(** A non-empty run of characters other than white space and [@]. *)
Definition token (s : string) : bool := Js.truthy s && allChars Regex.notSpaceAt s.

(** An address as [parseEmails] returns it: it passes the email pattern,
    holds no delimiter and no upper-case letter. *)
Definition normalized (e : string) : Prop :=
  Regex.test Regex.emailRegex e = true
  /\ allChars (fun c => negb (delimiter c)) e = true
  /\ toLowerCase e = e.

(** The recipients of the job rows, in the order the rows were created. *)
Definition jobRecipients (w : World) : list string :=
  map EmailJob.recipient (emailJob w).

(** The calls of [queue.add] the loop of [scheduleEmails] makes at
    instant [t] for the recipients [rest], the first of them at index
    [i]. *)
Fixpoint queueAdds (scheduleId : string) (start delayMs t : Z) (i : nat)
    (rest : list string) : list Event :=
  match rest with
  | [] => []
  | recipient :: rest' =>
      QueueAdd ("email-" +:+ recipient)
        (Z.max 0 (start + Z.of_nat i * delayMs - t))
        (scheduleId +:+ "-" +:+ recipient +:+ "-" +:+ Js.toString t)
        :: queueAdds scheduleId start delayMs t (S i) rest'
  end.

(** ** Runs that follow one another *)

(** A step of the backend as a whole: a request to [scheduleEmails], a
    run of the worker's processor from its start to its end, or time
    passing. *)
Inductive step : World -> World -> Prop :=
| step_schedule env req w : step w (scheduleEmails env req w).2
| step_process env job w : step w (processor env job w).2
| step_tick ms w : step w (set_now (fun t => t + Z.max 0 ms) w).

(** The states reached from empty tables by such steps. *)
Inductive served : World -> Prop :=
| served_init w : emailSchedule w = [] -> emailJob w = [] -> served w
| served_step w w' : served w -> step w w' -> served w'.

(** The job rows of a campaign that are sent or failed. *)
Definition settledAmong (scheduleId : string) (rows : list EmailJob.t) : nat :=
  length (filter (fun r => EmailJob.scheduleId r = scheduleId
                           /\ EmailJob.status r <> Pending) rows).
Definition settled (scheduleId : string) (w : World) : nat :=
  settledAmong scheduleId (emailJob w).

(** Two worlds with the same settled job rows. *)
Definition sameSettled (w w' : World) : Prop :=
  forall scheduleId, settled scheduleId w' = settled scheduleId w.

(** No campaign row counts more than the job rows that are settled. *)
Definition countsBehind (w : World) : Prop :=
  forall s, s ∈ emailSchedule w ->
    (EmailSchedule.sentCount s + EmailSchedule.failedCount s
     <= settled (EmailSchedule.id s) w)%nat.

(** The campaign row a lookup by id finds is [completed]. *)
Definition completed (scheduleId : string) (w : World) : Prop :=
  exists s, find (Prisma.scheduleHasId scheduleId) (emailSchedule w) = Some s
            /\ EmailSchedule.status s = Completed.



(** ** Further concrete runs *)

Module Cases.


(** The backend before [initializeQueue]. *)
Definition queueDown : World := set_emailQueue (fun _ => None) Fixture.booted.


(** A request from the compose form: a file with the same address in two
    spellings and a text area that repeats it. *)
Definition composed : Request :=
  Fixture.request (composedRecipients "a@x.io, A@X.IO" "b@x.io;a@x.io") 10.

(** A campaign of two recipients and the jobs the queue hands to the
    worker for them; every row has an id of its own. *)
Definition twoScheduled : World :=
  (scheduleEmails Fixture.envDeliver (Fixture.request ["a@x.io"; "b@x.io"] 10)
     Fixture.booted).2.
Definition jobA : Job.t := Fixture.jobFor "uuid-0" "a@x.io" (Fixture.t0 + 100).
Definition jobB : Job.t := Fixture.jobFor "uuid-0" "b@x.io" (Fixture.t0 + 1100).
Definition afterFirstDelivery : World :=
  (processor Fixture.envDeliver jobA twoScheduled).2.
Definition afterBothDeliveries : World :=
  (processor Fixture.envDeliver jobB afterFirstDelivery).2.

(** Id, totalCount, sentCount, failedCount and status of the campaign
    rows. *)
Definition campaignStates (w : World)
    : list (string * nat * nat * nat * ScheduleStatus) :=
  map (fun s => (EmailSchedule.id s, EmailSchedule.totalCount s,
                 EmailSchedule.sentCount s, EmailSchedule.failedCount s,
                 EmailSchedule.status s)) (emailSchedule w).

End Cases.

(** * Properties *)

(** ** The JavaScript library functions on examples *)

Example trim_example : Js.trim "  A@x.io " = "A@x.io".
Proof. reflexivity. Qed.

Example emailRegex_accepts : Regex.test Regex.emailRegex "a@x.io" = true.
Proof. reflexivity. Qed.

Example emailRegex_rejects :
  map (Regex.test Regex.emailRegex) ["a@x"; "a b@x.io"; "@x.io"; "a@@x.io"; "a@x."; ""]
  = [false; false; false; false; false; false].
Proof. reflexivity. Qed.

Example civil_example :
  JsDate.civilFromDays (1770478200000 / JsDate.msPerDay) = (2026, 2, 7)
  /\ JsDate.getUTCHours 1770478200000 = 15
  /\ JsDate.UTC 2026 1 7 15 = 1770476400000.
Proof. repeat split; reflexivity. Qed.

(** ** Running the monad by hand *)

Ltac munfold :=
  cbv [bind ret throw tryCatch gets modify emit dateNow sleep
       set_redis set_redisTtl set_rateLimitCounter set_emailSchedule
       set_emailJob set_user set_emailQueue set_now set_uuidCalls
       set_mailerCalls set_log
       redis redisTtl rateLimitCounter emailSchedule emailJob user
       emailQueue emailTransporter now uuidCalls mailerCalls log].

(** ** sendEmail never throws *)

(** C9 (as amended): [sendEmail] returns a tagged result on every input
    and never throws: success with the message id, or failure whose error
    text is the message of what was thrown, by [getEmailTransporter] or by
    the transport ('Unknown error' for a thrown value that is not an
    Error). The text is as empty as that message is. *)
Theorem sendEmail_total env recipient subject body sender atts w :
  exists res w',
    sendEmail env recipient subject body sender atts w = (Val res, w')
    /\ ((success res = true /\ error res = None
         /\ exists mid opts,
              messageId res = Some mid
              /\ sendMail env (mailerCalls w) opts = Delivered mid)
        \/ (success res = false /\ messageId res = None
            /\ exists e,
                 error res = Some (messageOf e)
                 /\ ((emailTransporter w = false /\ e = JsError notInitialized)
                     \/ exists opts, sendMail env (mailerCalls w) opts = Rejected e))).
Proof.
  unfold sendEmail, getEmailTransporter, transporter_sendMail.
  destruct w as [rd ttl rlc es ej us q ready t uc mc lg]. munfold.
  destruct ready.
  - match goal with
    | |- context [sendMail env mc ?o] =>
        destruct (sendMail env mc o) as [mid|e] eqn:Hsend
    end.
    + eexists _, _. split; [reflexivity|]. left. cbn. eauto 10.
    + eexists _, _. split; [reflexivity|]. right. cbn. eauto 10.
  - eexists _, _. split; [reflexivity|]. right. cbn.
    split; [done|]. split; [done|]. exists (JsError notInitialized). eauto.
Qed.

(** C9 (as stated) fails: a transport that rejects with an Error of empty
    message makes [sendEmail] return a failure whose error text is empty. *)
Lemma sendEmail_empty_error :
  (sendEmail Fixture.envSilent "a@x.io" "Hi" "<p>Hi</p>" workerSender []
     Fixture.booted).1
  = Val {| success := false; messageId := None; error := Some EmptyString |}.
Proof. reflexivity. Qed.

(** ** scheduleEmailJob *)

(** The delay given to the queue is [max(0, scheduledTime - now)]. *)
Lemma scheduleEmailJob_delay data w jobs :
  emailQueue w = Some jobs ->
  exists jobId w',
    scheduleEmailJob data w = (Val jobId, w')
    /\ emitted (scheduleEmailJob data) w
       = [QueueAdd ("email-" +:+ EmailJobData.recipient data)
            (Z.max 0 (EmailJobData.scheduledTime data - now w)) jobId]
    /\ (find (fun j => String.eqb (QueuedJob.jobId j) jobId) jobs = None ->
        emailQueue w'
        = Some (jobs ++ [ {| QueuedJob.name := "email-" +:+ EmailJobData.recipient data;
                             QueuedJob.data := data;
                             QueuedJob.delay := Z.max 0 (EmailJobData.scheduledTime data - now w);
                             QueuedJob.jobId := jobId |} ])).
Proof.
  intros Hq. unfold emitted, scheduleEmailJob, getQueue, queue_add.
  destruct w as [rd ttl rlc es ej us q ready t uc mc lg]. cbn in Hq. subst q.
  munfold. eexists _, _. split; [reflexivity|]. cbn. split.
  - by rewrite drop_app_length.
  - by intros ->.
Qed.

(** C10: a job whose [scheduledTime] is in the past when it is enqueued
    is given to the queue with delay 0, which is
    [max(0, scheduledTime - now)]: it is admitted as due at once, neither
    rejected nor given a negative delay. *)
Theorem scheduleEmailJob_past_due data w jobs :
  emailQueue w = Some jobs ->
  EmailJobData.scheduledTime data <= now w ->
  exists jobId w',
    scheduleEmailJob data w = (Val jobId, w')
    /\ Z.max 0 (EmailJobData.scheduledTime data - now w) = 0
    /\ emitted (scheduleEmailJob data) w
       = [QueueAdd ("email-" +:+ EmailJobData.recipient data) 0 jobId]
    /\ (find (fun j => String.eqb (QueuedJob.jobId j) jobId) jobs = None ->
        emailQueue w'
        = Some (jobs ++ [ {| QueuedJob.name := "email-" +:+ EmailJobData.recipient data;
                             QueuedJob.data := data;
                             QueuedJob.delay := 0;
                             QueuedJob.jobId := jobId |} ])).
Proof.
  intros Hq Hpast.
  destruct (scheduleEmailJob_delay data w jobs Hq) as (jobId & w' & Hrun & Hev & Hadd).
  assert (Hmax : Z.max 0 (EmailJobData.scheduledTime data - now w) = 0) by lia.
  rewrite Hmax in Hev, Hadd. eauto 10.
Qed.

(** C10 on a job that is five seconds overdue when it is enqueued. *)
Lemma scheduleEmailJob_past_due_witness :
  exists jobId w',
    scheduleEmailJob (Job.data (Fixture.jobFor "uuid-0" "a@x.io" (Fixture.t0 - 5000)))
      Fixture.booted = (Val jobId, w')
    /\ Z.max 0 (Fixture.t0 - 5000 - now Fixture.booted) = 0
    /\ emitted (scheduleEmailJob (Job.data (Fixture.jobFor "uuid-0" "a@x.io" (Fixture.t0 - 5000))))
         Fixture.booted
       = [QueueAdd "email-a@x.io" 0 jobId]
    /\ (find (fun j => String.eqb (QueuedJob.jobId j) jobId) [] = None ->
        emailQueue w'
        = Some ([] ++ [ {| QueuedJob.name := "email-a@x.io";
                           QueuedJob.data := Job.data (Fixture.jobFor "uuid-0" "a@x.io" (Fixture.t0 - 5000));
                           QueuedJob.delay := 0;
                           QueuedJob.jobId := jobId |} ])).
Proof.
  apply (scheduleEmailJob_past_due
           (Job.data (Fixture.jobFor "uuid-0" "a@x.io" (Fixture.t0 - 5000)))
           Fixture.booted []).
  - reflexivity.
  - vm_compute. discriminate.
Defined.

(** ** Equations of the services *)

Lemma bind_val {A B} (m : M A) (k : A -> M B) w a w' :
  m w = (Val a, w') -> bind m k w = k a w'.
Proof. unfold bind. by intros ->. Qed.

Lemma bind_throw {A B} (m : M A) (k : A -> M B) w e w' :
  m w = (Throw e, w') -> bind m k w = (Throw e, w').
Proof. unfold bind. by intros ->. Qed.

Lemma tryCatch_throw {A} (m : M A) h w e w' :
  m w = (Throw e, w') -> tryCatch m h w = h e w'.
Proof. unfold tryCatch. by intros ->. Qed.

Lemma checkRateLimit_run sender limit w :
  checkRateLimit sender limit w
  = (Val {| canSend := countedThisHour sender w <? limit;
            currentCount := countedThisHour sender w;
            limit := limit;
            nextWindowTime := getNextHourWindow (getHourWindow (now w)) |},
     logged (RateLimiterCheck sender limit) w).
Proof.
  unfold checkRateLimit, countedThisHour, Redis.get, Prisma.rateLimitCounter_findUnique.
  destruct w as [rd ttl rlc es ej us q ready t uc mc lg]. munfold.
  destruct (rd !! _); [reflexivity|]. by destruct (rlc !! _).
Qed.

Lemma incrementRateLimit_run sender w :
  incrementRateLimit sender w
  = (Val (incrementedCount sender w),
     incremented sender (logged (RateLimiterIncrement sender) w)).
Proof.
  unfold incrementRateLimit, incremented, incrementedCount, logged, Redis.incr,
    Redis.get, Redis.expire, Prisma.rateLimitCounter_upsert.
  destruct w as [rd ttl rlc es ej us q ready t uc mc lg]. munfold.
  destruct (rd !! _) as [c|]; [|reflexivity].
  by destruct (c + 1 =? 1).
Qed.

Lemma sendEmail_run env data sender w :
  sendEmail env (EmailJobData.recipient data) (EmailJobData.subject data)
    (EmailJobData.body data) sender (EmailJobData.attachments data) w
  = if emailTransporter w then
      let w' := set_mailerCalls S (logged (MailerSend (EmailJobData.recipient data)) w) in
      match sendMail env (mailerCalls w) (mailFor sender data (now w)) with
      | Delivered mid =>
          (Val {| success := true; messageId := Some mid; error := None |}, w')
      | Rejected e =>
          (Val {| success := false; messageId := None; error := Some (messageOf e) |}, w')
      end
    else
      (Val {| success := false; messageId := None;
              error := Some notInitialized |},
       w).
Proof.
  unfold sendEmail, getEmailTransporter, transporter_sendMail, mailFor, logged.
  destruct w as [rd ttl rlc es ej us q ready t uc mc lg]. munfold.
  destruct ready; [|reflexivity].
  by destruct (sendMail env mc _).
Qed.

Lemma updateEmailJobStatus_run id status sentTime errorMessage w r :
  find (Prisma.jobHasId id) (emailJob w) = Some r ->
  updateEmailJobStatus id status sentTime errorMessage w
  = (Val tt, jobMarked id status sentTime errorMessage (logged (StoreUpdateJob id status) w)).
Proof.
  unfold updateEmailJobStatus, Prisma.emailJob_update, Prisma.emailJob_findUnique,
    jobMarked, logged.
  destruct w as [rd ttl rlc es ej us q ready t uc mc lg]. munfold.
  by intros ->.
Qed.

Lemma find_run id w :
  Prisma.emailJob_findUnique id w = (Val (find (Prisma.jobHasId id) (emailJob w)), w).
Proof. reflexivity. Qed.

(** Looking a job row up and marking it when found, followed by [k]. *)
Lemma markIfFound_then {B} id status sentTime errorMessage (k : M B) w :
  (let* emailJob := Prisma.emailJob_findUnique id in
   let* _ :=
     match emailJob with
     | Some _ => updateEmailJobStatus id status sentTime errorMessage
     | None => ret tt
     end in
   k) w
  = k (markedIfFound id status sentTime errorMessage w).
Proof.
  unfold markedIfFound. erewrite bind_val; [|apply find_run].
  destruct (find (Prisma.jobHasId id) (emailJob w)) as [r|] eqn:Hfind.
  - erewrite bind_val; [reflexivity|]. by erewrite updateEmailJobStatus_run.
  - reflexivity.
Qed.

Lemma markSent_then {B} id (k : M B) w :
  (let* emailJob := Prisma.emailJob_findUnique id in
   let* _ :=
     match emailJob with
     | Some _ =>
         let* t := dateNow in
         updateEmailJobStatus id Sent (Some t) None
     | None => ret tt
     end in
   k) w
  = k (markedIfFound id Sent (Some (now w)) None w).
Proof.
  unfold markedIfFound. erewrite bind_val; [|apply find_run].
  destruct (find (Prisma.jobHasId id) (emailJob w)) as [r|] eqn:Hfind.
  - erewrite bind_val; [reflexivity|].
    erewrite bind_val; [|reflexivity]. by erewrite updateEmailJobStatus_run.
  - reflexivity.
Qed.

Lemma updateScheduleCounts_run scheduleId w :
  updateScheduleCounts scheduleId w
  = (Val tt, recounted scheduleId (logged (StoreUpdateCounts scheduleId) w)).
Proof.
  unfold updateScheduleCounts, getEmailJobCountByStatus, Prisma.emailJob_count,
    Prisma.emailSchedule_findUnique, Prisma.emailSchedule_update,
    Prisma.emailSchedule_findUnique, recounted, countByStatus, logged.
  destruct w as [rd ttl rlc es ej us q ready t uc mc lg]. munfold.
  destruct (find (Prisma.scheduleHasId scheduleId) es) eqn:Hf; by rewrite ?Hf.
Qed.

Lemma sleep_run ms w : sleep ms w = (Val tt, slept ms w).
Proof. reflexivity. Qed.

(** ** What the writes leave alone *)

Lemma incremented_frame sender w :
  let w' := incremented sender w in
  now w' = now w /\ log w' = log w /\ emailJob w' = emailJob w
  /\ emailSchedule w' = emailSchedule w /\ mailerCalls w' = mailerCalls w
  /\ emailTransporter w' = emailTransporter w.
Proof.
  unfold incremented. by destruct (incrementedCount sender w =? 1).
Qed.

Lemma markedIfFound_frame id status sentTime errorMessage w :
  let w' := markedIfFound id status sentTime errorMessage w in
  now w' = now w /\ emailSchedule w' = emailSchedule w
  /\ mailerCalls w' = mailerCalls w /\ emailTransporter w' = emailTransporter w
  /\ redis w' = redis w /\ rateLimitCounter w' = rateLimitCounter w.
Proof.
  unfold markedIfFound. by destruct (find _ (emailJob w)).
Qed.

Lemma recounted_frame scheduleId w :
  let w' := recounted scheduleId w in
  now w' = now w /\ log w' = log w /\ emailJob w' = emailJob w
  /\ mailerCalls w' = mailerCalls w /\ emailTransporter w' = emailTransporter w
  /\ redis w' = redis w /\ rateLimitCounter w' = rateLimitCounter w.
Proof.
  unfold recounted. by destruct (find _ (emailSchedule w)).
Qed.

Lemma now_incremented sender w : now (incremented sender w) = now w.
Proof. apply incremented_frame. Qed.
Lemma log_incremented sender w : log (incremented sender w) = log w.
Proof. apply incremented_frame. Qed.
Lemma emailJob_incremented sender w : emailJob (incremented sender w) = emailJob w.
Proof. apply incremented_frame. Qed.
Lemma emailSchedule_incremented sender w :
  emailSchedule (incremented sender w) = emailSchedule w.
Proof. apply incremented_frame. Qed.
Lemma mailerCalls_incremented sender w :
  mailerCalls (incremented sender w) = mailerCalls w.
Proof. apply incremented_frame. Qed.
Lemma emailTransporter_incremented sender w :
  emailTransporter (incremented sender w) = emailTransporter w.
Proof. apply incremented_frame. Qed.

Lemma now_markedIfFound id st t e w : now (markedIfFound id st t e w) = now w.
Proof. apply markedIfFound_frame. Qed.
Lemma emailSchedule_markedIfFound id st t e w :
  emailSchedule (markedIfFound id st t e w) = emailSchedule w.
Proof. apply markedIfFound_frame. Qed.
Lemma mailerCalls_markedIfFound id st t e w :
  mailerCalls (markedIfFound id st t e w) = mailerCalls w.
Proof. apply markedIfFound_frame. Qed.
Lemma emailTransporter_markedIfFound id st t e w :
  emailTransporter (markedIfFound id st t e w) = emailTransporter w.
Proof. apply markedIfFound_frame. Qed.
Lemma redis_markedIfFound id st t e w : redis (markedIfFound id st t e w) = redis w.
Proof. apply markedIfFound_frame. Qed.
Lemma rateLimitCounter_markedIfFound id st t e w :
  rateLimitCounter (markedIfFound id st t e w) = rateLimitCounter w.
Proof. apply markedIfFound_frame. Qed.

Lemma now_recounted sid w : now (recounted sid w) = now w.
Proof. apply recounted_frame. Qed.
Lemma log_recounted sid w : log (recounted sid w) = log w.
Proof. apply recounted_frame. Qed.
Lemma emailJob_recounted sid w : emailJob (recounted sid w) = emailJob w.
Proof. apply recounted_frame. Qed.
Lemma mailerCalls_recounted sid w : mailerCalls (recounted sid w) = mailerCalls w.
Proof. apply recounted_frame. Qed.
Lemma emailTransporter_recounted sid w :
  emailTransporter (recounted sid w) = emailTransporter w.
Proof. apply recounted_frame. Qed.
Lemma redis_recounted sid w : redis (recounted sid w) = redis w.
Proof. apply recounted_frame. Qed.
Lemma rateLimitCounter_recounted sid w :
  rateLimitCounter (recounted sid w) = rateLimitCounter w.
Proof. apply recounted_frame. Qed.

Lemma updateFirst_none {A} (p : A -> bool) f rows :
  find p rows = None -> Prisma.updateFirst p f rows = rows.
Proof.
  induction rows as [|r rows IH]; [done|]. cbn. destruct (p r); [done|].
  intros H. by rewrite IH.
Qed.

(** The job table after the worker recorded an outcome. *)
Lemma emailJob_markedIfFound id st t e w :
  emailJob (markedIfFound id st t e w)
  = Prisma.updateFirst (Prisma.jobHasId id) (jobStatusPatch st t e (now w)) (emailJob w).
Proof.
  unfold markedIfFound. destruct (find _ (emailJob w)) eqn:Hfind; [done|].
  by rewrite updateFirst_none.
Qed.

(** The calls the worker logs when it records an outcome. *)
Lemma log_markedIfFound id st t e w :
  log (markedIfFound id st t e w)
  = log w ++ match find (Prisma.jobHasId id) (emailJob w) with
             | Some _ => [StoreUpdateJob id st]
             | None => []
             end.
Proof.
  unfold markedIfFound. destruct (find _ (emailJob w)); [done|].
  by rewrite app_nil_r.
Qed.

Create Rewrite HintDb world.
#[global] Hint Rewrite
  now_incremented log_incremented emailJob_incremented emailSchedule_incremented
  mailerCalls_incremented emailTransporter_incremented
  now_markedIfFound emailSchedule_markedIfFound mailerCalls_markedIfFound
  emailTransporter_markedIfFound redis_markedIfFound rateLimitCounter_markedIfFound
  emailJob_markedIfFound log_markedIfFound
  now_recounted log_recounted emailJob_recounted mailerCalls_recounted
  emailTransporter_recounted redis_recounted rateLimitCounter_recounted : world.

(** Projects a field through the writes of a run. *)
Ltac wsimpl :=
  repeat (progress (autorewrite with world;
                    cbn [logged slept set_log set_now set_mailerCalls set_emailJob
                         set_emailSchedule set_redis set_redisTtl set_rateLimitCounter
                         now log emailJob emailSchedule mailerCalls emailTransporter
                         redis rateLimitCounter redisTtl user emailQueue uuidCalls
                         fst snd])).

(** The worker from [// Send email] on, path by path. *)
Lemma sendAndRecord_run env job w :
  let data := Job.data job in
  let sid := EmailJobData.scheduleId data in
  sendAndRecord env job workerSender w
  = if emailTransporter w then
      let w2 := set_mailerCalls S (logged (MailerSend (EmailJobData.recipient data)) w) in
      match sendMail env (mailerCalls w) (mailFor workerSender data (now w)) with
      | Delivered mid =>
          (Val (Some {| success := true; messageId := Some mid; error := None |}),
           recounted sid (logged (StoreUpdateCounts sid)
             (slept (DELAY_BETWEEN_EMAILS_MS env)
                (markedIfFound sid Sent (Some (now w)) None
                   (incremented workerSender
                      (logged (RateLimiterIncrement workerSender) w2))))))
      | Rejected e =>
          (Throw (JsError (errorOr (Some (messageOf e)) "Failed to send email")),
           recounted sid (logged (StoreUpdateCounts sid)
             (markedIfFound sid Failed None (Some (messageOf e)) w2)))
      end
    else
      (Throw (JsError (errorOr (Some notInitialized) "Failed to send email")),
       recounted sid (logged (StoreUpdateCounts sid)
         (markedIfFound sid Failed None (Some notInitialized) w))).
Proof.
  intros data sid. unfold sendAndRecord. fold data. fold sid.
  pose proof (sendEmail_run env data workerSender w) as Hsend.
  destruct (emailTransporter w).
  - cbv zeta in Hsend. destruct (sendMail env (mailerCalls w) _) as [mid|e].
    + erewrite bind_val; [|exact Hsend]. cbn [success].
      erewrite bind_val; [|apply incrementRateLimit_run].
      rewrite markSent_then, now_incremented.
      erewrite bind_val; [|apply sleep_run].
      erewrite bind_val; [|apply updateScheduleCounts_run].
      reflexivity.
    + erewrite bind_val; [|exact Hsend]. cbn [success error].
      rewrite markIfFound_then.
      erewrite bind_val; [|apply updateScheduleCounts_run].
      reflexivity.
  - erewrite bind_val; [|exact Hsend]. cbn [success error].
    rewrite markIfFound_then.
    erewrite bind_val; [|apply updateScheduleCounts_run].
    reflexivity.
Qed.

(** The processor, path by path: deferral to the next hour window, or a
    send whose failure is recorded once more by the [catch] block. *)
Lemma processor_run env job w :
  let sid := EmailJobData.scheduleId (Job.data job) in
  let w1 := logged (RateLimiterCheck workerSender (MAX_EMAILS_PER_HOUR env)) w in
  processor env job w
  = match defers workerSender (MAX_EMAILS_PER_HOUR env) w with
    | Some d => (Val None, logged (QueueMoveToDelayed (Job.id job) d) w1)
    | None =>
        match sendAndRecord env job workerSender w1 with
        | (Val r, w') => (Val r, w')
        | (Throw e, w') =>
            (Throw e, markedIfFound sid Failed None (Some (messageOf e)) w')
        end
    end.
Proof.
  intros sid w1. unfold processor, defers, tryCatch.
  change "noreply@reachinbox.app" with workerSender.
  erewrite bind_val; [|apply checkRateLimit_run]. fold w1. cbn [canSend nextWindowTime].
  assert (Hcatch : forall m : M (option SendResult),
    match m w1 with
    | (Val a, w') => (Val a, w')
    | (Throw e, w') =>
        (let* emailJob := Prisma.emailJob_findUnique sid in
         let* _ :=
           match emailJob with
           | Some _ => updateEmailJobStatus sid Failed None (Some (messageOf e))
           | None => ret tt
           end in
         throw e) w'
    end
    = match m w1 with
      | (Val r, w') => (Val r, w')
      | (Throw e, w') => (Throw e, markedIfFound sid Failed None (Some (messageOf e)) w')
      end).
  { intros m. destruct (m w1) as [[r|e] w']; [reflexivity|].
    by rewrite markIfFound_then. }
  destruct (countedThisHour workerSender w <? MAX_EMAILS_PER_HOUR env); cbn [negb].
  - apply Hcatch.
  - erewrite bind_val; [|reflexivity]. change (now w1) with (now w).
    destruct (getNextHourWindow (getHourWindow (now w))) as [next|].
    + destruct (0 <? next - now w).
      * erewrite bind_val; [|reflexivity]. reflexivity.
      * apply Hcatch.
    + apply Hcatch.
Qed.

Lemma find_updateFirst {A} (p : A -> bool) f rows :
  (forall r, p (f r) = p r) ->
  find p (Prisma.updateFirst p f rows) = f <$> find p rows.
Proof.
  intros Hp. induction rows as [|r rows IH]; [done|]. cbn.
  destruct (p r) eqn:Hr; cbn.
  - by rewrite Hp, Hr.
  - by rewrite Hr.
Qed.

Lemma log_processor env job w :
  log (processor env job w).2 = log w ++ processorCalls env job w.
Proof.
  rewrite processor_run. unfold processorCalls, updateCalls.
  set (sid := EmailJobData.scheduleId (Job.data job)).
  destruct (defers workerSender (MAX_EMAILS_PER_HOUR env) w) as [d|].
  { wsimpl. by rewrite <- app_assoc. }
  rewrite sendAndRecord_run. fold sid. wsimpl.
  destruct (emailTransporter w).
  - destruct (sendMail env (mailerCalls w) _) as [mid|e]; wsimpl.
    + destruct (find _ (emailJob w)); by rewrite <- ?app_assoc.
    + rewrite find_updateFirst by done.
      destruct (find _ (emailJob w)); by rewrite <- ?app_assoc.
  - wsimpl. rewrite find_updateFirst by done.
    destruct (find _ (emailJob w)); by rewrite <- ?app_assoc.
Qed.

Lemma emitted_processor env job w :
  emitted (processor env job) w = processorCalls env job w.
Proof. unfold emitted. by rewrite log_processor, drop_app_length. Qed.

(** ** The rate limiter *)

(** With the hour's key in Redis, the second check counts one more than
    the first. *)
Lemma checkIncrementCheck_cached sender limit w c :
  redis w !! rateLimitKey (getHourWindow (now w)) sender = Some c ->
  (checkIncrementCheck sender limit w).1 = Val (c, c + 1).
Proof.
  intros Hc. unfold checkIncrementCheck.
  erewrite bind_val; [|apply checkRateLimit_run].
  erewrite bind_val; [|apply incrementRateLimit_run].
  erewrite bind_val; [|apply checkRateLimit_run].
  cbn [ret fst currentCount]. f_equal. f_equal.
  - unfold countedThisHour. by rewrite Hc.
  - unfold countedThisHour. wsimpl.
    unfold incremented, incrementedCount. cbn [logged set_log now redis].
    rewrite Hc.
    destruct (c + 1 =? 1); cbn [set_rateLimitCounter set_redisTtl set_redis redis];
      by rewrite lookup_insert_eq.
Qed.

(** With no count of the hour anywhere, the checks read 0 and then 1. *)
Lemma checkIncrementCheck_fresh sender limit w :
  redis w !! rateLimitKey (getHourWindow (now w)) sender = None ->
  rateLimitCounter w !! (getHourWindow (now w), sender) = None ->
  (checkIncrementCheck sender limit w).1 = Val (0, 1).
Proof.
  intros Hc Hdb. unfold checkIncrementCheck.
  erewrite bind_val; [|apply checkRateLimit_run].
  erewrite bind_val; [|apply incrementRateLimit_run].
  erewrite bind_val; [|apply checkRateLimit_run].
  cbn [ret fst currentCount]. f_equal. f_equal.
  - unfold countedThisHour. by rewrite Hc, Hdb.
  - unfold countedThisHour. wsimpl.
    unfold incremented, incrementedCount. cbn [logged set_log now redis].
    rewrite Hc. cbn. by rewrite lookup_insert_eq.
Qed.

(** C4 at the failing input: the hour's key is gone from Redis and the
    table row of the hour holds 5. The first check reads 5 from the table,
    the increment restarts the Redis key at 1 (and overwrites the row with
    1), and the second check reads 1, not 6. *)
Theorem checkIncrementCheck_after_eviction :
  countedThisHour workerSender Fixture.evicted = 5
  /\ (checkIncrementCheck workerSender 200 Fixture.evicted).1 = Val (5, 1)
  /\ rateLimitCounter (checkIncrementCheck workerSender 200 Fixture.evicted).2
       !! (getHourWindow Fixture.t0, workerSender) = Some 1.
Proof. split; [|split]; by vm_compute. Qed.

(** ** One run of the worker *)

(** C2 (as amended): in every run the worker consults the rate limiter
    once, first of all, for the fixed sender and with the global limit
    MAX_EMAILS_PER_HOUR of the configuration, whatever the campaign rows
    hold. *)
Theorem processor_checks_global_limit env job w :
  exists evs,
    emitted (processor env job) w
    = RateLimiterCheck workerSender (MAX_EMAILS_PER_HOUR env) :: evs
    /\ Forall (fun ev => forall s l, ev <> RateLimiterCheck s l) evs.
Proof.
  rewrite emitted_processor. unfold processorCalls, updateCalls.
  eexists. split; [reflexivity|].
  destruct (defers _ _ w); [by repeat constructor|].
  destruct (emailTransporter w);
    [destruct (sendMail env _ _)|];
    destruct (find _ (emailJob w)); by repeat constructor.
Qed.

(** C2 (as stated) fails: the campaign is capped at 1 mail per hour and
    one mail is already counted in the hour, yet the limiter is asked
    about 200 and the mail goes out. *)
Lemma processor_ignores_hourlyLimit :
  EmailSchedule.hourlyLimit
    <$> find (Prisma.scheduleHasId "uuid-0") (emailSchedule Fixture.cappedAtOne) = Some 1
  /\ countedThisHour workerSender Fixture.cappedAtOne = 1
  /\ emitted (processor Fixture.envDeliver
                (Fixture.jobFor "uuid-0" "b@x.io" (Fixture.t0 + 1100)))
       Fixture.cappedAtOne
     = [RateLimiterCheck workerSender 200; MailerSend "b@x.io";
        RateLimiterIncrement workerSender; Sleep 2000; StoreUpdateCounts "uuid-0"].
Proof. split; [|split]; by vm_compute. Qed.

(** The outcome of a run, path by path. *)
Lemma processor_outcome env job w :
  (processor env job w).1
  = match defers workerSender (MAX_EMAILS_PER_HOUR env) w with
    | Some _ => Val None
    | None =>
        if emailTransporter w then
          match sendMail env (mailerCalls w)
                  (mailFor workerSender (Job.data job) (now w)) with
          | Delivered mid =>
              Val (Some {| success := true; messageId := Some mid; error := None |})
          | Rejected e =>
              Throw (JsError (errorOr (Some (messageOf e)) "Failed to send email"))
          end
        else Throw (JsError (errorOr (Some notInitialized) "Failed to send email"))
    end.
Proof.
  rewrite processor_run. destruct (defers _ _ w); [done|].
  rewrite sendAndRecord_run. wsimpl.
  destruct (emailTransporter w); [|done].
  by destruct (sendMail env _ _).
Qed.

(** C5 (as amended): when a run calls the Mailer, no increment of the
    rate limiter comes before the call; the increment comes after it, and
    exactly when the send succeeded (the run returns a result). *)
Theorem increment_follows_send env job w pre recipient post :
  emitted (processor env job) w = pre ++ MailerSend recipient :: post ->
  Forall (fun ev => forall s, ev <> RateLimiterIncrement s) pre
  /\ (RateLimiterIncrement workerSender ∈ post
      <-> exists res, (processor env job w).1 = Val (Some res)).
Proof.
  rewrite emitted_processor, processor_outcome. unfold processorCalls, updateCalls.
  intros H.
  destruct (defers _ _ w).
  { exfalso. destruct pre as [|? [|? [|? pre]]]; simplify_eq/=. }
  destruct (emailTransporter w).
  - destruct (sendMail env _ _) as [mid|e].
    + destruct pre as [|? [|? pre]]; simplify_eq/=.
      * split; [repeat constructor; done|]. split; [eauto|]. intros _. apply list_elem_of_here.
      * exfalso. destruct (find _ (emailJob w));
          repeat (destruct pre as [|? pre]; simplify_eq/=).
    + destruct pre as [|? [|? pre]]; simplify_eq/=.
      * split; [repeat constructor; done|]. split; [|intros [? ?]; done].
        intros Hin. exfalso.
        destruct (find _ (emailJob w)); cbn in Hin;
          repeat (apply elem_of_cons in Hin as [Hin|Hin]; [discriminate Hin|]);
          by apply elem_of_nil in Hin.
      * exfalso. destruct (find _ (emailJob w));
          repeat (destruct pre as [|? pre]; simplify_eq/=).
  - exfalso. destruct (find _ (emailJob w));
      repeat (destruct pre as [|? pre]; simplify_eq/=).
Qed.

(** C5 (as amended) on the delivery of the only mail of a campaign. *)
Lemma increment_follows_send_witness :
  Forall (fun ev => forall s, ev <> RateLimiterIncrement s)
    [RateLimiterCheck workerSender 200]
  /\ (RateLimiterIncrement workerSender
        ∈ [RateLimiterIncrement workerSender; Sleep 2000; StoreUpdateCounts "uuid-0"]
      <-> exists res,
            (processor Fixture.envDeliver
               (Fixture.jobFor "uuid-0" "a@x.io" (Fixture.t0 + 100))
               Fixture.oneScheduled).1 = Val (Some res)).
Proof.
  apply (increment_follows_send Fixture.envDeliver
           (Fixture.jobFor "uuid-0" "a@x.io" (Fixture.t0 + 100))
           Fixture.oneScheduled
           [RateLimiterCheck workerSender 200] "a@x.io"
           [RateLimiterIncrement workerSender; Sleep 2000; StoreUpdateCounts "uuid-0"]).
  vm_compute. reflexivity.
Defined.

(** C5 (as stated) fails: the worker calls the Mailer first and
    increments the rate limiter afterwards. *)
Lemma send_precedes_increment :
  emitted (processor Fixture.envDeliver
             (Fixture.jobFor "uuid-0" "a@x.io" (Fixture.t0 + 100)))
    Fixture.oneScheduled
  = [RateLimiterCheck workerSender 200; MailerSend "a@x.io";
     RateLimiterIncrement workerSender; Sleep 2000; StoreUpdateCounts "uuid-0"].
Proof. by vm_compute. Qed.

(** C1 fails in the code. The worker looks the job row up by the id of
    the campaign ([job.data.scheduleId]), not by the id of the row, so that
    in a campaign whose rows have ids of their own the row of a delivered
    job is never marked. On a campaign of two recipients: both mails are
    delivered and both runs return success; neither run calls an update
    of a job row; afterwards both rows are pending with no sentTime, and
    the campaign is in progress with no mail counted as sent. *)
Theorem delivered_job_row_stays_pending :
  Fixture.jobStates Cases.twoScheduled
    = [("uuid-1", Pending, None); ("uuid-2", Pending, None)]
  /\ (processor Fixture.envDeliver Cases.jobA Cases.twoScheduled).1
     = Val (Some {| success := true;
                    messageId := Some "<msg-0@ethereal.email>"; error := None |})
  /\ emitted (processor Fixture.envDeliver Cases.jobA) Cases.twoScheduled
     = [RateLimiterCheck workerSender 200; MailerSend "a@x.io";
        RateLimiterIncrement workerSender; Sleep 2000; StoreUpdateCounts "uuid-0"]
  /\ (processor Fixture.envDeliver Cases.jobB Cases.afterFirstDelivery).1
     = Val (Some {| success := true;
                    messageId := Some "<msg-1@ethereal.email>"; error := None |})
  /\ emitted (processor Fixture.envDeliver Cases.jobB) Cases.afterFirstDelivery
     = [RateLimiterCheck workerSender 200; MailerSend "b@x.io";
        RateLimiterIncrement workerSender; Sleep 2000; StoreUpdateCounts "uuid-0"]
  /\ mailerCalls Cases.afterBothDeliveries = 2%nat
  /\ Fixture.jobStates Cases.afterBothDeliveries
     = [("uuid-1", Pending, None); ("uuid-2", Pending, None)]
  /\ Cases.campaignStates Cases.afterBothDeliveries
     = [("uuid-0", 2%nat, 0%nat, 0%nat, InProgress)].
Proof. repeat split; by vm_compute. Qed.

(** ** Retries *)

(** Under the limit the worker does not defer. *)
Lemma underLimit_defers limit w :
  underLimit limit w -> defers workerSender limit w = None.
Proof.
  intros (Hpos & Hredis & Hdb). unfold defers, countedThisHour.
  destruct (redis w !! _) as [c|] eqn:Hc.
  - apply Hredis in Hc. by rewrite (proj2 (Z.ltb_lt _ _) Hc).
  - destruct (rateLimitCounter w !! _) as [c|] eqn:Hd; cbn.
    + apply Hdb in Hd. by rewrite (proj2 (Z.ltb_lt _ _) Hd).
    + by rewrite (proj2 (Z.ltb_lt _ _) Hpos).
Qed.

(** A run whose send is rejected: the Mailer was called once, the job
    rows with the id [job.data.scheduleId], if any, are written failed
    with an error message, the limiter's counters are as before, and the
    error is thrown on to the queue. *)
Lemma processor_rejected env job w e :
  emailTransporter w = true ->
  defers workerSender (MAX_EMAILS_PER_HOUR env) w = None ->
  sendMail env (mailerCalls w) (mailFor workerSender (Job.data job) (now w))
    = Rejected e ->
  exists msg w',
    processor env job w = (Throw (JsError msg), w')
    /\ mailerCalls w' = S (mailerCalls w)
    /\ emailTransporter w' = true
    /\ redis w' = redis w
    /\ rateLimitCounter w' = rateLimitCounter w
    /\ emailJob w'
       = Prisma.updateFirst (Prisma.jobHasId (EmailJobData.scheduleId (Job.data job)))
           (jobStatusPatch Failed None (Some msg) (now w))
           (Prisma.updateFirst (Prisma.jobHasId (EmailJobData.scheduleId (Job.data job)))
              (jobStatusPatch Failed None (Some (messageOf e)) (now w))
              (emailJob w)).
Proof.
  intros Hready Hdefer Hsend.
  rewrite processor_run, Hdefer, sendAndRecord_run. wsimpl.
  rewrite Hready, Hsend. eexists _, _. split; [reflexivity|]. wsimpl.
  by rewrite Hready.
Qed.

Lemma underLimit_ext limit w w' :
  redis w' = redis w -> rateLimitCounter w' = rateLimitCounter w ->
  underLimit limit w -> underLimit limit w'.
Proof. unfold underLimit. by intros -> ->. Qed.

Lemma attempted_S env job n w :
  attempted env job (S n) w = (processor env job (attempted env job n w)).2.
Proof. reflexivity. Qed.

(** With a transport that rejects every mail, every attempt calls the
    Mailer and leaves the worker as ready for the next one. *)
Lemma attempted_rejected env job w n :
  emailTransporter w = true ->
  underLimit (MAX_EMAILS_PER_HOUR env) w ->
  (forall k opts, exists e, sendMail env k opts = Rejected e) ->
  emailTransporter (attempted env job n w) = true
  /\ underLimit (MAX_EMAILS_PER_HOUR env) (attempted env job n w)
  /\ mailerCalls (attempted env job n w) = (mailerCalls w + n)%nat.
Proof.
  intros Hready Hlimit Hreject. induction n as [|n (IHready & IHlimit & IHcalls)].
  - split; [done|]. split; [done|]. cbn. lia.
  - rewrite attempted_S.
    destruct (Hreject (mailerCalls (attempted env job n w))
                (mailFor workerSender (Job.data job) (now (attempted env job n w))))
      as [e He].
    destruct (processor_rejected env job _ e IHready
                (underLimit_defers _ _ IHlimit) He)
      as (msg & w' & Hrun & Hcalls & Hready' & Hredis & Hdb & _).
    rewrite Hrun. cbn [snd]. split; [done|]. split.
    + by apply (underLimit_ext _ (attempted env job n w)).
    + lia.
Qed.

(** C7 (as amended): a job whose Mailer call fails is not told from any
    other, whatever the kind of the failure: the run of the worker ends by
    throwing the error to the queue, and every attempt made at the job,
    the first as any later one, calls the Mailer again and ends the same
    way. With a Mailer that fails every call, [n] attempts call the Mailer
    [n] times: 3 times under the queue's [attempts]. *)
Theorem rejected_job_is_retried env job w n :
  emailTransporter w = true ->
  underLimit (MAX_EMAILS_PER_HOUR env) w ->
  (forall k opts, exists e, sendMail env k opts = Rejected e) ->
  mailerCalls (attempted env job n w) = (mailerCalls w + n)%nat
  /\ exists e msg w',
       sendMail env (mailerCalls (attempted env job n w))
         (mailFor workerSender (Job.data job) (now (attempted env job n w)))
       = Rejected e
       /\ msg = errorOr (Some (messageOf e)) "Failed to send email"
       /\ processor env job (attempted env job n w) = (Throw (JsError msg), w')
       /\ mailerCalls w' = S (mailerCalls w + n).
Proof.
  intros Hready Hlimit Hreject.
  destruct (attempted_rejected env job w n Hready Hlimit Hreject)
    as (Hready' & Hlimit' & Hcalls).
  split; [done|].
  destruct (Hreject (mailerCalls (attempted env job n w))
              (mailFor workerSender (Job.data job) (now (attempted env job n w))))
    as [e He].
  exists e. pose proof (processor_outcome env job (attempted env job n w)) as Hout.
  rewrite (underLimit_defers _ _ Hlimit'), Hready', He in Hout.
  destruct (processor_rejected env job _ e Hready'
              (underLimit_defers _ _ Hlimit') He)
    as (msg & w' & Hrun & Hcalls' & _).
  rewrite Hrun in Hout. injection Hout as ->.
  eexists _, w'. split; [done|]. split; [reflexivity|]. split; [done|].
  by rewrite Hcalls', Hcalls.
Qed.

(** C7 (as amended) on the third attempt at a job whose mail bounces: the
    Mailer was called twice before it, and is called again. *)
Lemma rejected_job_is_retried_witness :
  mailerCalls (attempted Fixture.envBounce
                 (Fixture.jobFor "uuid-0" "a@x.io" (Fixture.t0 + 100)) 2
                 Fixture.oneScheduled)
  = (mailerCalls Fixture.oneScheduled + 2)%nat
  /\ exists e msg w',
       sendMail Fixture.envBounce
         (mailerCalls (attempted Fixture.envBounce
                         (Fixture.jobFor "uuid-0" "a@x.io" (Fixture.t0 + 100)) 2
                         Fixture.oneScheduled))
         (mailFor workerSender
            (Job.data (Fixture.jobFor "uuid-0" "a@x.io" (Fixture.t0 + 100)))
            (now (attempted Fixture.envBounce
                    (Fixture.jobFor "uuid-0" "a@x.io" (Fixture.t0 + 100)) 2
                    Fixture.oneScheduled)))
       = Rejected e
       /\ msg = errorOr (Some (messageOf e)) "Failed to send email"
       /\ processor Fixture.envBounce
            (Fixture.jobFor "uuid-0" "a@x.io" (Fixture.t0 + 100))
            (attempted Fixture.envBounce
               (Fixture.jobFor "uuid-0" "a@x.io" (Fixture.t0 + 100)) 2
               Fixture.oneScheduled)
          = (Throw (JsError msg), w')
       /\ mailerCalls w' = S (mailerCalls Fixture.oneScheduled + 2).
Proof.
  apply (rejected_job_is_retried Fixture.envBounce
           (Fixture.jobFor "uuid-0" "a@x.io" (Fixture.t0 + 100)) Fixture.oneScheduled 2).
  - reflexivity.
  - split; [done|]. split; intros key c; vm_compute; discriminate.
  - intros k opts. exists (JsError "550 5.1.1 mailbox unavailable"). reflexivity.
Defined.

(** C7 (as stated) fails: a permanent bounce (SMTP 550) is thrown to the
    queue like any other failure, and each of the 3 attempts of the queue
    calls the Mailer. *)
Lemma permanent_failure_is_retried :
  (processor Fixture.envBounce
     (Fixture.jobFor "uuid-0" "a@x.io" (Fixture.t0 + 100)) Fixture.oneScheduled).1
  = Throw (JsError "550 5.1.1 mailbox unavailable")
  /\ mailerCalls
       (attempted Fixture.envBounce
          (Fixture.jobFor "uuid-0" "a@x.io" (Fixture.t0 + 100)) queueAttempts
          Fixture.oneScheduled)
     = 3%nat
  /\ filter (fun ev => ev = MailerSend "a@x.io")
       (drop (length (log Fixture.oneScheduled))
          (log (attempted Fixture.envBounce
                  (Fixture.jobFor "uuid-0" "a@x.io" (Fixture.t0 + 100)) queueAttempts
                  Fixture.oneScheduled)))
     = [MailerSend "a@x.io"; MailerSend "a@x.io"; MailerSend "a@x.io"].
Proof. repeat split; by vm_compute. Qed.

(** ** The invariant of the tables *)

Lemma updateFirst_map {A B} (g : A -> B) (p : A -> bool) f rows :
  (forall r, g (f r) = g r) ->
  map g (Prisma.updateFirst p f rows) = map g rows.
Proof.
  intros Hg. induction rows as [|r rows IH]; [done|]. cbn.
  destruct (p r); cbn; [by rewrite Hg|by rewrite IH].
Qed.

Lemma elem_of_updateFirst {A} (p : A -> bool) f rows x :
  x ∈ Prisma.updateFirst p f rows ->
  x ∈ rows \/ exists r, find p rows = Some r /\ x = f r.
Proof.
  induction rows as [|r rows IH]; cbn; [by left|].
  destruct (p r) eqn:Hr.
  - intros [->|Hx]%elem_of_cons; [right; eauto|left; by apply list_elem_of_further].
  - intros [->|Hx]%elem_of_cons; [left; apply list_elem_of_here|].
    destruct (IH Hx) as [?|?]; [left; by apply list_elem_of_further|by right].
Qed.

Lemma find_elem_of {A} (p : A -> bool) rows r :
  find p rows = Some r -> r ∈ rows /\ p r = true.
Proof.
  intros H. apply find_some in H as [Hin Hp]. split; [by apply list_elem_of_In|done].
Qed.

Lemma find_none_elem_of {A} (p : A -> bool) rows r :
  find p rows = None -> r ∈ rows -> p r = false.
Proof.
  intros H Hin. apply list_elem_of_In in Hin. by apply (find_none p rows H).
Qed.

Lemma scheduleHasId_true id s :
  Prisma.scheduleHasId id s = true <-> EmailSchedule.id s = id.
Proof. unfold Prisma.scheduleHasId. apply String.eqb_eq. Qed.

Lemma scheduleHasId_false id s :
  Prisma.scheduleHasId id s = false <-> EmailSchedule.id s <> id.
Proof. unfold Prisma.scheduleHasId. apply String.eqb_neq. Qed.

(** The job rows counted as sent or failed for a campaign are among its
    job rows. *)
Lemma counts_le_jobs sid rows :
  (length (filter (fun r => EmailJob.scheduleId r = sid /\ EmailJob.status r = Sent) rows)
   + length (filter (fun r => EmailJob.scheduleId r = sid /\ EmailJob.status r = Failed) rows)
   <= length (filter (fun k : string * (string * Z) => k.1 = sid) (map jobKey rows)))%nat.
Proof.
  induction rows as [|r rows IH]; [done|].
  rewrite !filter_cons. cbn [map]. rewrite filter_cons. cbn [jobKey fst].
  destruct (decide (EmailJob.scheduleId r = sid)) as [Hs|Hs].
  - destruct (EmailJob.status r) eqn:Hst;
      repeat (case_decide; try (exfalso; intuition congruence)); cbn [length]; lia.
  - repeat (case_decide; try (exfalso; intuition congruence)); cbn [length]; lia.
Qed.

Lemma campaignJobs_length sid w :
  length (campaignJobs sid w)
  = length (filter (fun k : string * (string * Z) => k.1 = sid) (map jobKey (emailJob w))).
Proof. unfold campaignJobs. by rewrite length_fmap. Qed.

(** The invariant reads the tables through the campaign rows and the keys
    of the job rows only. *)
Lemma tablesInv_ext w w' :
  emailSchedule w' = emailSchedule w ->
  map jobKey (emailJob w') = map jobKey (emailJob w) ->
  tablesInv w -> tablesInv w'.
Proof.
  intros Hs Hj [Hrows Hfk]. split.
  - intros s Hin. rewrite Hs in Hin. destruct (Hrows s Hin) as [Hc Hn].
    split; [done|]. by rewrite campaignJobs_length, Hj, <- campaignJobs_length.
  - intros j Hin. rewrite Hs.
    assert (Hk : jobKey j ∈ map jobKey (emailJob w)).
    { rewrite <- Hj. by apply list_elem_of_fmap_2. }
    apply list_elem_of_fmap in Hk as (j0 & Hkey & Hin0).
    destruct (Hfk j0 Hin0) as (s & Hs0 & Hid). exists s. split; [done|].
    rewrite Hid. by injection Hkey as <- _ _.
Qed.

Lemma tablesInv_logged e w : tablesInv w -> tablesInv (logged e w).
Proof. by apply tablesInv_ext. Qed.

Lemma tablesInv_slept ms w : tablesInv w -> tablesInv (slept ms w).
Proof. by apply tablesInv_ext. Qed.

Lemma tablesInv_mailerCalls f w : tablesInv w -> tablesInv (set_mailerCalls f w).
Proof. by apply tablesInv_ext. Qed.

Lemma tablesInv_incremented sender w : tablesInv w -> tablesInv (incremented sender w).
Proof.
  apply tablesInv_ext; [apply emailSchedule_incremented|].
  by rewrite emailJob_incremented.
Qed.

Lemma tablesInv_markedIfFound id st t e w :
  tablesInv w -> tablesInv (markedIfFound id st t e w).
Proof.
  apply tablesInv_ext; [apply emailSchedule_markedIfFound|].
  rewrite emailJob_markedIfFound. by apply updateFirst_map.
Qed.

(** Recomputing the counts of a campaign keeps its row consistent: the
    counts add up to at most the number of its job rows, which is at most
    its total. *)
Lemma tablesInv_recounted sid w : tablesInv w -> tablesInv (recounted sid w).
Proof.
  intros [Hrows Hfk]. unfold recounted.
  destruct (find (Prisma.scheduleHasId sid) (emailSchedule w)) as [s0|] eqn:Hfind;
    [|by split].
  destruct (find_elem_of _ _ _ Hfind) as [Hin0 Hid0%scheduleHasId_true].
  destruct (Hrows s0 Hin0) as [_ Hle0].
  pose proof (counts_le_jobs sid (emailJob w)) as Hcount.
  rewrite Hid0, campaignJobs_length in Hle0.
  split.
  - intros s Hin. cbn [set_emailSchedule emailSchedule] in Hin.
    apply elem_of_updateFirst in Hin as [Hin|(r & Hr & ->)].
    + destruct (Hrows s Hin) as [Hc Hn]. split; [done|].
      by rewrite campaignJobs_length in *.
    + rewrite Hfind in Hr. injection Hr as <-. split.
      * unfold consistent, countByStatus. cbn.
        destruct (Nat.leb_spec (EmailSchedule.totalCount s0)
                    (length (filter (fun r => EmailJob.scheduleId r = sid
                                              /\ EmailJob.status r = Sent) (emailJob w))
                     + length (filter (fun r => EmailJob.scheduleId r = sid
                                                /\ EmailJob.status r = Failed) (emailJob w))));
          split; intros H'; try done; lia.
      * cbn [scheduleCountsPatch EmailSchedule.id EmailSchedule.totalCount].
        rewrite Hid0, campaignJobs_length. exact Hle0.
  - intros j Hin. cbn [set_emailSchedule emailJob] in Hin.
    destruct (Hfk j Hin) as (s & Hs & Hid).
    cbn [set_emailSchedule emailSchedule].
    destruct (decide (EmailSchedule.id s = sid)) as [Heq|Hne].
    + exists (scheduleCountsPatch (countByStatus sid Sent w) (countByStatus sid Failed w)
                (EmailSchedule.totalCount s0 <=? countByStatus sid Sent w
                                                 + countByStatus sid Failed w)%nat
                (now w) s0).
      split; [|cbn; congruence].
      clear -Hfind. induction (emailSchedule w) as [|r rows IH]; [done|].
      cbn in *. destruct (Prisma.scheduleHasId sid r).
      * injection Hfind as ->. apply list_elem_of_here.
      * apply list_elem_of_further. by apply IH.
    + exists s. split; [|done].
      clear -Hs Hne. induction (emailSchedule w) as [|r rows IH]; [done|].
      cbn. apply elem_of_cons in Hs as [->|Hs].
      * apply scheduleHasId_false in Hne. rewrite Hne. apply list_elem_of_here.
      * destruct (Prisma.scheduleHasId sid r);
          apply list_elem_of_further; [done|by apply IH].
Qed.

(** A run of the worker keeps the invariant. *)
Lemma processor_tablesInv env job w :
  tablesInv w -> tablesInv (processor env job w).2.
Proof.
  intros Hinv. rewrite processor_run.
  destruct (defers _ _ w).
  { by apply tablesInv_logged, tablesInv_logged. }
  rewrite sendAndRecord_run. wsimpl.
  destruct (emailTransporter w).
  - destruct (sendMail env _ _) as [mid|e]; cbn [snd].
    + apply tablesInv_recounted, tablesInv_logged, tablesInv_slept,
        tablesInv_markedIfFound, tablesInv_incremented, tablesInv_logged,
        tablesInv_mailerCalls, tablesInv_logged, tablesInv_logged, Hinv.
    + apply tablesInv_markedIfFound, tablesInv_recounted, tablesInv_logged,
        tablesInv_markedIfFound, tablesInv_mailerCalls, tablesInv_logged,
        tablesInv_logged, Hinv.
  - cbn [snd].
    apply tablesInv_markedIfFound, tablesInv_recounted, tablesInv_logged,
      tablesInv_markedIfFound, tablesInv_logged, Hinv.
Qed.

(** ** Computations that keep a relation between the worlds *)

Section Keeps.
Context (R : World -> World -> Prop).
Context (R_refl : forall w, R w w).
Context (R_trans : forall w1 w2 w3, R w1 w2 -> R w2 w3 -> R w1 w3).

Lemma keeps_ret {A} (a : A) : keeps R (ret a).
Proof. intros w. apply R_refl. Qed.

Lemma keeps_throw {A} e : keeps R (@throw A e).
Proof. intros w. apply R_refl. Qed.

Lemma keeps_gets {A} (f : World -> A) : keeps R (gets f).
Proof. intros w. apply R_refl. Qed.

Lemma keeps_modify f : (forall w, R w (f w)) -> keeps R (modify f).
Proof. intros Hf w. apply Hf. Qed.

Lemma keeps_bind {A B} (m : M A) (k : A -> M B) :
  keeps R m -> (forall a, keeps R (k a)) -> keeps R (bind m k).
Proof.
  intros Hm Hk w. unfold bind. specialize (Hm w).
  destruct (m w) as [[a|e] w1]; [|done].
  eapply R_trans; [exact Hm|apply Hk].
Qed.

Lemma keeps_tryCatch {A} (m : M A) h :
  keeps R m -> (forall e, keeps R (h e)) -> keeps R (tryCatch m h).
Proof.
  intros Hm Hh w. unfold tryCatch. specialize (Hm w).
  destruct (m w) as [[a|e] w1]; [done|].
  eapply R_trans; [exact Hm|apply Hh].
Qed.
End Keeps.

Lemma returns_tryCatch {A} (m : M A) h :
  (forall e, returns (h e)) -> returns (tryCatch m h).
Proof.
  intros Hh w. unfold tryCatch. destruct (m w) as [[a|e] w1]; [by exists a|apply Hh].
Qed.

Lemma returns_ret {A} (a : A) : returns (ret a).
Proof. intros w. by exists a. Qed.

Lemma sameTables_refl w : sameTables w w.
Proof. by split. Qed.

Lemma sameTables_trans w1 w2 w3 :
  sameTables w1 w2 -> sameTables w2 w3 -> sameTables w1 w3.
Proof. intros [? ?] [? ?]. split; congruence. Qed.

Lemma sameTables_set w f :
  emailSchedule (f w) = emailSchedule w -> emailJob (f w) = emailJob w ->
  sameTables w (f w).
Proof. intros Hs Hj. split; [done|]. by rewrite Hj. Qed.

(** Steps through a computation that keeps the tables. *)
Ltac keeps_tables :=
  repeat first
    [ apply (keeps_bind sameTables sameTables_trans); [|intros ?]
    | apply (keeps_tryCatch sameTables sameTables_trans); [|intros ?]
    | apply (keeps_gets sameTables sameTables_refl)
    | apply (keeps_ret sameTables sameTables_refl)
    | apply (keeps_throw sameTables sameTables_refl)
    | apply (keeps_modify sameTables); intros ?; by apply sameTables_set ].

Lemma scheduleEmailJob_sameTables data : keeps sameTables (scheduleEmailJob data).
Proof.
  unfold scheduleEmailJob, getQueue, queue_add, emit, dateNow.
  keeps_tables. case_match; keeps_tables.
Qed.

Lemma emailJob_update_sameTables id f :
  (forall r, jobKey (f r) = jobKey r) ->
  keeps sameTables (Prisma.emailJob_update id f).
Proof.
  intros Hf. unfold Prisma.emailJob_update, Prisma.emailJob_findUnique.
  keeps_tables. case_match; keeps_tables.
  apply (keeps_modify sameTables). intros w. split; [done|].
  cbn. by apply updateFirst_map.
Qed.

Lemma enqueueAndLink_sameTables emailJob data created :
  keeps sameTables (enqueueAndLink emailJob data created).
Proof.
  unfold enqueueAndLink.
  apply (keeps_tryCatch sameTables sameTables_trans);
    [|intros _; apply (keeps_ret sameTables sameTables_refl)].
  apply (keeps_bind sameTables sameTables_trans);
    [apply scheduleEmailJob_sameTables|intros jobId].
  apply (keeps_tryCatch sameTables sameTables_trans);
    [|intros _; apply (keeps_ret sameTables sameTables_refl)].
  apply (keeps_bind sameTables sameTables_trans);
    [apply (keeps_gets sameTables sameTables_refl)|intros t].
  apply (keeps_bind sameTables sameTables_trans);
    [by apply emailJob_update_sameTables|intros _].
  apply (keeps_ret sameTables sameTables_refl).
Qed.

Lemma enqueueAndLink_returns emailJob data created :
  returns (enqueueAndLink emailJob data created).
Proof. apply returns_tryCatch. intros _. apply returns_ret. Qed.

(** ** The loop of scheduleEmails *)

Lemma loopKeys_length sid start delay i rest :
  length (loopKeys sid start delay i rest) = length rest.
Proof. revert i. induction rest as [|r rest IH]; intros i; cbn; [done|]. by rewrite IH. Qed.

Lemma loopKeys_fst sid start delay i rest key :
  key ∈ loopKeys sid start delay i rest -> key.1 = sid.
Proof.
  revert i. induction rest as [|r rest IH]; intros i; cbn.
  - by intros ?%elem_of_nil.
  - intros [->|Hin]%elem_of_cons; [done|]. by apply (IH (S i)).
Qed.

Lemma loopKeys_lookup sid start delay rest : forall i j r,
  rest !! j = Some r ->
  loopKeys sid start delay i rest !! j
  = Some (sid, (r, start + Z.of_nat (i + j) * delay)).
Proof.
  induction rest as [|r0 rest IH]; intros i j r Hj; [done|].
  destruct j as [|j]; cbn [loopKeys].
  - cbn in Hj. injection Hj as ->. cbn. by rewrite Nat.add_0_r.
  - change (loopKeys sid start delay (S i) rest !! j
            = Some (sid, (r, start + Z.of_nat (i + S j) * delay))).
    rewrite (IH (S i) j r Hj). do 4 f_equal. lia.
Qed.

Lemma loopKeys_recipients sid start delay i rest :
  (loopKeys sid start delay i rest).*2.*1 = rest.
Proof. revert i. induction rest as [|r rest IH]; intros i; cbn; [done|]. by rewrite IH. Qed.

Lemma emailJob_create_run row w :
  Prisma.emailJob_create row w
  = match find (Prisma.jobHasId (EmailJob.id row)) (emailJob w) with
    | Some _ => (Throw Prisma.uniqueViolation, w)
    | None => (Val row, set_emailJob (fun rows => rows ++ [row]) w)
    end.
Proof.
  unfold Prisma.emailJob_create. erewrite bind_val; [|apply find_run].
  by destruct (find _ (emailJob w)).
Qed.

(** The loop leaves the campaign rows alone and appends job rows with the
    keys [loopKeys], all of them when it returns, a prefix of them when a
    create is rejected. *)
Lemma scheduleLoop_tables env schedule userId subject body atts start delay rest :
  forall i created w,
    emailSchedule
      (scheduleLoop env schedule userId subject body atts start delay i rest created w).2
    = emailSchedule w
    /\ exists k,
         (k <= length rest)%nat
         /\ map jobKey
              (emailJob
                 (scheduleLoop env schedule userId subject body atts start delay i rest
                    created w).2)
            = map jobKey (emailJob w)
                ++ take k (loopKeys (EmailSchedule.id schedule) start delay i rest)
         /\ ((exists c,
                (scheduleLoop env schedule userId subject body atts start delay i rest
                   created w).1 = Val c)
             -> k = length rest).
Proof.
  induction rest as [|recipient rest IH]; intros i created w.
  - split; [done|]. exists 0%nat. cbn. by rewrite app_nil_r.
  - cbn [scheduleLoop].
    erewrite bind_val; [|reflexivity].
    erewrite bind_val; [|reflexivity].
    set (w1 := set_uuidCalls S w).
    match goal with
    | |- context [Prisma.emailJob_create ?r] => set (row := r)
    end.
    match goal with
    | |- context [enqueueAndLink _ ?d _] => set (data := d)
    end.
    pose proof (emailJob_create_run row w1) as Hcreate.
    destruct (find (Prisma.jobHasId (EmailJob.id row)) (emailJob w1)) eqn:Hfind.
    + erewrite bind_throw; [|exact Hcreate].
      split; [done|]. exists 0%nat. cbn. split; [lia|].
      split; [by rewrite app_nil_r|]. by intros [c Hc].
    + erewrite bind_val; [|exact Hcreate].
      set (w2 := set_emailJob (fun rows => rows ++ [row]) w1).
      destruct (enqueueAndLink_returns row data created w2) as [c Hret].
      destruct (enqueueAndLink_sameTables row data created w2) as [Hs Hj].
      destruct (enqueueAndLink row data created w2) as [o w3] eqn:Hrun.
      cbn [fst snd] in Hret, Hs, Hj. subst o.
      erewrite bind_val; [|exact Hrun].
      destruct (IH (S i) c w3) as (HsIH & k & Hk & Hkeys & Hval).
      split; [by rewrite HsIH, Hs|].
      exists (S k). split; [cbn; lia|]. split.
      * rewrite Hkeys, Hj. cbn [w2 w1 set_emailJob set_uuidCalls emailJob].
        rewrite map_app. cbn [map loopKeys take]. by rewrite <- app_assoc.
      * intros Hv. cbn [length]. f_equal. by apply Hval.
Qed.

(** ** scheduleEmails *)

Lemma test_truthy s : Regex.test Regex.emailRegex s = true -> Js.truthy s = true.
Proof. destruct s; [|done]. cbn. discriminate. Qed.

(** Recipients that pass the validation are not empty after trimming: the
    filter on [validRecipients] drops none of them. *)
Lemma validRecipients_all rs :
  (0 <? length (List.filter
                  (fun email => negb (Regex.test Regex.emailRegex (Js.trim email))) rs))%nat
    = false ->
  List.filter Js.truthy (map Js.trim rs) = map Js.trim rs.
Proof.
  induction rs as [|r rs IH]; [done|]. cbn [List.filter map].
  destruct (Regex.test Regex.emailRegex (Js.trim r)) eqn:Htest; cbn [negb].
  - intros H. rewrite (test_truthy _ Htest). f_equal. by apply IH.
  - cbn. discriminate.
Qed.

Lemma emailSchedule_create_run row w :
  Prisma.emailSchedule_create row w
  = match find (Prisma.scheduleHasId (EmailSchedule.id row)) (emailSchedule w) with
    | Some _ => (Throw Prisma.uniqueViolation, w)
    | None => (Val row, set_emailSchedule (fun rows => rows ++ [row]) w)
    end.
Proof.
  unfold Prisma.emailSchedule_create.
  erewrite bind_val; [|unfold Prisma.emailSchedule_findUnique; reflexivity].
  by destruct (find _ (emailSchedule w)).
Qed.

(** What a request does to the tables: nothing, or one new campaign row
    with a fresh id followed by job rows for its recipients, trimmed, in
    the order given, one row per recipient. The response is 201 only when
    every row was created. *)
Lemma scheduleEmails_tables env req w :
  (sameTables w (scheduleEmails env req w).2
   /\ forall sid n c, (scheduleEmails env req w).1 <> Val (Created sid n c))
  \/ exists rs start row k,
       reqRecipients req = Some rs
       /\ reqStartTime req = StartAt start
       /\ (0 < length rs)%nat
       /\ EmailSchedule.id row = uuidv4 env (uuidCalls w)
       /\ EmailSchedule.recipients row = map Js.trim rs
       /\ EmailSchedule.startTime row = start
       /\ EmailSchedule.delayMs row = default 2000 (reqDelayMs req)
       /\ EmailSchedule.totalCount row = length rs
       /\ EmailSchedule.sentCount row = 0%nat
       /\ EmailSchedule.failedCount row = 0%nat
       /\ EmailSchedule.status row = Scheduled
       /\ find (Prisma.scheduleHasId (EmailSchedule.id row)) (emailSchedule w) = None
       /\ emailSchedule (scheduleEmails env req w).2 = emailSchedule w ++ [row]
       /\ (k <= length rs)%nat
       /\ map jobKey (emailJob (scheduleEmails env req w).2)
          = map jobKey (emailJob w)
              ++ take k (loopKeys (EmailSchedule.id row) start
                           (default 2000 (reqDelayMs req)) 0 (map Js.trim rs))
       /\ ((exists c,
              (scheduleEmails env req w).1
                = Val (Created (EmailSchedule.id row) (length rs) c)
              /\ k = length rs)
           \/ exists msg, (scheduleEmails env req w).1 = Val (ServerError msg)).
Proof.
  unfold scheduleEmails, tryCatch.
  destruct (reqUserId req) as [userId|];
    [|left; split; [apply sameTables_refl|done]].
  destruct (Js.truthy userId); cbn [negb];
    [|left; split; [apply sameTables_refl|done]].
  destruct (reqRecipients req) as [rs|];
    [|left; split; [apply sameTables_refl|done]].
  destruct (falsy (reqSubject req) || falsy (reqBody req) || (length rs =? 0)%nat)
    eqn:Hmissing; [left; split; [apply sameTables_refl|done]|].
  destruct (reqStartTime req) as [| |start];
    [left; split; [apply sameTables_refl|done]..|].
  destruct (0 <? length (List.filter _ rs))%nat eqn:Hinvalid;
    [left; split; [apply sameTables_refl|done]|].
  rewrite (validRecipients_all rs Hinvalid).
  apply orb_false_elim in Hmissing as [_ Hlen%Nat.eqb_neq].
  erewrite bind_val; [|reflexivity].
  erewrite bind_val; [|reflexivity].
  erewrite bind_val; [|reflexivity].
  match goal with
  | |- context [Prisma.emailSchedule_create ?r] => set (row := r)
  end.
  match goal with
  | |- context [bind (Prisma.emailSchedule_create row) _ ?w0] => set (w1 := w0)
  end.
  pose proof (emailSchedule_create_run row w1) as Hcreate.
  destruct (find (Prisma.scheduleHasId (EmailSchedule.id row)) (emailSchedule w1))
    eqn:Hfind.
  { erewrite bind_throw; [|exact Hcreate]. left. split; [by split|done]. }
  erewrite bind_val; [|exact Hcreate].
  set (w2 := set_emailSchedule (fun rows => rows ++ [row]) w1).
  right. exists rs, start, row.
  match goal with
  | |- context [bind (scheduleLoop ?e ?s ?u ?sb ?b ?a ?st ?d ?i ?r ?c) _ w2] =>
      destruct (scheduleLoop_tables e s u sb b a st d r i c w2)
        as (Hs & k & Hk & Hkeys & Hval);
      destruct (scheduleLoop e s u sb b a st d i r c w2) as [[c'|e'] w3] eqn:Hloop
  end.
  - erewrite bind_val; [|exact Hloop]. cbn [ret fst snd] in *.
    exists k. rewrite length_map in *.
    assert (k = length rs) as -> by (apply Hval; eauto).
    repeat (split;
      [first [reflexivity | lia | exact Hfind | exact Hs | exact Hkeys
             | apply length_map]|]).
    left. eauto.
  - erewrite bind_throw; [|exact Hloop]. cbn [ret fst snd] in *.
    exists k. rewrite length_map in *.
    repeat (split;
      [first [reflexivity | lia | exact Hfind | exact Hs | exact Hkeys
             | apply length_map]|]).
    right. eauto.
Qed.

Lemma filter_keys_all (sid : string) (l : list (string * (string * Z))) :
  (forall key, key ∈ l -> key.1 = sid) ->
  filter (fun k : string * (string * Z) => k.1 = sid) l = l.
Proof.
  induction l as [|x l IH]; intros Hall; [done|].
  rewrite filter_cons. rewrite decide_True by (apply Hall, list_elem_of_here).
  f_equal. apply IH. intros key Hin. by apply Hall, list_elem_of_further.
Qed.

Lemma filter_keys_none (sid : string) (l : list (string * (string * Z))) :
  (forall key, key ∈ l -> key.1 <> sid) ->
  filter (fun k : string * (string * Z) => k.1 = sid) l = [].
Proof.
  induction l as [|x l IH]; intros Hall; [done|].
  rewrite filter_cons. rewrite decide_False by (apply Hall, list_elem_of_here).
  apply IH. intros key Hin. by apply Hall, list_elem_of_further.
Qed.

Lemma take_loopKeys_fst sid start delay i rest k key :
  key ∈ take k (loopKeys sid start delay i rest) -> key.1 = sid.
Proof.
  intros (j & Hj & _)%elem_of_take.
  eapply loopKeys_fst, list_elem_of_lookup_2, Hj.
Qed.

(** Under the invariant no job row belongs to a campaign id that no
    campaign row has. *)
Lemma fresh_campaign_has_no_jobs w sid key :
  tablesInv w ->
  find (Prisma.scheduleHasId sid) (emailSchedule w) = None ->
  key ∈ map jobKey (emailJob w) -> key.1 <> sid.
Proof.
  intros [_ Hfk] Hfind (j & -> & Hj)%list_elem_of_fmap.
  destruct (Hfk j Hj) as (s & Hs & Hid). cbn [jobKey fst]. rewrite <- Hid.
  by apply scheduleHasId_false, (find_none_elem_of _ _ _ Hfind).
Qed.

Lemma find_app_None {A} (p : A -> bool) l1 l2 :
  find p l1 = None -> find p (l1 ++ l2) = find p l2.
Proof.
  induction l1 as [|x l1 IH]; [done|]. cbn. destruct (p x); [done|apply IH].
Qed.

(** A request keeps the invariant. *)
Lemma scheduleEmails_tablesInv env req w :
  tablesInv w -> tablesInv (scheduleEmails env req w).2.
Proof.
  intros Hinv.
  destruct (scheduleEmails_tables env req w)
    as [[[Hs Hj] _]|(rs & start & row & k & _ & _ & Hlen & _ & _ & _ & _ & Htotal
                      & Hsent & Hfailed & Hstatus & Hfind & Hs & Hk & Hj & _)].
  { by apply (tablesInv_ext w). }
  set (sid := EmailSchedule.id row) in *.
  set (new := take k (loopKeys sid start (default 2000 (reqDelayMs req)) 0
                        (map Js.trim rs))) in *.
  assert (Hnew : forall key, key ∈ new -> key.1 = sid)
    by (intros key; apply take_loopKeys_fst).
  assert (Hold : forall key, key ∈ map jobKey (emailJob w) -> key.1 <> sid)
    by (intros key; by apply fresh_campaign_has_no_jobs).
  assert (Hnewlen : length new = k).
  { unfold new. rewrite length_take_le; [done|].
    by rewrite loopKeys_length, length_map. }
  destruct Hinv as [Hrows Hfk]. split.
  - intros s Hin. rewrite Hs in Hin. rewrite campaignJobs_length, Hj, filter_app, length_app.
    apply elem_of_app in Hin as [Hin|Hin%list_elem_of_singleton].
    + destruct (Hrows s Hin) as [Hc Hn]. split; [done|].
      rewrite campaignJobs_length in Hn.
      rewrite (filter_keys_none (EmailSchedule.id s) new); [cbn; lia|].
      intros key Hkey. rewrite (Hnew key Hkey). intros Heq.
      apply (find_none_elem_of _ _ _ Hfind) in Hin.
      by apply scheduleHasId_false in Hin.
    + subst s. split.
      * unfold consistent. rewrite Hstatus, Hsent, Hfailed, Htotal.
        split; [done|lia].
      * fold sid. rewrite (filter_keys_none sid (map jobKey (emailJob w))) by done.
        rewrite (filter_keys_all sid new) by done. cbn. lia.
  - intros j Hin. rewrite Hs.
    assert (Hkey : jobKey j ∈ map jobKey (emailJob w) ++ new).
    { rewrite <- Hj. by apply list_elem_of_fmap_2. }
    apply elem_of_app in Hkey as [(j0 & Hkey & Hj0)%list_elem_of_fmap|Hkey].
    + destruct (Hfk j0 Hj0) as (s & Hs0 & Hid). exists s.
      split; [apply elem_of_app; by left|].
      rewrite Hid. by injection Hkey as <- _ _.
    + exists row. split; [apply elem_of_app; right; apply list_elem_of_here|].
      symmetry. exact (Hnew _ Hkey).
Qed.

Lemma updateEmailJobStatus_sameTables jobId status sentTime errorMessage :
  keeps sameTables (updateEmailJobStatus jobId status sentTime errorMessage).
Proof.
  unfold updateEmailJobStatus, emit, dateNow.
  apply (keeps_bind sameTables sameTables_trans); [keeps_tables|intros _].
  apply (keeps_tryCatch sameTables sameTables_trans); [|intros e; keeps_tables].
  apply (keeps_bind sameTables sameTables_trans); [keeps_tables|intros t].
  by apply emailJob_update_sameTables.
Qed.

(** Every state the backend reaches satisfies the invariant. *)
Lemma reachable_tablesInv w : reachable w -> tablesInv w.
Proof.
  induction 1 as [w Hs Hj|env req w _ IH|env job w _ IH
                 |jobId status sentTime errorMessage w _ IH|sid w _ IH|ms w _ IH].
  - split; intros x; [rewrite Hs|rewrite Hj]; by intros ?%elem_of_nil.
  - by apply scheduleEmails_tablesInv.
  - by apply processor_tablesInv.
  - destruct (updateEmailJobStatus_sameTables jobId status sentTime errorMessage w).
    by apply (tablesInv_ext w).
  - rewrite updateScheduleCounts_run. by apply tablesInv_recounted, tablesInv_logged.
  - by apply (tablesInv_ext w).
Qed.

(** C3: in every state the backend reaches, a campaign row has status
    completed if and only if its sentCount and failedCount add up to its
    totalCount; a read of the row that sees completed sees counts that add
    up. *)
Theorem completed_iff_counts_add_up w s :
  reachable w ->
  s ∈ emailSchedule w ->
  EmailSchedule.status s = Completed
  <-> (EmailSchedule.sentCount s + EmailSchedule.failedCount s
       = EmailSchedule.totalCount s)%nat.
Proof.
  intros Hreach Hin.
  destruct (reachable_tablesInv w Hreach) as [Hrows _].
  by destruct (Hrows s Hin) as [Hc _].
Qed.

(** C3 on the campaign row of a campaign whose only mail was delivered:
    the worker found no row to mark, the counts stay 0 of 1 and the
    campaign is in progress. *)
Lemma completed_iff_counts_add_up_witness :
  EmailSchedule.status Fixture.deliveredRow = Completed
  <-> (EmailSchedule.sentCount Fixture.deliveredRow
       + EmailSchedule.failedCount Fixture.deliveredRow
       = EmailSchedule.totalCount Fixture.deliveredRow)%nat.
Proof.
  apply (completed_iff_counts_add_up
           (processor Fixture.envDeliver
              (Fixture.jobFor "uuid-0" "a@x.io" (Fixture.t0 + 100))
              Fixture.oneScheduled).2).
  - apply reach_process, reach_schedule, reach_init; reflexivity.
  - vm_compute. apply list_elem_of_here.
Defined.

(** A campaign that completes: its only job row has the id the worker
    looks up, and after the delivery the row is completed with counts that
    add up. *)
Example completed_campaign :
  reachable Fixture.afterDelivery
  /\ emailSchedule Fixture.afterDelivery = [Fixture.completedRow].
Proof.
  split; [|by vm_compute].
  do 2 apply reach_process. apply reach_schedule, reach_init; reflexivity.
Qed.

(** A 201 response, unfolded: the campaign row and the job rows it
    stands for. *)
Lemma scheduleEmails_created env req w sid total created :
  tablesInv w ->
  (scheduleEmails env req w).1 = Val (Created sid total created) ->
  exists rs start s,
    reqRecipients req = Some rs
    /\ reqStartTime req = StartAt start
    /\ total = length rs
    /\ find (Prisma.scheduleHasId sid) (emailSchedule (scheduleEmails env req w).2)
       = Some s
    /\ EmailSchedule.recipients s = map Js.trim rs
    /\ EmailSchedule.totalCount s = length rs
    /\ EmailSchedule.startTime s = start
    /\ map jobKey (emailJob (scheduleEmails env req w).2)
       = map jobKey (emailJob w)
           ++ loopKeys sid start (EmailSchedule.delayMs s) 0 (map Js.trim rs)
    /\ campaignJobs sid (scheduleEmails env req w).2
       = (loopKeys sid start (EmailSchedule.delayMs s) 0 (map Js.trim rs)).*2.
Proof.
  intros Hinv Hresp.
  destruct (scheduleEmails_tables env req w)
    as [[_ Hno]|(rs & start & row & k & Hrs & Hstart & Hlen & Hid & Hrec & Hst & Hdelay
                 & Htotal & _ & _ & _ & Hfind & Hs & Hk & Hj & Hout)].
  { by destruct (Hno sid total created). }
  destruct Hout as [(c & Hc & ->)|[msg Hmsg]]; [|congruence].
  rewrite Hc in Hresp. injection Hresp as <- <- <-.
  rewrite take_ge in Hj by (by rewrite loopKeys_length, length_map).
  exists rs, start, row. rewrite Hdelay.
  repeat (split; [done|]). split; [|split; [|split; [|split; [done|]]]]; try done.
  - rewrite Hs, find_app_None by done. cbn.
    by rewrite (proj2 (scheduleHasId_true _ _) eq_refl).
  - unfold campaignJobs. rewrite Hj, filter_app.
    rewrite (filter_keys_none _ (map jobKey (emailJob w)))
      by (intros key; by apply fresh_campaign_has_no_jobs).
    rewrite filter_keys_all by (intros key; apply loopKeys_fst). done.
Qed.

(** C6 (as amended): an accepted submission trims each recipient and
    creates one job row per recipient submitted, in the order given; the
    stored totalCount and the number of job rows equal the length of the
    recipient list. Recipients are not deduplicated. *)
Theorem scheduleEmails_one_job_per_recipient env req w sid total created :
  reachable w ->
  (scheduleEmails env req w).1 = Val (Created sid total created) ->
  exists rs s,
    reqRecipients req = Some rs
    /\ total = length rs
    /\ find (Prisma.scheduleHasId sid) (emailSchedule (scheduleEmails env req w).2)
       = Some s
    /\ EmailSchedule.totalCount s = length rs
    /\ length (campaignJobs sid (scheduleEmails env req w).2) = length rs
    /\ (campaignJobs sid (scheduleEmails env req w).2).*1 = map Js.trim rs.
Proof.
  intros Hreach Hresp.
  destruct (scheduleEmails_created env req w sid total created
              (reachable_tablesInv w Hreach) Hresp)
    as (rs & start & s & Hrs & _ & Htotal & Hfind & _ & Hcount & _ & _ & Hjobs).
  exists rs, s. rewrite Hjobs, loopKeys_recipients.
  repeat (split; [done|]). split; [|done].
  by rewrite length_fmap, loopKeys_length, length_map.
Qed.

(** C6 (as amended) on a request with the same address twice. *)
Lemma scheduleEmails_one_job_per_recipient_witness :
  exists rs s,
    reqRecipients (Fixture.request ["a@x.io"; " A@x.io "] 10) = Some rs
    /\ 2%nat = length rs
    /\ find (Prisma.scheduleHasId "uuid-0") (emailSchedule Fixture.twiceScheduled)
       = Some s
    /\ EmailSchedule.totalCount s = length rs
    /\ length (campaignJobs "uuid-0" Fixture.twiceScheduled) = length rs
    /\ (campaignJobs "uuid-0" Fixture.twiceScheduled).*1 = map Js.trim rs.
Proof.
  apply (scheduleEmails_one_job_per_recipient Fixture.envDeliver
           (Fixture.request ["a@x.io"; " A@x.io "] 10) Fixture.booted "uuid-0" 2 2).
  - apply reach_init; reflexivity.
  - vm_compute. reflexivity.
Defined.

(** C6 (as stated) fails: the same address submitted twice, differing in
    case and surrounding white space, is accepted with totalEmails 2 and
    gets two job rows. *)
Lemma scheduleEmails_keeps_duplicates :
  (scheduleEmails Fixture.envDeliver (Fixture.request ["a@x.io"; " A@x.io "] 10)
     Fixture.booted).1 = Val (Created "uuid-0" 2 2)
  /\ EmailSchedule.totalCount
       <$> find (Prisma.scheduleHasId "uuid-0") (emailSchedule Fixture.twiceScheduled)
     = Some 2%nat
  /\ campaignJobs "uuid-0" Fixture.twiceScheduled
     = [("a@x.io", Fixture.t0 + 100); ("A@x.io", Fixture.t0 + 1100)].
Proof. repeat split; by vm_compute. Qed.

(** The campaign row of a 201 carries the delay of the request. *)
Lemma scheduleEmails_created_delay env req w sid total created :
  (scheduleEmails env req w).1 = Val (Created sid total created) ->
  exists s,
    find (Prisma.scheduleHasId sid) (emailSchedule (scheduleEmails env req w).2)
      = Some s
    /\ EmailSchedule.delayMs s = default 2000 (reqDelayMs req).
Proof.
  intros Hresp.
  destruct (scheduleEmails_tables env req w)
    as [[_ Hno]|(rs & start & row & k & _ & _ & _ & Hid & _ & _ & Hdelay
                 & _ & _ & _ & _ & Hfind & Hs & _ & _ & Hout)].
  { by destruct (Hno sid total created). }
  destruct Hout as [(c & Hc & _)|[msg Hmsg]]; [|congruence].
  rewrite Hc in Hresp. injection Hresp as <- _ _.
  exists row. split; [|done].
  rewrite Hs, find_app_None by done. cbn.
  by rewrite (proj2 (scheduleHasId_true _ _) eq_refl).
Qed.

(** The job keys of the loop, as recipient and due time by index. *)
Lemma loopKeys_imap sid start delay rest :
  (loopKeys sid start delay 0 rest).*2
  = imap (fun i r => (r, start + Z.of_nat i * delay)) rest.
Proof.
  apply list_eq. intros j. rewrite list_lookup_fmap, list_lookup_imap.
  destruct (rest !! j) as [r|] eqn:Hj.
  - by rewrite (loopKeys_lookup _ _ _ _ 0 j r Hj).
  - rewrite (proj2 (lookup_ge_None _ _)); [done|].
    rewrite loopKeys_length. by apply lookup_ge_None.
Qed.

(** C8: in an accepted campaign the job rows are those of the recipients
    of the request, trimmed, in the order of the request, and the job row
    of the i-th recipient has scheduledTime startTime + i * delayMs, for
    every index i of the list; startTime and delayMs are those of the
    campaign row, which are those of the request. *)
Theorem scheduledTime_is_staggered env req w sid total created rs start :
  reachable w ->
  reqRecipients req = Some rs ->
  reqStartTime req = StartAt start ->
  (scheduleEmails env req w).1 = Val (Created sid total created) ->
  total = length rs
  /\ campaignJobs sid (scheduleEmails env req w).2
     = imap (fun i r => (Js.trim r,
                         start + Z.of_nat i * default 2000 (reqDelayMs req))) rs
  /\ exists s,
       find (Prisma.scheduleHasId sid) (emailSchedule (scheduleEmails env req w).2)
         = Some s
       /\ EmailSchedule.recipients s = map Js.trim rs
       /\ EmailSchedule.startTime s = start
       /\ EmailSchedule.delayMs s = default 2000 (reqDelayMs req)
       /\ EmailSchedule.totalCount s = length rs
       /\ length (campaignJobs sid (scheduleEmails env req w).2)
          = length (EmailSchedule.recipients s)
       /\ forall i r,
            EmailSchedule.recipients s !! i = Some r ->
            campaignJobs sid (scheduleEmails env req w).2 !! i
            = Some (r, EmailSchedule.startTime s
                       + Z.of_nat i * EmailSchedule.delayMs s).
Proof.
  intros Hreach Hrs0 Hstart0 Hresp.
  destruct (scheduleEmails_created env req w sid total created
              (reachable_tablesInv w Hreach) Hresp)
    as (rs' & start' & s & Hrs & Hst & Htotal & Hfind & Hrec & Hcount & Hstart & _
        & Hjobs).
  rewrite Hrs0 in Hrs. injection Hrs as <-.
  rewrite Hstart0 in Hst. injection Hst as <-.
  destruct (scheduleEmails_created_delay env req w sid total created Hresp)
    as (s' & Hfind' & Hdelay).
  rewrite Hfind in Hfind'. injection Hfind' as <-.
  rewrite Hdelay in Hjobs.
  split; [done|]. split.
  - rewrite Hjobs, loopKeys_imap. apply imap_fmap.
  - exists s. rewrite Hjobs, Hrec, Hstart, Hdelay.
    repeat (split; [done|]). split.
    + by rewrite length_fmap, loopKeys_length.
    + intros i r Hi. rewrite list_lookup_fmap.
      by rewrite (loopKeys_lookup _ _ _ _ 0 i r Hi).
Qed.

(** C8 on a request with two recipients, one second apart: the two job
    rows, and the campaign row they are computed from. *)
Lemma scheduledTime_is_staggered_witness :
  2%nat = length ["a@x.io"; " A@x.io "]
  /\ campaignJobs "uuid-0" Fixture.twiceScheduled
     = [("a@x.io", Fixture.t0 + 100); ("A@x.io", Fixture.t0 + 1100)]
  /\ exists s,
       find (Prisma.scheduleHasId "uuid-0") (emailSchedule Fixture.twiceScheduled)
         = Some s
       /\ EmailSchedule.recipients s = ["a@x.io"; "A@x.io"]
       /\ EmailSchedule.startTime s = Fixture.t0 + 100
       /\ EmailSchedule.delayMs s = 1000
       /\ EmailSchedule.totalCount s = 2%nat
       /\ length (campaignJobs "uuid-0" Fixture.twiceScheduled)
          = length (EmailSchedule.recipients s)
       /\ forall i r,
            EmailSchedule.recipients s !! i = Some r ->
            campaignJobs "uuid-0" Fixture.twiceScheduled !! i
            = Some (r, EmailSchedule.startTime s
                       + Z.of_nat i * EmailSchedule.delayMs s).
Proof.
  exact (scheduledTime_is_staggered Fixture.envDeliver
           (Fixture.request ["a@x.io"; " A@x.io "] 10) Fixture.booted "uuid-0" 2 2
           ["a@x.io"; " A@x.io "] (Fixture.t0 + 100)
           (reach_init Fixture.booted eq_refl eq_refl) eq_refl eq_refl
           ltac:(vm_compute; reflexivity)).
Defined.

(** * Further properties *)

(** ** The hour window and its successor *)

Lemma doeOkFrom_spec n doe :
  doeOkFrom n doe = true ->
  forall k, doe <= k < doe + Z.of_nat n -> doeOk k = true.
Proof.
  revert doe. induction n as [|n IH]; intros doe H k Hk; [lia|].
  change (doeOkFrom (S n) doe)
    with (if doeOk doe then doeOkFrom n (doe + 1) else false) in H.
  destruct (doeOk doe) eqn:Hdoe; [|discriminate H].
  destruct (decide (k = doe)) as [->|Hne]; [done|].
  apply (IH (doe + 1)); [done|lia].
Qed.

Lemma era_checked : doeOkFrom (Z.to_nat 146097) 0 = true.
Proof. vm_compute. reflexivity. Qed.

(** Every day of a 400-year era passes the check. *)
Lemma doeOk_era doe : 0 <= doe < 146097 -> doeOk doe = true.
Proof.
  intros Hdoe. apply (doeOkFrom_spec _ 0 era_checked).
  rewrite Z2Nat.id; lia.
Qed.

(** Days to civil date and back; the fields are in range. *)
Lemma daysFromCivil_civilFromDays z :
  let '(y, m, d) := JsDate.civilFromDays z in
  JsDate.daysFromCivil y m d = z /\ 1 <= m <= 12 /\ 1 <= d <= 31
  /\ (0 <= z -> 1600 <= y).
Proof.
  set (era := (z + 719468) / 146097).
  set (doe := z + 719468 - era * 146097).
  assert (Hdoe : 0 <= doe < 146097).
  { unfold doe, era. pose proof (Z.mod_pos_bound (z + 719468) 146097 eq_refl) as H.
    rewrite Z.mod_eq in H by lia. lia. }
  pose proof (doeOk_era doe Hdoe) as Hok. unfold doeOk in Hok.
  assert (Hciv : JsDate.civilFromDays z
                 = let '(yoe, m, d) := civilOfDoe doe in
                   (if m <=? 2 then yoe + era * 400 + 1 else yoe + era * 400, m, d))
    by reflexivity.
  rewrite Hciv. destruct (civilOfDoe doe) as [[yoe m] d].
  repeat (apply andb_prop in Hok as [Hok ?]).
  assert (Hy : 0 <= yoe <= 399) by lia.
  assert (Hback : doeOfCivil yoe m d = doe) by lia.
  split; [|split; [lia|split; [lia|]]].
  - unfold JsDate.daysFromCivil.
    assert (Hyear : (if m <=? 2 then (if m <=? 2 then yoe + era * 400 + 1
                                      else yoe + era * 400) - 1
                     else (if m <=? 2 then yoe + era * 400 + 1 else yoe + era * 400))
                    = yoe + era * 400) by (destruct (m <=? 2); lia).
    cbv zeta. rewrite Hyear.
    assert (Hera : (yoe + era * 400) / 400 = era).
    { rewrite Z.div_add by lia. rewrite Z.div_small by lia. lia. }
    rewrite Hera. replace (yoe + era * 400 - era * 400) with yoe by lia.
    unfold doeOfCivil in Hback. unfold doe in Hback. lia.
  - intros Hz.
    assert (4 <= era) by (unfold era; apply Z.div_le_lower_bound; lia).
    destruct (m <=? 2); lia.
Qed.

Lemma string_app_cons c (a b : string) : String c a +:+ b = String c (a +:+ b).
Proof. reflexivity. Qed.

Lemma string_app_nil_l (s : string) : EmptyString +:+ s = s.
Proof. reflexivity. Qed.

Lemma string_app_nil_r (s : string) : s +:+ EmptyString = s.
Proof. induction s as [|c s IH]; [done|]. by rewrite string_app_cons, IH. Qed.

Lemma string_app_assoc (a b c : string) : (a +:+ b) +:+ c = a +:+ (b +:+ c).
Proof. induction a as [|x a IH]; [done|]. by rewrite !string_app_cons, IH. Qed.

Lemma rev_app_rev_app a b c :
  String.rev_app (String.rev_app a b) c = String.rev_app b (a +:+ c).
Proof.
  revert b. induction a as [|x a IH]; intros b; [done|].
  rewrite string_app_cons. cbn [String.rev_app]. by rewrite IH.
Qed.

Lemma rev_rev_app a cur :
  String.rev (String.rev_app a cur) = String.rev cur +:+ a.
Proof.
  unfold String.rev. rewrite rev_app_rev_app, string_app_nil_r.
  revert a. induction cur as [|x cur IH]; intros a; [done|].
  cbn [String.rev_app]. rewrite (IH (String x a)), (IH (String x EmptyString)).
  by rewrite string_app_assoc.
Qed.

Lemma allChars_app p a b :
  allChars p (a +:+ b) = allChars p a && allChars p b.
Proof.
  induction a as [|c a IH]; [done|].
  rewrite string_app_cons. cbn [allChars]. by rewrite IH, andb_assoc.
Qed.

Lemma allChars_impl (p q : ascii -> bool) s :
  (forall c, p c = true -> q c = true) -> allChars p s = true -> allChars q s = true.
Proof.
  intros Hpq. induction s as [|c s IH]; [done|]. cbn.
  intros [Hc Hs]%andb_prop. by rewrite (Hpq c Hc), IH.
Qed.

(** Splitting at a separator: a field without separators is cut off at
    the first separator, and is all there is when none follows. *)
Lemma split_go_field sep cur a rest :
  allChars (fun c => negb (Ascii.eqb c sep)) a = true ->
  Js.split_go sep cur (a +:+ String sep rest)
  = (String.rev cur +:+ a) :: Js.split_go sep EmptyString rest.
Proof.
  revert cur. induction a as [|c a IH]; intros cur Ha.
  - change (EmptyString +:+ String sep rest) with (String sep rest).
    cbn [Js.split_go]. rewrite Ascii.eqb_refl. by rewrite string_app_nil_r.
  - cbn [allChars] in Ha. apply andb_prop in Ha as [Hc Ha].
    rewrite string_app_cons. cbn [Js.split_go].
    destruct (Ascii.eqb c sep); [done|]. rewrite IH by done.
    f_equal. change (String.rev (String c cur))
      with (String.rev (String.rev_app (String c EmptyString) cur)).
    by rewrite rev_rev_app, string_app_assoc.
Qed.

Lemma split_go_last sep cur a :
  allChars (fun c => negb (Ascii.eqb c sep)) a = true ->
  Js.split_go sep cur a = [String.rev cur +:+ a].
Proof.
  revert cur. induction a as [|c a IH]; intros cur Ha.
  - cbn [Js.split_go]. by rewrite string_app_nil_r.
  - cbn [allChars] in Ha. apply andb_prop in Ha as [Hc Ha]. cbn [Js.split_go].
    destruct (Ascii.eqb c sep); [done|]. rewrite IH by done.
    f_equal. change (String.rev (String c cur))
      with (String.rev (String.rev_app (String c EmptyString) cur)).
    by rewrite rev_rev_app, string_app_assoc.
Qed.

Lemma isDigit_pretty_N_char x : isDigit (pretty_N_char x) = true.
Proof. unfold pretty_N_char. by repeat case_match. Qed.

Lemma digit_pretty_N_char x : (x < 10)%N -> Js.digit (pretty_N_char x) = Some (Z.of_N x).
Proof.
  intros Hx.
  assert (x = 0 \/ x = 1 \/ x = 2 \/ x = 3 \/ x = 4 \/ x = 5 \/ x = 6
          \/ x = 7 \/ x = 8 \/ x = 9)%N as Hcases by lia.
  repeat (destruct Hcases as [->|Hcases]; [reflexivity|]). by subst.
Qed.

(** The decimal numeral of a natural number: digits only, and [Js.digits]
    reads it back. *)
Lemma pretty_N_go_digits x :
  exists p, (forall s, pretty_N_go x s = p +:+ s)
    /\ allChars isDigit p = true
    /\ (forall acc s, exists k, Js.digits acc (p +:+ s) = Js.digits (acc * k + Z.of_N x) s).
Proof.
  induction (N.lt_wf_0 x) as [x _ IH].
  assert (x = 0 \/ 0 < x)%N as [->|Hx] by lia.
  - exists EmptyString. split; [done|]. split; [done|].
    intros acc s. exists 1. f_equal. lia.
  - destruct (IH (x `div` 10)%N) as (p & Hp & Hd & Hv); [by apply N.div_lt|].
    exists (p +:+ String (pretty_N_char (x `mod` 10)) EmptyString).
    split; [|split].
    + intros s. rewrite pretty_N_go_step by done. rewrite Hp.
      by rewrite string_app_assoc.
    + rewrite allChars_app, Hd. cbn [allChars].
      by rewrite isDigit_pretty_N_char.
    + intros acc s. destruct (Hv acc (String (pretty_N_char (x `mod` 10)) s)) as [k Hk].
      exists (10 * k). rewrite string_app_assoc.
      change (String (pretty_N_char (x `mod` 10)) EmptyString +:+ s)
        with (String (pretty_N_char (x `mod` 10)) s).
      rewrite Hk. cbn [Js.digits].
      rewrite digit_pretty_N_char by (apply N.mod_lt; lia).
      f_equal. rewrite (N.div_mod x 10) at 3 by lia.
      rewrite N2Z.inj_add, N2Z.inj_mul. lia.
Qed.

Lemma toString_digits n :
  0 <= n -> allChars isDigit (Js.toString n) = true
            /\ Js.Number (Js.toString n) = Some n.
Proof.
  intros Hn. destruct n as [|p|p]; [done| |lia].
  change (Js.toString (Z.pos p)) with (pretty_N_go (N.pos p) EmptyString).
  destruct (pretty_N_go_digits (N.pos p)) as (s & Hs & Hd & Hv).
  rewrite Hs, string_app_nil_r. split; [done|].
  destruct (Hv 0 EmptyString) as [k Hk]. rewrite string_app_nil_r in Hk.
  unfold Js.Number. rewrite Hk. cbn [Js.digits]. f_equal.
Qed.

Lemma padStart2_digits s :
  allChars isDigit s = true ->
  allChars isDigit (Js.padStart2 s) = true
  /\ Js.Number (Js.padStart2 s) = Js.Number s.
Proof.
  destruct s as [|c [|c' s]]; [done| |done].
  intros Hc. split; [exact Hc|]. reflexivity.
Qed.

Lemma isDigit_not_dash c : isDigit c = true -> negb (Ascii.eqb c "-") = true.
Proof.
  destruct (Ascii.eqb_spec c "-") as [->|]; [|done]. by vm_compute.
Qed.

(** The window of an instant splits into its four fields. *)
Lemma getHourWindow_fields t :
  0 <= t ->
  map Js.Number (Js.split "-" (getHourWindow t))
  = [Some (JsDate.getUTCFullYear t); Some (JsDate.getUTCMonth t + 1);
     Some (JsDate.getUTCDate t); Some (JsDate.getUTCHours t)].
Proof.
  intros Ht.
  pose proof (daysFromCivil_civilFromDays (t / JsDate.msPerDay)) as Hciv.
  assert (Hday : 0 <= t / JsDate.msPerDay) by (apply Z.div_pos; [lia|done]).
  assert (Hhour : 0 <= JsDate.getUTCHours t).
  { unfold JsDate.getUTCHours. apply Z.div_pos; [|done].
    apply Z.mod_pos_bound. done. }
  unfold getHourWindow.
  unfold JsDate.getUTCFullYear, JsDate.getUTCMonth, JsDate.getUTCDate in *.
  destruct (JsDate.civilFromDays (t / JsDate.msPerDay)) as [[y m] d] eqn:Hc.
  destruct Hciv as (_ & Hm & Hd & Hy). specialize (Hy Hday).
  cbn [fst snd].
  destruct (toString_digits y ltac:(lia)) as [Hy1 Hy2].
  destruct (toString_digits (m - 1 + 1) ltac:(lia)) as [Hm1 Hm2].
  destruct (toString_digits d ltac:(lia)) as [Hd1 Hd2].
  destruct (toString_digits (JsDate.getUTCHours t) ltac:(lia)) as [Hh1 Hh2].
  apply padStart2_digits in Hm1 as [Hm1 Hm3].
  apply padStart2_digits in Hd1 as [Hd1 Hd3].
  apply padStart2_digits in Hh1 as [Hh1 Hh3].
  pose proof (fun s => allChars_impl isDigit _ s isDigit_not_dash) as Hnd.
  unfold Js.split.
  rewrite !(string_app_cons "-" EmptyString), !string_app_nil_l.
  rewrite !split_go_field, split_go_last by (by apply Hnd).
  cbn [map String.rev String.rev_app]. rewrite !string_app_nil_l.
  by rewrite Hm3, Hd3, Hh3, Hy2, Hm2, Hd2, Hh2.
Qed.

(** The next window of the window of an instant is the start of the next
    hour. *)
Lemma getNextHourWindow_getHourWindow t :
  0 <= t ->
  getNextHourWindow (getHourWindow t)
  = Some ((t / JsDate.msPerHour + 1) * JsDate.msPerHour).
Proof.
  intros Ht. unfold getNextHourWindow. rewrite getHourWindow_fields by done.
  f_equal. unfold JsDate.UTC.
  pose proof (daysFromCivil_civilFromDays (t / JsDate.msPerDay)) as Hciv.
  unfold JsDate.getUTCFullYear, JsDate.getUTCMonth, JsDate.getUTCDate, JsDate.getUTCHours.
  destruct (JsDate.civilFromDays (t / JsDate.msPerDay)) as [[y m] d].
  cbn [fst snd]. destruct Hciv as (Hback & _).
  replace (m - 1 + 1 - 1 + 1) with m by lia. rewrite Hback.
  unfold JsDate.msPerDay, JsDate.msPerHour.
  pose proof (Z.div_mod t 86400000 ltac:(lia)) as H1.
  pose proof (Z.mod_pos_bound t 86400000 ltac:(lia)) as H2.
  set (q := t / 86400000) in *. set (r := t mod 86400000) in *.
  rewrite H1. replace (86400000 * q + r) with (r + (24 * q) * 3600000) by lia.
  rewrite Z.div_add by lia. lia.
Qed.

(** X1. For every instant [t] since the epoch, the next window computed
    from the hour window of [t] is the start of the hour after the one
    that holds [t]: a multiple of an hour, later than [t] and at most an
    hour later. *)
Theorem next_window_is_next_hour t :
  0 <= t ->
  exists next,
    getNextHourWindow (getHourWindow t) = Some next
    /\ next = (t / JsDate.msPerHour + 1) * JsDate.msPerHour
    /\ t < next <= t + JsDate.msPerHour.
Proof.
  intros Ht. eexists. split; [by apply getNextHourWindow_getHourWindow|].
  split; [done|]. unfold JsDate.msPerHour.
  pose proof (Z.div_mod t 3600000 ltac:(lia)).
  pose proof (Z.mod_pos_bound t 3600000 ltac:(lia)). lia.
Qed.

(** X1 at 2026-02-07T15:30:00Z: the next window starts at 16:00:00Z. *)
Lemma next_window_is_next_hour_witness :
  exists next,
    getNextHourWindow (getHourWindow Fixture.t0) = Some next
    /\ next = (Fixture.t0 / JsDate.msPerHour + 1) * JsDate.msPerHour
    /\ Fixture.t0 < next <= Fixture.t0 + JsDate.msPerHour.
Proof. apply (next_window_is_next_hour Fixture.t0). by vm_compute. Defined.

(** ** The worker at the limit *)




(** ** The counters of the rate limiter *)

Lemma rateLimitKey_inj hour s s' :
  rateLimitKey hour s = rateLimitKey hour s' -> s = s'.
Proof.
  unfold rateLimitKey. intros H.
  by repeat (apply String.app_inj in H).
Qed.

Lemma countedThisHour_ext sender w w' :
  now w' = now w ->
  redis w' !! rateLimitKey (getHourWindow (now w)) sender
    = redis w !! rateLimitKey (getHourWindow (now w)) sender ->
  rateLimitCounter w' !! (getHourWindow (now w), sender)
    = rateLimitCounter w !! (getHourWindow (now w), sender) ->
  countedThisHour sender w' = countedThisHour sender w.
Proof. unfold countedThisHour. by intros -> -> ->. Qed.

Lemma redis_incremented sender w :
  redis (incremented sender w)
  = <[rateLimitKey (getHourWindow (now w)) sender := incrementedCount sender w]> (redis w).
Proof.
  unfold incremented. destruct w as [rd ttl rlc es ej us q ready t uc mc lg].
  by destruct (_ =? 1).
Qed.

Lemma rateLimitCounter_incremented sender w :
  rateLimitCounter (incremented sender w)
  = <[(getHourWindow (now w), sender) := incrementedCount sender w]> (rateLimitCounter w).
Proof.
  unfold incremented. destruct w as [rd ttl rlc es ej us q ready t uc mc lg].
  by destruct (_ =? 1).
Qed.

Lemma redisTtl_incremented sender w :
  redisTtl (incremented sender w)
  = if incrementedCount sender w =? 1
    then <[rateLimitKey (getHourWindow (now w)) sender := HOUR_IN_SECONDS + 60]> (redisTtl w)
    else redisTtl w.
Proof.
  unfold incremented. destruct w as [rd ttl rlc es ej us q ready t uc mc lg].
  by destruct (_ =? 1).
Qed.

(** X3. [incrementRateLimit(sender)] returns the new count of the hour,
    one more than the Redis key held (1 when the key was absent), and
    leaves it under the key, so that the next check of the sender reads
    it; the expiry of the key is set, to an hour and a minute, when the
    new count is 1 and at no other count; the counts of every other sender
    stay as they were. *)
Theorem incrementRateLimit_counts sender w :
  exists n w',
    incrementRateLimit sender w = (Val n, w')
    /\ n = match redis w !! rateLimitKey (getHourWindow (now w)) sender with
           | Some c => c + 1
           | None => 1
           end
    /\ redis w' !! rateLimitKey (getHourWindow (now w)) sender = Some n
    /\ redisTtl w' !! rateLimitKey (getHourWindow (now w)) sender
       = (if n =? 1 then Some 3660
          else redisTtl w !! rateLimitKey (getHourWindow (now w)) sender)
    /\ (forall limit,
          (checkRateLimit sender limit w').1
          = Val {| canSend := n <? limit; currentCount := n; limit := limit;
                   nextWindowTime := getNextHourWindow (getHourWindow (now w)) |})
    /\ forall other, other <> sender ->
         countedThisHour other w' = countedThisHour other w.
Proof.
  do 2 eexists. split; [apply incrementRateLimit_run|].
  split; [reflexivity|].
  set (w1 := logged (RateLimiterIncrement sender) w).
  assert (Hredis : redis (incremented sender w1)
                   !! rateLimitKey (getHourWindow (now w)) sender
                   = Some (incrementedCount sender w)).
  { rewrite redis_incremented. apply lookup_insert_eq. }
  split; [exact Hredis|]. split; [|split].
  - rewrite redisTtl_incremented.
    change (incrementedCount sender w1) with (incrementedCount sender w).
    destruct (incrementedCount sender w =? 1); [|done].
    change (now w1) with (now w). by rewrite lookup_insert_eq.
  - intros limit. rewrite checkRateLimit_run. cbn [fst]. unfold countedThisHour.
    rewrite now_incremented. change (now w1) with (now w).
    by rewrite Hredis.
  - intros other Hother. apply countedThisHour_ext.
    + by rewrite now_incremented.
    + rewrite redis_incremented. apply lookup_insert_ne.
      intros Hk. apply rateLimitKey_inj in Hk. congruence.
    + rewrite rateLimitCounter_incremented. apply lookup_insert_ne.
      change (now w1) with (now w). congruence.
Qed.

(** ** The cap of the hour *)




(** ** Resetting the rate limiter *)

Lemma lookup_foldr_delete {V} (m : gmap string V) (ks : list string) k :
  foldr delete m ks !! k = if decide (k ∈ ks) then None else m !! k.
Proof.
  induction ks as [|k' ks IH]; cbn [foldr].
  - by rewrite decide_False by apply not_elem_of_nil.
  - destruct (decide (k' = k)) as [->|Hne].
    + rewrite lookup_delete_eq. by rewrite decide_True by apply list_elem_of_here.
    + rewrite lookup_delete_ne by done. rewrite IH.
      destruct (decide (k ∈ ks)) as [Hin|Hout].
      * by rewrite decide_True by (by apply list_elem_of_further).
      * rewrite decide_False; [done|].
        rewrite elem_of_cons. intros [->|?]; done.
Qed.

Lemma prefix_app p s : String.prefix p (p +:+ s) = true.
Proof.
  induction p as [|c p IH]; [by destruct s|].
  rewrite string_app_cons. cbn [String.prefix].
  by destruct (ascii_dec c c).
Qed.

Lemma resetRateLimit_sender_run sender w :
  Js.truthy sender = true ->
  resetRateLimit (Some sender) w
  = (Val tt,
     set_rateLimitCounter (fun m => delete (getHourWindow (now w), sender) m)
       (set_redisTtl (fun m => delete (rateLimitKey (getHourWindow (now w)) sender) m)
          (set_redis (fun m => delete (rateLimitKey (getHourWindow (now w)) sender) m) w))).
Proof.
  intros Hs. unfold resetRateLimit. rewrite Hs.
  by destruct w as [rd ttl rlc es ej us q ready t uc mc lg].
Qed.

(** X5. [resetRateLimit(sender)] with a sender removes the count of the
    hour from Redis and from the table: the next check of the sender reads
    0, and the counts of every other sender stay as they were. *)
Theorem resetRateLimit_sender_clears sender w :
  Js.truthy sender = true ->
  exists w',
    resetRateLimit (Some sender) w = (Val tt, w')
    /\ (forall limit,
          (checkRateLimit sender limit w').1
          = Val {| canSend := 0 <? limit; currentCount := 0; limit := limit;
                   nextWindowTime := getNextHourWindow (getHourWindow (now w)) |})
    /\ forall other, other <> sender ->
         countedThisHour other w' = countedThisHour other w.
Proof.
  intros Hs. eexists. split; [by apply resetRateLimit_sender_run|].
  destruct w as [rd ttl rlc es ej us q ready t uc mc lg]. split.
  - intros limit. rewrite checkRateLimit_run. cbn [fst]. unfold countedThisHour.
    cbn. by rewrite !lookup_delete_eq.
  - intros other Hother. apply countedThisHour_ext; cbn; [done| |].
    + apply lookup_delete_ne. intros Hk. apply rateLimitKey_inj in Hk. congruence.
    + apply lookup_delete_ne. congruence.
Qed.

(** X5 for the worker's sender, with one mail counted in the hour. *)
Lemma resetRateLimit_sender_clears_witness :
  exists w',
    resetRateLimit (Some workerSender) Fixture.cappedAtOne = (Val tt, w')
    /\ (forall limit,
          (checkRateLimit workerSender limit w').1
          = Val {| canSend := 0 <? limit; currentCount := 0; limit := limit;
                   nextWindowTime :=
                     getNextHourWindow (getHourWindow (now Fixture.cappedAtOne)) |})
    /\ forall other, other <> workerSender ->
         countedThisHour other w' = countedThisHour other Fixture.cappedAtOne.
Proof. apply (resetRateLimit_sender_clears workerSender Fixture.cappedAtOne). reflexivity. Defined.

Lemma resetRateLimit_all_run sender w :
  falsy sender = true ->
  let keys :=
    List.filter (String.prefix ("rate-limit:" +:+ getHourWindow (now w) +:+ ":"))
      (map fst (map_to_list (redis w))) in
  resetRateLimit sender w
  = (Val tt,
     set_redisTtl (fun m => foldr delete m keys)
       (set_redis (fun m => foldr delete m keys) w)).
Proof.
  intros Hs keys.
  assert (Hall : resetRateLimit sender w = resetRateLimit None w).
  { destruct sender as [s|]; [|done]. unfold resetRateLimit.
    cbn in Hs. by destruct (Js.truthy s). }
  rewrite Hall. unfold resetRateLimit, redis_keys, redis_del.
  destruct w as [rd ttl rlc es ej us q ready t uc mc lg]. munfold.
  cbn [now redis] in keys. fold keys.
  destruct keys as [|k ks] eqn:Hk; [|done]. reflexivity.
Qed.

(** X6. [resetRateLimit()] without a sender (or with the empty string)
    deletes the Redis keys of the hour and leaves the table alone: the
    next check of any sender falls back to the table and reads the count
    that is stored there, 0 only when the table has no row for the
    sender. *)
Theorem resetRateLimit_all_falls_back sender w :
  falsy sender = true ->
  exists w',
    resetRateLimit sender w = (Val tt, w')
    /\ rateLimitCounter w' = rateLimitCounter w
    /\ forall s limit,
         exists n,
           n = default 0 (rateLimitCounter w !! (getHourWindow (now w), s))
           /\ (checkRateLimit s limit w').1
              = Val {| canSend := n <? limit; currentCount := n; limit := limit;
                       nextWindowTime := getNextHourWindow (getHourWindow (now w)) |}.
Proof.
  intros Hs. eexists. split; [by apply resetRateLimit_all_run|].
  split; [by destruct w|].
  intros s limit. eexists. split; [reflexivity|].
  rewrite checkRateLimit_run. cbn [fst]. unfold countedThisHour.
  destruct w as [rd ttl rlc es ej us q ready t uc mc lg]. cbn.
  rewrite lookup_foldr_delete.
  destruct (decide _) as [Hin|Hout]; [done|].
  destruct (rd !! rateLimitKey (getHourWindow t) s) as [c|] eqn:Hc; [|done].
  exfalso. apply Hout. apply list_elem_of_In, filter_In. split.
  - apply list_elem_of_In. apply (list_elem_of_fmap_2 fst _ (_, c)).
    by apply elem_of_map_to_list.
  - unfold rateLimitKey.
    replace ("rate-limit:" +:+ getHourWindow t +:+ ":" +:+ s)
      with (("rate-limit:" +:+ getHourWindow t +:+ ":") +:+ s)
      by (by rewrite !string_app_assoc).
    apply prefix_app.
Qed.

(** X6 with the Redis key gone and 5 in the table: the checks after the
    reset still read 5. *)
Lemma resetRateLimit_all_falls_back_witness :
  exists w',
    resetRateLimit None Fixture.evicted = (Val tt, w')
    /\ rateLimitCounter w' = rateLimitCounter Fixture.evicted
    /\ forall s limit,
         exists n,
           n = default 0 (rateLimitCounter Fixture.evicted
                            !! (getHourWindow (now Fixture.evicted), s))
           /\ (checkRateLimit s limit w').1
              = Val {| canSend := n <? limit; currentCount := n; limit := limit;
                       nextWindowTime :=
                         getNextHourWindow (getHourWindow (now Fixture.evicted)) |}.
Proof. apply (resetRateLimit_all_falls_back None Fixture.evicted). reflexivity. Defined.

(** ** What the email pattern accepts *)

Lemma string_app_eq_nil (a b : string) :
  a +:+ b = EmptyString -> a = EmptyString /\ b = EmptyString.
Proof. destruct a; [done|]. rewrite string_app_cons. discriminate. Qed.

Lemma matches_nil_nullable r s :
  matches r s -> s = EmptyString -> Regex.nullable r = true.
Proof.
  induction 1 as [|p c Hc|r1 r2 s1 s2 _ IH1 _ IH2|r1 r2 s _ IH|r1 r2 s _ IH| |];
    intros Hs; cbn [Regex.nullable]; try done.
  - apply string_app_eq_nil in Hs as [-> ->]. by rewrite IH1, IH2.
  - by rewrite IH.
  - rewrite IH by done. apply orb_true_r.
Qed.

Lemma nullable_matches r : Regex.nullable r = true -> matches r EmptyString.
Proof.
  induction r as [| |p|r1 IH1 r2 IH2|r1 IH1 r2 IH2|r IH]; cbn [Regex.nullable];
    intros H; try done.
  - constructor.
  - apply andb_prop in H as [H1 H2].
    change EmptyString with (EmptyString +:+ EmptyString). constructor; auto.
  - apply orb_prop in H as [H|H]; [apply matches_alt_l|apply matches_alt_r]; auto.
  - constructor.
Qed.

Lemma matches_deriv r s' :
  matches r s' -> forall c s, s' = String c s -> matches (Regex.deriv c r) s.
Proof.
  induction 1 as [|p c0 Hc|r1 r2 s1 s2 H1 IH1 H2 IH2|r1 r2 s0 _ IH|r1 r2 s0 _ IH
                 | |r s1 s2 H1 IH1 H2 IH2]; intros c s Hs; cbn [Regex.deriv];
    try discriminate.
  - injection Hs as -> <-. rewrite Hc. constructor.
  - destruct s1 as [|c1 s1].
    + rewrite string_app_nil_l in Hs.
      rewrite (matches_nil_nullable _ _ H1 eq_refl).
      apply matches_alt_r. by apply IH2.
    + rewrite string_app_cons in Hs. injection Hs as -> <-.
      assert (Hseq : matches (Regex.Seq (Regex.deriv c r1) r2) (s1 +:+ s2))
        by (constructor; [by apply IH1|done]).
      destruct (Regex.nullable r1); [by apply matches_alt_l|done].
  - apply matches_alt_l. by apply IH.
  - apply matches_alt_r. by apply IH.
  - destruct s1 as [|c1 s1].
    + rewrite string_app_nil_l in Hs. by apply IH2.
    + rewrite string_app_cons in Hs. injection Hs as -> <-.
      constructor; [by apply IH1|done].
Qed.

Lemma deriv_matches c r : forall s, matches (Regex.deriv c r) s -> matches r (String c s).
Proof.
  induction r as [| |p|r1 IH1 r2 IH2|r1 IH1 r2 IH2|r IH]; intros s; cbn [Regex.deriv].
  - inversion 1.
  - inversion 1.
  - destruct (p c) eqn:Hc; inversion 1; subst. by constructor.
  - assert (Hleft : forall s, matches (Regex.Seq (Regex.deriv c r1) r2) s ->
                              matches (Regex.Seq r1 r2) (String c s)).
    { intros s0 H. inversion H as [| |? ? s1 s2 H1 H2| | | |]; subst.
      rewrite <- string_app_cons. constructor; [by apply IH1|done]. }
    destruct (Regex.nullable r1) eqn:Hn; [|by apply Hleft].
    inversion 1 as [| | |? ? ? Hl|? ? ? Hr| |]; subst; [by apply Hleft|].
    rewrite <- (string_app_nil_l (String c s)).
    constructor; [by apply nullable_matches|by apply IH2].
  - inversion 1; subst; [apply matches_alt_l|apply matches_alt_r]; auto.
  - inversion 1 as [| |? ? s1 s2 H1 H2| | | |]; subst.
    rewrite <- string_app_cons. constructor; [by apply IH|done].
Qed.

(** The matcher by derivatives decides the denotation. *)
Lemma test_matches r s : Regex.test r s = true <-> matches r s.
Proof.
  revert r. induction s as [|c s IH]; intros r; cbn [Regex.test].
  - split; [apply nullable_matches|]. intros H. by eapply matches_nil_nullable.
  - rewrite IH. split; [apply deriv_matches|]. intros H. by eapply matches_deriv.
Qed.

Lemma matches_seq_inv r1 r2 s :
  matches (Regex.Seq r1 r2) s
  <-> exists s1 s2, s = s1 +:+ s2 /\ matches r1 s1 /\ matches r2 s2.
Proof.
  split.
  - inversion 1; subst; eauto.
  - intros (s1 & s2 & -> & H1 & H2). by constructor.
Qed.

Lemma matches_char_inv x s :
  matches (Regex.char x) s <-> s = String x EmptyString.
Proof.
  unfold Regex.char. split.
  - inversion 1 as [|? c Hc| | | | |]; subst. by apply Ascii.eqb_eq in Hc as ->.
  - intros ->. constructor. apply Ascii.eqb_refl.
Qed.

Lemma matches_star_class p s :
  matches (Regex.Star (Regex.Class p)) s <-> allChars p s = true.
Proof.
  split.
  - remember (Regex.Star (Regex.Class p)) as r eqn:Hr.
    induction 1 as [| | | | | |r s1 s2 H1 _ H2 IH2]; try discriminate; [done|].
    injection Hr as ->. inversion H1; subst.
    rewrite string_app_cons, string_app_nil_l. cbn [allChars].
    apply andb_true_intro. split; [done|by apply IH2].
  - induction s as [|c s IH]; [constructor|]. cbn [allChars].
    intros [Hc Hs]%andb_prop.
    change (String c s) with (String c EmptyString +:+ s).
    constructor; [by constructor|by apply IH].
Qed.

Lemma matches_plus_class p s :
  matches (Regex.Plus (Regex.Class p)) s
  <-> Js.truthy s = true /\ allChars p s = true.
Proof.
  unfold Regex.Plus. rewrite matches_seq_inv. split.
  - intros (s1 & s2 & -> & H1 & H2). inversion H1; subst.
    apply matches_star_class in H2. rewrite string_app_cons, string_app_nil_l.
    cbn [allChars Js.truthy]. split; [done|]. by apply andb_true_intro.
  - destruct s as [|c s]; [by intros [? _]|]. cbn [allChars].
    intros [_ [Hc Hs]%andb_prop]. exists (String c EmptyString), s.
    split; [done|]. split; [by constructor|by apply matches_star_class].
Qed.

Lemma token_spec s :
  token s = true <-> Js.truthy s = true /\ allChars Regex.notSpaceAt s = true.
Proof. unfold token. apply andb_true_iff. Qed.

(** The email pattern accepts exactly [local@domain.tld] with three
    tokens. *)
Lemma emailRegex_shape s :
  Regex.test Regex.emailRegex s = true
  <-> exists mailbox domain tld,
        s = mailbox +:+ "@" +:+ domain +:+ "." +:+ tld
        /\ token mailbox = true /\ token domain = true /\ token tld = true.
Proof.
  rewrite test_matches. unfold Regex.emailRegex. split.
  - intros (a & s1 & -> & Ha & H)%matches_seq_inv.
    apply matches_seq_inv in H as (? & s2 & -> & ->%matches_char_inv & H).
    apply matches_seq_inv in H as (b & s3 & -> & Hb & H).
    apply matches_seq_inv in H as (? & c & -> & ->%matches_char_inv & Hc).
    exists a, b, c. by rewrite !token_spec, <- !matches_plus_class.
  - intros (a & b & c & -> & Ha & Hb & Hc).
    rewrite token_spec, <- matches_plus_class in Ha, Hb, Hc.
    constructor; [done|]. constructor; [by apply matches_char_inv|].
    constructor; [done|]. constructor; [by apply matches_char_inv|done].
Qed.

(** X7. The pattern that validates a recipient accepts exactly the
    strings [mailbox@domain.tld] whose three parts are not empty and hold
    neither white space nor [@]. *)
Theorem emailRegex_accepts_exactly s :
  Regex.test Regex.emailRegex s = true
  <-> exists mailbox domain tld,
        s = mailbox +:+ "@" +:+ domain +:+ "." +:+ tld
        /\ mailbox <> EmptyString /\ domain <> EmptyString /\ tld <> EmptyString
        /\ allChars Regex.notSpaceAt mailbox = true
        /\ allChars Regex.notSpaceAt domain = true
        /\ allChars Regex.notSpaceAt tld = true.
Proof.
  assert (Htruthy : forall t, Js.truthy t = true <-> t <> EmptyString)
    by (intros [|? ?]; split; done).
  rewrite emailRegex_shape. split.
  - intros (a & b & c & -> & [Ha1 Ha2]%token_spec & [Hb1 Hb2]%token_spec
            & [Hc1 Hc2]%token_spec).
    exists a, b, c. rewrite <- !Htruthy. by repeat split.
  - intros (a & b & c & -> & Ha1 & Hb1 & Hc1 & Ha2 & Hb2 & Hc2).
    exists a, b, c. rewrite !token_spec, !Htruthy. by repeat split.
Qed.

(** ** Addresses: trimming and lower case *)

Lemma trimStart_clean s :
  allChars (fun c => negb (Js.isWhiteSpace c)) s = true -> Js.trimStart s = s.
Proof.
  destruct s as [|c s]; [done|]. cbn [allChars Js.trimStart].
  intros [Hc _]%andb_prop. by apply negb_true_iff in Hc as ->.
Qed.

Lemma trimEnd_clean s :
  allChars (fun c => negb (Js.isWhiteSpace c)) s = true -> Js.trimEnd s = s.
Proof.
  induction s as [|c s IH]; [done|]. cbn [allChars Js.trimEnd].
  intros [Hc Hs]%andb_prop. rewrite (IH Hs).
  apply negb_true_iff in Hc as ->. by destruct s.
Qed.

Lemma trim_clean s :
  allChars (fun c => negb (Js.isWhiteSpace c)) s = true -> Js.trim s = s.
Proof.
  intros Hs. unfold Js.trim. rewrite trimStart_clean by done. by apply trimEnd_clean.
Qed.

Lemma allChars_trimStart p s : allChars p s = true -> allChars p (Js.trimStart s) = true.
Proof.
  induction s as [|c s IH]; [done|]. cbn [allChars Js.trimStart].
  intros [Hc Hs]%andb_prop. destruct (Js.isWhiteSpace c); [by apply IH|].
  cbn [allChars]. by rewrite Hc, Hs.
Qed.

Lemma allChars_trimEnd p s : allChars p s = true -> allChars p (Js.trimEnd s) = true.
Proof.
  induction s as [|c s IH]; [done|]. cbn [allChars Js.trimEnd].
  intros [Hc Hs]%andb_prop. specialize (IH Hs).
  destruct (Js.trimEnd s) as [|c' t].
  - destruct (Js.isWhiteSpace c); [done|]. cbn [allChars]. by rewrite Hc.
  - cbn [allChars] in *. by rewrite Hc, IH.
Qed.

Lemma allChars_trim p s : allChars p s = true -> allChars p (Js.trim s) = true.
Proof. intros Hs. by apply allChars_trimEnd, allChars_trimStart. Qed.

(** An address that passes the email pattern holds no white space. *)
Lemma emailRegex_no_space s :
  Regex.test Regex.emailRegex s = true ->
  allChars (fun c => negb (Js.isWhiteSpace c)) s = true.
Proof.
  intros (a & b & c & -> & Ha & Hb & Hc)%emailRegex_shape.
  apply token_spec in Ha as [_ Ha], Hb as [_ Hb], Hc as [_ Hc].
  assert (Hclean : forall t, allChars Regex.notSpaceAt t = true ->
                             allChars (fun c => negb (Js.isWhiteSpace c)) t = true).
  { intros t. apply allChars_impl. intros x. unfold Regex.notSpaceAt.
    by intros [? _]%andb_prop. }
  rewrite !allChars_app, (Hclean a), (Hclean b), (Hclean c) by done. reflexivity.
Qed.

Lemma emailRegex_trim s : Regex.test Regex.emailRegex s = true -> Js.trim s = s.
Proof. intros Hs. by apply trim_clean, emailRegex_no_space. Qed.

Lemma toLowerChar_cases c :
  toLowerChar c = c
  \/ (65 <= nat_of_ascii c <= 90)%nat
     /\ nat_of_ascii (toLowerChar c) = (nat_of_ascii c + 32)%nat.
Proof.
  unfold toLowerChar.
  destruct ((65 <=? nat_of_ascii c)%nat && (nat_of_ascii c <=? 90)%nat) eqn:Hc;
    [|by left].
  apply andb_prop in Hc as [H1%Nat.leb_le H2%Nat.leb_le]. right.
  split; [lia|]. apply nat_ascii_embedding. lia.
Qed.

Lemma toLowerChar_idemp c : toLowerChar (toLowerChar c) = toLowerChar c.
Proof.
  destruct (toLowerChar_cases c) as [H|[Hc Hn]]; [by rewrite !H|].
  unfold toLowerChar at 1. rewrite Hn.
  replace ((65 <=? nat_of_ascii c + 32)%nat && (nat_of_ascii c + 32 <=? 90)%nat)
    with false; [done|].
  symmetry. apply andb_false_iff. right. apply Nat.leb_gt. lia.
Qed.

Lemma ascii_eqb_code c x :
  Ascii.eqb c x = (nat_of_ascii c =? nat_of_ascii x)%nat.
Proof.
  destruct (Ascii.eqb_spec c x) as [->|Hne].
  - by rewrite Nat.eqb_refl.
  - symmetry. apply Nat.eqb_neq. intros Heq. apply Hne.
    by rewrite <- (ascii_nat_embedding c), <- (ascii_nat_embedding x), Heq.
Qed.

(** Lower-casing keeps a character out of the white space, of [@] and of
    the delimiters. *)
Lemma toLowerChar_notSpaceAt c :
  Regex.notSpaceAt c = true -> Regex.notSpaceAt (toLowerChar c) = true.
Proof.
  destruct (toLowerChar_cases c) as [->|[Hc Hn]]; [done|]. intros _.
  unfold Regex.notSpaceAt, Js.isWhiteSpace. rewrite ascii_eqb_code, Hn.
  change (nat_of_ascii "@") with 64%nat.
  apply andb_true_intro. split; apply negb_true_iff.
  - apply orb_false_iff. split; [apply andb_false_iff; right|];
      [apply Nat.leb_gt|apply Nat.eqb_neq]; lia.
  - apply Nat.eqb_neq. lia.
Qed.

Lemma toLowerChar_delimiter c :
  negb (delimiter c) = true -> negb (delimiter (toLowerChar c)) = true.
Proof.
  destruct (toLowerChar_cases c) as [->|[Hc Hn]]; [done|]. intros _.
  unfold delimiter. rewrite !ascii_eqb_code, Hn.
  change (nat_of_ascii ",") with 44%nat. change (nat_of_ascii ";") with 59%nat.
  change (nat_of_ascii "009") with 9%nat.
  apply negb_true_iff. repeat (apply orb_false_iff; split); apply Nat.eqb_neq; lia.
Qed.

Lemma toLowerCase_app a b : toLowerCase (a +:+ b) = toLowerCase a +:+ toLowerCase b.
Proof.
  induction a as [|c a IH]; [done|].
  rewrite string_app_cons. cbn [toLowerCase]. by rewrite IH, string_app_cons.
Qed.

Lemma toLowerCase_idemp s : toLowerCase (toLowerCase s) = toLowerCase s.
Proof.
  induction s as [|c s IH]; [done|]. cbn [toLowerCase].
  by rewrite toLowerChar_idemp, IH.
Qed.

Lemma allChars_toLowerCase p s :
  (forall c, p c = true -> p (toLowerChar c) = true) ->
  allChars p s = true -> allChars p (toLowerCase s) = true.
Proof.
  intros Hp. induction s as [|c s IH]; [done|]. cbn [allChars toLowerCase].
  intros [Hc Hs]%andb_prop. by rewrite (Hp c Hc), IH.
Qed.

Lemma token_toLowerCase s : token s = true -> token (toLowerCase s) = true.
Proof.
  rewrite !token_spec. intros [Hne Hs]. split.
  - by destruct s.
  - by apply allChars_toLowerCase; [apply toLowerChar_notSpaceAt|].
Qed.

(** The email pattern does not tell upper case from lower case. *)
Lemma emailRegex_toLowerCase s :
  Regex.test Regex.emailRegex s = true ->
  Regex.test Regex.emailRegex (toLowerCase s) = true.
Proof.
  intros (a & b & c & -> & Ha & Hb & Hc)%emailRegex_shape.
  apply emailRegex_shape.
  exists (toLowerCase a), (toLowerCase b), (toLowerCase c).
  rewrite !toLowerCase_app. split; [done|]. by rewrite !token_toLowerCase.
Qed.

(** ** parseEmails *)

Lemma allChars_rev_app p a b :
  allChars p (String.rev_app a b) = allChars p a && allChars p b.
Proof.
  revert b. induction a as [|c a IH]; intros b; [done|].
  cbn [String.rev_app allChars]. rewrite IH. cbn [allChars].
  by destruct (p c), (allChars p a), (allChars p b).
Qed.

(** The parts of a split hold no character of the class split at. *)
Lemma splitClass_go_parts p cur s :
  allChars (fun c => negb (p c)) cur = true ->
  Forall (fun part => allChars (fun c => negb (p c)) part = true)
    (splitClass_go p cur s).
Proof.
  revert cur. induction s as [|c s IH]; intros cur Hcur; cbn [splitClass_go].
  - constructor; [|constructor]. unfold String.rev.
    by rewrite allChars_rev_app, Hcur.
  - destruct (p c) eqn:Hc.
    + constructor; [|by apply IH]. unfold String.rev.
      by rewrite allChars_rev_app, Hcur.
    + apply IH. cbn [allChars]. by rewrite Hc, Hcur.
Qed.

(** A string without a character of the class is its only part. *)
Lemma splitClass_go_clean p cur s :
  allChars (fun c => negb (p c)) s = true ->
  splitClass_go p cur s = [String.rev cur +:+ s].
Proof.
  revert cur. induction s as [|c s IH]; intros cur Hs; cbn [splitClass_go].
  - by rewrite string_app_nil_r.
  - cbn [allChars] in Hs. apply andb_prop in Hs as [Hc Hs].
    apply negb_true_iff in Hc. rewrite Hc, IH by done. f_equal.
    change (String.rev (String c cur))
      with (String.rev (String.rev_app (String c EmptyString) cur)).
    by rewrite rev_rev_app, string_app_assoc.
Qed.

Lemma setAdd_NoDup x set : NoDup set -> NoDup (setAdd x set).
Proof.
  intros Hset. unfold setAdd. destruct (decide (x ∈ set)); [done|].
  apply NoDup_app. split; [done|]. split; [|apply NoDup_singleton].
  intros y Hy ->%list_elem_of_singleton. done.
Qed.

Lemma setAdd_Forall (P : string -> Prop) x set :
  P x -> Forall P set -> Forall P (setAdd x set).
Proof.
  intros Hx Hset. unfold setAdd. destruct (decide (x ∈ set)); [done|].
  apply Forall_app. split; [done|]. by constructor.
Qed.

Lemma setAdd_fresh x set : x ∉ set -> setAdd x set = set ++ [x].
Proof. intros Hx. unfold setAdd. by rewrite decide_False. Qed.

Lemma parsePart_inv emails part :
  allChars (fun c => negb (delimiter c)) part = true ->
  NoDup emails /\ Forall normalized emails ->
  NoDup (parsePart emails part) /\ Forall normalized (parsePart emails part).
Proof.
  intros Hpart [Hnd Hall]. unfold parsePart.
  destruct (Regex.test Regex.emailRegex (Js.trim part)) eqn:Htest; [|done].
  split; [by apply setAdd_NoDup|]. apply setAdd_Forall; [|done].
  split; [by apply emailRegex_toLowerCase|]. split.
  - apply allChars_toLowerCase; [apply toLowerChar_delimiter|].
    by apply allChars_trim.
  - apply toLowerCase_idemp.
Qed.

Lemma foldl_parsePart_inv parts : forall emails,
  Forall (fun part => allChars (fun c => negb (delimiter c)) part = true) parts ->
  NoDup emails /\ Forall normalized emails ->
  NoDup (foldl parsePart emails parts)
  /\ Forall normalized (foldl parsePart emails parts).
Proof.
  induction parts as [|part parts IH]; intros emails Hparts Hinv; [done|].
  apply Forall_cons in Hparts as [Hpart Hparts]. cbn [foldl].
  apply IH; [done|]. by apply parsePart_inv.
Qed.

Lemma parseLine_inv emails line :
  NoDup emails /\ Forall normalized emails ->
  NoDup (parseLine emails line) /\ Forall normalized (parseLine emails line).
Proof.
  intros Hinv. unfold parseLine.
  destruct (negb (Js.truthy (Js.trim line))); [done|].
  apply foldl_parsePart_inv; [|done]. by apply splitClass_go_parts.
Qed.

Lemma foldl_parseLine_inv lines : forall emails,
  NoDup emails /\ Forall normalized emails ->
  NoDup (foldl parseLine emails lines)
  /\ Forall normalized (foldl parseLine emails lines).
Proof.
  induction lines as [|line lines IH]; intros emails Hinv; [done|].
  cbn [foldl]. apply IH. by apply parseLine_inv.
Qed.

Lemma parseEmails_inv csv :
  NoDup (parseEmails csv) /\ Forall normalized (parseEmails csv).
Proof.
  unfold parseEmails. apply foldl_parseLine_inv. split; constructor.
Qed.

(** A normalized address on a line of its own is added as it is. *)
Lemma parseLine_normalized emails e :
  normalized e -> parseLine emails e = setAdd e emails.
Proof.
  intros (Htest & Hdelim & Hlower). unfold parseLine.
  rewrite (emailRegex_trim e Htest), (test_truthy e Htest). cbn [negb].
  unfold splitClass. rewrite splitClass_go_clean by done.
  cbn [String.rev String.rev_app foldl]. rewrite string_app_nil_l.
  unfold parsePart. by rewrite (emailRegex_trim e Htest), Htest, Hlower.
Qed.

Lemma foldl_parseLine_normalized lines : forall emails,
  Forall normalized lines -> NoDup (emails ++ lines) ->
  foldl parseLine emails lines = emails ++ lines.
Proof.
  induction lines as [|e lines IH]; intros emails Hall Hnd.
  - by rewrite app_nil_r.
  - apply Forall_cons in Hall as [He Hall]. cbn [foldl].
    rewrite parseLine_normalized by done.
    apply NoDup_app in Hnd as (Hnd1 & Hdisj & Hnd2).
    rewrite setAdd_fresh by (intros Hin; apply (Hdisj e Hin), list_elem_of_here).
    rewrite IH; [by rewrite <- app_assoc|done|]. rewrite <- app_assoc. cbn.
    apply NoDup_app. split; [done|]. split; [done|done].
Qed.

Lemma normalized_no_newline e :
  normalized e -> allChars (fun c => negb (Ascii.eqb c "010")) e = true.
Proof.
  intros (Htest & _). apply emailRegex_no_space in Htest.
  revert Htest. apply allChars_impl. intros c Hc.
  destruct (Ascii.eqb_spec c "010") as [->|]; [done|done].
Qed.

(** Lines without a newline, joined by newlines and split again. *)
Lemma split_join_lines lines :
  lines <> [] ->
  Forall (fun e => allChars (fun c => negb (Ascii.eqb c "010")) e = true) lines ->
  Js.split "010" (Js.join (String "010" EmptyString) lines) = lines.
Proof.
  unfold Js.split. induction lines as [|e lines IH]; [done|]. intros _ Hall.
  apply Forall_cons in Hall as [He Hall]. destruct lines as [|e' lines].
  - cbn [Js.join]. by rewrite split_go_last.
  - change (Js.join (String "010" EmptyString) (e :: e' :: lines))
      with (e +:+ String "010" EmptyString
              +:+ Js.join (String "010" EmptyString) (e' :: lines)).
    rewrite string_app_cons, string_app_nil_l, split_go_field by done.
    cbn [String.rev String.rev_app]. rewrite string_app_nil_l.
    f_equal. by apply IH.
Qed.

(** X8. [parseEmails] returns each address once, in lower case, and only
    addresses that pass the email pattern and hold no delimiter. *)
Theorem parseEmails_distinct_normalized csv :
  NoDup (parseEmails csv)
  /\ forall e, e ∈ parseEmails csv ->
       Regex.test Regex.emailRegex e = true
       /\ toLowerCase e = e
       /\ Js.trim e = e
       /\ allChars (fun c => negb (delimiter c)) e = true.
Proof.
  destruct (parseEmails_inv csv) as [Hnd Hall]. split; [done|].
  intros e He. rewrite Forall_forall in Hall.
  destruct (Hall e He) as (Htest & Hdelim & Hlower).
  by rewrite (emailRegex_trim e Htest).
Qed.

(** X9. Parsing is idempotent: the addresses it returns, written one per
    line, are parsed to themselves, in the same order. *)
Theorem parseEmails_idempotent csv :
  parseEmails (Js.join (String "010" EmptyString) (parseEmails csv))
  = parseEmails csv.
Proof.
  destruct (parseEmails_inv csv) as [Hnd Hall].
  destruct (parseEmails csv) as [|e es] eqn:Hout; [done|].
  unfold parseEmails at 1. rewrite split_join_lines.
  - by rewrite foldl_parseLine_normalized.
  - done.
  - eapply Forall_impl; [exact Hall|]. apply normalized_no_newline.
Qed.

(** ** What a request leaves behind *)

Lemma bind_val_inv {A B} (m : M A) (k : A -> M B) w b w' :
  bind m k w = (Val b, w') ->
  exists a w1, m w = (Val a, w1) /\ k a w1 = (Val b, w').
Proof. unfold bind. destruct (m w) as [[a|e] w1]; [eauto|discriminate]. Qed.

(** A request is turned down with 401 or 400 before anything is written;
    past the validation every recipient passes the email pattern and the
    answer is 201 or 500. *)
Lemma scheduleEmails_gate env req w :
  (exists msg,
     scheduleEmails env req w = (Val (Unauthorized msg), w)
     \/ scheduleEmails env req w = (Val (BadRequest msg), w))
  \/ (exists rs,
        reqRecipients req = Some rs
        /\ Forall (fun r => Regex.test Regex.emailRegex (Js.trim r) = true) rs
        /\ ((exists sid n c, (scheduleEmails env req w).1 = Val (Created sid n c))
            \/ exists msg, (scheduleEmails env req w).1 = Val (ServerError msg))).
Proof.
  unfold scheduleEmails, tryCatch.
  destruct (reqUserId req) as [userId|]; [|left; eexists; by left].
  destruct (Js.truthy userId); cbn [negb]; [|left; eexists; by left].
  destruct (reqRecipients req) as [rs|]; [|left; eexists; by right].
  destruct (falsy (reqSubject req) || falsy (reqBody req) || (length rs =? 0)%nat);
    [left; eexists; by right|].
  destruct (reqStartTime req) as [| |start]; [left; eexists; by right..|].
  destruct (0 <? length (List.filter _ rs))%nat eqn:Hinvalid;
    [left; eexists; by right|].
  right. exists rs. split; [done|]. split.
  - apply Nat.ltb_ge in Hinvalid.
    apply Forall_forall. intros r Hr.
    destruct (Regex.test Regex.emailRegex (Js.trim r)) eqn:Htest; [done|].
    exfalso.
    assert (Hin : r ∈ List.filter
                    (fun email => negb (Regex.test Regex.emailRegex (Js.trim email))) rs).
    { apply list_elem_of_In, filter_In. split; [by apply list_elem_of_In|].
      by rewrite Htest. }
    destruct (List.filter _ rs); [by apply elem_of_nil in Hin|cbn in Hinvalid; lia].
  - match goal with
    | |- context [match ?m w with _ => _ end] =>
        destruct (m w) as [[resp|e] w'] eqn:Hrun
    end; cbn [fst].
    + left.
      repeat (apply bind_val_inv in Hrun as (? & ? & _ & Hrun)).
      injection Hrun as <- _. eauto.
    + right. eauto.
Qed.

(** X10. [scheduleEmails] answers every request, whatever the Store and
    the queue do, and a request it answers with 401 or 400 leaves no
    trace: no user, campaign or job row, nothing queued. *)
Theorem scheduleEmails_rejection_leaves_no_trace env req w :
  exists resp,
    (scheduleEmails env req w).1 = Val resp
    /\ ((exists msg, resp = Unauthorized msg \/ resp = BadRequest msg) ->
        (scheduleEmails env req w).2 = w).
Proof.
  destruct (scheduleEmails_gate env req w)
    as [[msg [H|H]]|(rs & _ & _ & [(sid & n & c & H)|[msg H]])];
    rewrite H; eexists; (split; [reflexivity|]); try done.
  - intros [m [?|?]]; discriminate.
  - intros [m [?|?]]; discriminate.
Qed.


(** ** The recipients of the job rows *)



Lemma jobRecipients_markedIfFound id st t e w :
  jobRecipients (markedIfFound id st t e w) = jobRecipients w.
Proof.
  unfold jobRecipients. rewrite emailJob_markedIfFound.
  by apply updateFirst_map.
Qed.







(** ** A request that is answered 201 *)

(** The run behind a 201: the validation passed, the campaign row was
    created under a fresh id and the loop over the trimmed recipients came
    to its end. [w1] is the world in which the loop starts. *)
Lemma scheduleEmails_created_run env req w sid total created :
  (scheduleEmails env req w).1 = Val (Created sid total created) ->
  exists userId rs start row w1 c,
    reqUserId req = Some userId
    /\ reqRecipients req = Some rs
    /\ reqStartTime req = StartAt start
    /\ EmailSchedule.id row = sid
    /\ total = length rs
    /\ created = length c
    /\ emailQueue w1 = emailQueue w /\ log w1 = log w /\ now w1 = now w
    /\ emailJob w1 = emailJob w
    /\ scheduleLoop env row userId (default EmptyString (reqSubject req))
         (default EmptyString (reqBody req)) (default [] (reqAttachments req))
         start (default 2000 (reqDelayMs req)) 0 (map Js.trim rs) [] w1
       = (Val c, (scheduleEmails env req w).2).
Proof.
  unfold scheduleEmails, tryCatch.
  destruct (reqUserId req) as [userId|]; [|done].
  destruct (Js.truthy userId); cbn [negb]; [|done].
  destruct (reqRecipients req) as [rs|]; [|done].
  destruct (falsy (reqSubject req) || falsy (reqBody req) || (length rs =? 0)%nat);
    [done|].
  destruct (reqStartTime req) as [| |start]; [done..|].
  destruct (0 <? length (List.filter _ rs))%nat eqn:Hinvalid; [done|].
  rewrite (validRecipients_all rs Hinvalid).
  erewrite bind_val; [|reflexivity].
  erewrite bind_val; [|reflexivity].
  erewrite bind_val; [|reflexivity].
  match goal with
  | |- context [Prisma.emailSchedule_create ?r] => set (row := r)
  end.
  match goal with
  | |- context [bind (Prisma.emailSchedule_create row) _ ?w0] => set (w1 := w0)
  end.
  pose proof (emailSchedule_create_run row w1) as Hcreate.
  destruct (find (Prisma.scheduleHasId (EmailSchedule.id row)) (emailSchedule w1)).
  { erewrite bind_throw; [|exact Hcreate]. done. }
  erewrite bind_val; [|exact Hcreate].
  set (w2 := set_emailSchedule (fun rows => rows ++ [row]) w1).
  match goal with
  | |- context [bind ?m _ w2] => destruct (m w2) as [[c|e] w3] eqn:Hloop
  end.
  - erewrite bind_val; [|exact Hloop]. cbn [ret fst snd].
    intros [= <- <- <-]. exists userId, rs, start, row, w2, c.
    rewrite length_map. by repeat (split; [done|]).
  - erewrite bind_throw; [|exact Hloop]. done.
Qed.

(** One turn of the loop at the queue: without a queue the failure is
    swallowed and nothing is recorded; with a queue the job is added and
    counted. *)
Lemma enqueueAndLink_queue row data created w :
  now (enqueueAndLink row data created w).2 = now w
  /\ match emailQueue w with
     | None => enqueueAndLink row data created w = (Val created, w)
     | Some _ =>
         exists c,
           (enqueueAndLink row data created w).1 = Val c
           /\ length c = S (length created)
           /\ log (enqueueAndLink row data created w).2
              = log w ++ [QueueAdd ("email-" +:+ EmailJobData.recipient data)
                            (Z.max 0 (EmailJobData.scheduledTime data - now w))
                            (EmailJobData.scheduleId data +:+ "-"
                               +:+ EmailJobData.recipient data +:+ "-"
                               +:+ Js.toString (now w))]
           /\ is_Some (emailQueue (enqueueAndLink row data created w).2)
     end.
Proof.
  unfold enqueueAndLink, scheduleEmailJob, getQueue, queue_add,
    Prisma.emailJob_update, Prisma.emailJob_findUnique.
  destruct w as [rd ttl rlc es ej us q ready t uc mc lg]. munfold.
  destruct q as [jobs|]; [|done].
  destruct (find _ ej); cbn.
  - split; [done|]. eexists. split; [reflexivity|].
    rewrite length_app. cbn. split; [lia|]. split; [done|].
    by destruct (find _ jobs).
  - split; [done|]. eexists. split; [reflexivity|].
    rewrite length_app. cbn. split; [lia|]. split; [done|].
    by destruct (find _ jobs).
Qed.

Lemma scheduleLoop_queue env schedule userId subject body atts start delay rest :
  forall i created w c w',
    scheduleLoop env schedule userId subject body atts start delay i rest created w
      = (Val c, w') ->
    now w' = now w
    /\ match emailQueue w with
       | None => c = created /\ log w' = log w /\ emailQueue w' = None
       | Some _ =>
           length c = (length created + length rest)%nat
           /\ log w' = log w ++ queueAdds (EmailSchedule.id schedule) start delay
                                  (now w) i rest
           /\ is_Some (emailQueue w')
       end.
Proof.
  induction rest as [|recipient rest IH]; intros i created w c w'.
  - cbn [scheduleLoop ret]. intros [= <- <-]. split; [done|].
    destruct (emailQueue w) eqn:Hq; [|done].
    cbn. rewrite app_nil_r, Nat.add_0_r. by eauto.
  - cbn [scheduleLoop].
    erewrite bind_val; [|reflexivity].
    erewrite bind_val; [|reflexivity].
    set (w1 := set_uuidCalls S w).
    match goal with
    | |- context [Prisma.emailJob_create ?r] => set (row := r)
    end.
    match goal with
    | |- context [enqueueAndLink _ ?d _] => set (data := d)
    end.
    pose proof (emailJob_create_run row w1) as Hcreate.
    destruct (find (Prisma.jobHasId (EmailJob.id row)) (emailJob w1)).
    { erewrite bind_throw; [|exact Hcreate]. done. }
    erewrite bind_val; [|exact Hcreate].
    set (w2 := set_emailJob (fun rows => rows ++ [row]) w1).
    destruct (enqueueAndLink_queue row data created w2) as [Hnow Hq].
    change (emailQueue w2) with (emailQueue w) in Hq.
    change (now w2) with (now w) in Hnow, Hq. change (log w2) with (log w) in Hq.
    destruct (enqueueAndLink row data created w2) as [[c1|e1] w3] eqn:Hrun.
    + erewrite bind_val; [|exact Hrun]. intros Hloop.
      destruct (IH _ _ _ _ _ Hloop) as [Hnow' Hrest].
      cbn [snd fst] in Hnow, Hq. split; [congruence|].
      destruct (emailQueue w) as [jobs|] eqn:Hw.
      * destruct Hq as (c0 & [= <-] & Hlen & Hlog & [jobs' Hjobs]).
        rewrite Hjobs in Hrest. destruct Hrest as (Hlen' & Hlog' & Hsome).
        split; [cbn [length]; lia|]. split; [|done].
        rewrite Hlog', Hlog, Hnow. cbn [queueAdds]. by rewrite <- app_assoc.
      * injection Hq as -> ->. change (emailQueue w2) with (emailQueue w) in Hrest.
        rewrite Hw in Hrest. exact Hrest.
    + exfalso. destruct (emailQueue w); [|discriminate].
      by destruct Hq as (c0 & [=] & _).
Qed.

Lemma queueAdds_length sid start delay t i rest :
  length (queueAdds sid start delay t i rest) = length rest.
Proof. revert i. induction rest as [|r rest IH]; intros i; [done|]. cbn. by rewrite IH. Qed.

Lemma queueAdds_lookup sid start delay t rest : forall i j r,
  rest !! j = Some r ->
  queueAdds sid start delay t i rest !! j
  = Some (QueueAdd ("email-" +:+ r)
            (Z.max 0 (start + Z.of_nat (i + j) * delay - t))
            (sid +:+ "-" +:+ r +:+ "-" +:+ Js.toString t)).
Proof.
  induction rest as [|r0 rest IH]; intros i j r; [done|].
  destruct j as [|j]; cbn [queueAdds].
  - intros [= ->]. by rewrite Nat.add_0_r.
  - intros Hr. change ((r0 :: rest) !! S j) with (rest !! j) in Hr.
    change ((?x :: ?l) !! S j) with (l !! j).
    rewrite (IH (S i) j r Hr). by rewrite Nat.add_succ_r.
Qed.

(** X12. The [createdJobs] of a 201 tells whether the mails were queued:
    with the queue initialised it is the number of recipients, and without
    it the request is answered 201 all the same, with [createdJobs] 0,
    nothing added to a queue and no call of [queue.add]. *)
Theorem scheduleEmails_createdJobs env req w sid total created :
  (scheduleEmails env req w).1 = Val (Created sid total created) ->
  match emailQueue w with
  | Some _ => created = total /\ is_Some (emailQueue (scheduleEmails env req w).2)
  | None =>
      created = 0%nat
      /\ emailQueue (scheduleEmails env req w).2 = None
      /\ emitted (scheduleEmails env req) w = []
  end.
Proof.
  intros Hresp.
  destruct (scheduleEmails_created_run _ _ _ _ _ _ Hresp)
    as (userId & rs & start & row & w1 & c & _ & _ & _ & _ & -> & -> & Hq & Hlog & _
        & _ & Hloop).
  apply scheduleLoop_queue in Hloop as [_ Hloop]. rewrite Hq in Hloop.
  destruct (emailQueue w).
  - destruct Hloop as (Hlen & _ & Hsome). by rewrite length_map in Hlen.
  - destruct Hloop as (-> & Hlog' & Hnone). split; [done|]. split; [done|].
    unfold emitted. by rewrite Hlog', Hlog, drop_all.
Qed.

(** X12 on a request submitted before the queue is initialised: it is
    answered 201 with [createdJobs] 0. *)
Lemma scheduleEmails_createdJobs_witness :
  0%nat = 0%nat
  /\ emailQueue (scheduleEmails Fixture.envDeliver (Fixture.request ["a@x.io"] 10)
                   Cases.queueDown).2 = None
  /\ emitted (scheduleEmails Fixture.envDeliver (Fixture.request ["a@x.io"] 10))
       Cases.queueDown = [].
Proof.
  apply (scheduleEmails_createdJobs Fixture.envDeliver (Fixture.request ["a@x.io"] 10)
           Cases.queueDown "uuid-0" 1 0).
  vm_compute. reflexivity.
Defined.

(** X13. With the queue initialised, a request answered 201 calls
    [queue.add] once per recipient, in the order of the request: the job
    of the recipient at index [i] is named after the trimmed address and
    delayed by [max(0, startTime + i * delayMs - now)]. *)
Theorem scheduleEmails_queue_delays env req w jobs sid total created :
  emailQueue w = Some jobs ->
  (scheduleEmails env req w).1 = Val (Created sid total created) ->
  exists rs start,
    reqRecipients req = Some rs
    /\ reqStartTime req = StartAt start
    /\ length (emitted (scheduleEmails env req) w) = length rs
    /\ forall i r,
         rs !! i = Some r ->
         emitted (scheduleEmails env req) w !! i
         = Some (QueueAdd ("email-" +:+ Js.trim r)
                   (Z.max 0 (start + Z.of_nat i * default 2000 (reqDelayMs req) - now w))
                   (sid +:+ "-" +:+ Js.trim r +:+ "-" +:+ Js.toString (now w))).
Proof.
  intros Hjobs Hresp.
  destruct (scheduleEmails_created_run _ _ _ _ _ _ Hresp)
    as (userId & rs & start & row & w1 & c & _ & Hrs & Hstart & Hid & _ & _ & Hq & Hlog
        & Hnow & _ & Hloop).
  apply scheduleLoop_queue in Hloop as [_ Hloop]. rewrite Hq, Hjobs in Hloop.
  destruct Hloop as (_ & Hlog' & _). rewrite Hlog, Hnow, Hid in Hlog'.
  exists rs, start. split; [done|]. split; [done|].
  unfold emitted. rewrite Hlog', drop_app_length. split.
  - by rewrite queueAdds_length, length_map.
  - intros i r Hr. apply (queueAdds_lookup _ _ _ _ _ 0 i (Js.trim r)).
    by rewrite list_lookup_fmap, Hr.
Qed.

(** X13 on a request with two recipients, one second apart. *)
Lemma scheduleEmails_queue_delays_witness :
  exists rs start,
    reqRecipients (Fixture.request ["a@x.io"; " b@x.io "] 10) = Some rs
    /\ reqStartTime (Fixture.request ["a@x.io"; " b@x.io "] 10) = StartAt start
    /\ length (emitted (scheduleEmails Fixture.envDeliver
                          (Fixture.request ["a@x.io"; " b@x.io "] 10)) Fixture.booted)
       = length rs
    /\ forall i r,
         rs !! i = Some r ->
         emitted (scheduleEmails Fixture.envDeliver
                    (Fixture.request ["a@x.io"; " b@x.io "] 10)) Fixture.booted !! i
         = Some (QueueAdd ("email-" +:+ Js.trim r)
                   (Z.max 0 (start + Z.of_nat i
                                     * default 2000
                                         (reqDelayMs (Fixture.request ["a@x.io"; " b@x.io "] 10))
                             - now Fixture.booted))
                   ("uuid-0" +:+ "-" +:+ Js.trim r +:+ "-"
                      +:+ Js.toString (now Fixture.booted))).
Proof.
  apply (scheduleEmails_queue_delays Fixture.envDeliver
           (Fixture.request ["a@x.io"; " b@x.io "] 10) Fixture.booted [] "uuid-0" 2 2).
  - reflexivity.
  - vm_compute. reflexivity.
Defined.

(** ** From the compose form to the job rows *)

Lemma map_trim_normalized rs : Forall normalized rs -> map Js.trim rs = rs.
Proof.
  induction 1 as [|r rs (Htest & _) _ IH]; [done|]. cbn [map].
  by rewrite (emailRegex_trim r Htest), IH.
Qed.

(** X14. A campaign submitted from the compose form, whose recipients are
    parsed by [parseEmails], gets one job row per distinct address: when
    the request is answered 201, the recipients of the campaign's job rows
    are the parsed addresses as they are, each once, in the order parsed. *)
Theorem composed_campaign_one_job_per_address env req w csvContent recipientsText
    sid total created :
  reachable w ->
  reqRecipients req = Some (composedRecipients csvContent recipientsText) ->
  (scheduleEmails env req w).1 = Val (Created sid total created) ->
  (campaignJobs sid (scheduleEmails env req w).2).*1
    = composedRecipients csvContent recipientsText
  /\ NoDup (campaignJobs sid (scheduleEmails env req w).2).*1
  /\ total = length (composedRecipients csvContent recipientsText).
Proof.
  intros Hreach Hrs Hresp.
  destruct (scheduleEmails_created env req w sid total created
              (reachable_tablesInv w Hreach) Hresp)
    as (rs & start & s & Hrs' & _ & Htotal & _ & _ & _ & _ & _ & Hjobs).
  rewrite Hrs in Hrs'. injection Hrs' as <-.
  destruct (parseEmails_inv (csvContent +:+ String "010" recipientsText))
    as [Hnd Hall].
  fold (composedRecipients csvContent recipientsText) in Hnd, Hall.
  rewrite Hjobs, loopKeys_recipients, map_trim_normalized by done.
  by repeat split.
Qed.

(** X14 on a form with one address in three spellings and another one. *)
Lemma composed_campaign_one_job_per_address_witness :
  (campaignJobs "uuid-0" (scheduleEmails Fixture.envDeliver Cases.composed Fixture.booted).2).*1
    = composedRecipients "a@x.io, A@X.IO" "b@x.io;a@x.io"
  /\ NoDup (campaignJobs "uuid-0"
              (scheduleEmails Fixture.envDeliver Cases.composed Fixture.booted).2).*1
  /\ 2%nat = length (composedRecipients "a@x.io, A@X.IO" "b@x.io;a@x.io").
Proof.
  apply (composed_campaign_one_job_per_address Fixture.envDeliver Cases.composed
           Fixture.booted "a@x.io, A@X.IO" "b@x.io;a@x.io" "uuid-0" 2 2).
  - apply reach_init; reflexivity.
  - reflexivity.
  - vm_compute. reflexivity.
Defined.

(** ** Attempts and mails *)

(** A run of the processor calls the Mailer at most once. *)
Lemma mailerCalls_processor env job w :
  (mailerCalls w <= mailerCalls (processor env job w).2 <= S (mailerCalls w))%nat.
Proof.
  rewrite processor_run. destruct (defers _ _ w); [cbn; lia|].
  rewrite sendAndRecord_run. cbv zeta.
  destruct (emailTransporter _).
  - destruct (sendMail env _ _) as [mid|e]; wsimpl; lia.
  - wsimpl. lia.
Qed.

(** X15. A run of the processor calls the Mailer at most once: not at all
    when it returns after deferring the job, and exactly once when it
    returns a result; so [n] attempts at a job, runs of the processor one
    after another, call the Mailer at most [n] times, whatever the Mailer
    answers. *)
Theorem processor_calls_mailer_at_most_once env job w :
  (mailerCalls w <= mailerCalls (processor env job w).2 <= S (mailerCalls w))%nat
  /\ ((processor env job w).1 = Val None ->
      mailerCalls (processor env job w).2 = mailerCalls w)
  /\ (forall res,
        (processor env job w).1 = Val (Some res) ->
        mailerCalls (processor env job w).2 = S (mailerCalls w))
  /\ forall n,
       (mailerCalls w <= mailerCalls (attempted env job n w) <= mailerCalls w + n)%nat.
Proof.
  split; [apply mailerCalls_processor|].
  split; [|split].
  - rewrite processor_outcome, processor_run.
    destruct (defers _ _ w); [done|].
    rewrite sendAndRecord_run. wsimpl.
    destruct (emailTransporter w); [|discriminate].
    destruct (sendMail env _ _); discriminate.
  - intros res. rewrite processor_outcome, processor_run.
    destruct (defers _ _ w); [discriminate|].
    rewrite sendAndRecord_run. wsimpl.
    destruct (emailTransporter w); [|discriminate].
    destruct (sendMail env _ _); [|discriminate]. intros _. by wsimpl.
  - induction n as [|n IH]; [cbn; lia|].
    rewrite attempted_S.
    pose proof (mailerCalls_processor env job (attempted env job n w)). lia.
Qed.

(** ** Completed campaigns *)

Lemma settled_counts sid w :
  (countByStatus sid Sent w + countByStatus sid Failed w)%nat = settled sid w.
Proof.
  unfold countByStatus, settled, settledAmong.
  induction (emailJob w) as [|r rows IH]; [done|].
  rewrite !filter_cons.
  destruct (decide (EmailJob.scheduleId r = sid)) as [Hs|Hs].
  - destruct (EmailJob.status r) eqn:Hst;
      repeat (case_decide; try (exfalso; intuition congruence)); cbn [length]; lia.
  - repeat (case_decide; try (exfalso; intuition congruence)); cbn [length]; lia.
Qed.

Lemma settledAmong_app sid rows rows' :
  settledAmong sid (rows ++ rows')
  = (settledAmong sid rows + settledAmong sid rows')%nat.
Proof. unfold settledAmong. by rewrite filter_app, length_app. Qed.

Lemma settledAmong_cons sid r rows :
  settledAmong sid (r :: rows)
  = ((if decide (EmailJob.scheduleId r = sid /\ EmailJob.status r <> Pending)
      then 1 else 0) + settledAmong sid rows)%nat.
Proof. unfold settledAmong. rewrite filter_cons. by case_decide. Qed.

(** An update that keeps campaign and status of a row keeps the settled
    rows; one that settles the row may add to them. *)
Lemma settledAmong_updateFirst_same sid (p : EmailJob.t -> bool) f rows :
  (forall r, EmailJob.scheduleId (f r) = EmailJob.scheduleId r
             /\ EmailJob.status (f r) = EmailJob.status r) ->
  settledAmong sid (Prisma.updateFirst p f rows) = settledAmong sid rows.
Proof.
  intros Hf. induction rows as [|r rows IH]; [done|]. cbn [Prisma.updateFirst].
  destruct (p r); rewrite !settledAmong_cons.
  - destruct (Hf r) as [-> ->]. done.
  - by rewrite IH.
Qed.

Lemma settledAmong_updateFirst_le sid (p : EmailJob.t -> bool) f rows :
  (forall r, EmailJob.scheduleId (f r) = EmailJob.scheduleId r
             /\ EmailJob.status (f r) <> Pending) ->
  (settledAmong sid rows <= settledAmong sid (Prisma.updateFirst p f rows))%nat.
Proof.
  intros Hf. induction rows as [|r rows IH]; [done|]. cbn [Prisma.updateFirst].
  destruct (p r); rewrite !settledAmong_cons.
  - destruct (Hf r) as [Hs Hst]. rewrite Hs.
    repeat case_decide; try lia. exfalso. intuition.
  - lia.
Qed.

Lemma settled_markedIfFound sid id st t e w :
  st <> Pending ->
  (settled sid w <= settled sid (markedIfFound id st t e w))%nat.
Proof.
  intros Hst. unfold settled. rewrite emailJob_markedIfFound.
  apply settledAmong_updateFirst_le. by intros r.
Qed.

Lemma countsBehind_mono w w' :
  emailSchedule w' = emailSchedule w ->
  (forall sid, settled sid w <= settled sid w')%nat ->
  countsBehind w -> countsBehind w'.
Proof.
  intros Hs Hle Hinv s Hin. rewrite Hs in Hin.
  specialize (Hinv s Hin). specialize (Hle (EmailSchedule.id s)). lia.
Qed.

Lemma countsBehind_same w w' :
  emailSchedule w' = emailSchedule w -> emailJob w' = emailJob w ->
  countsBehind w -> countsBehind w'.
Proof.
  intros Hs Hj. apply countsBehind_mono; [done|].
  intros sid. unfold settled. by rewrite Hj.
Qed.

Lemma countsBehind_markedIfFound id st t e w :
  st <> Pending -> countsBehind w -> countsBehind (markedIfFound id st t e w).
Proof.
  intros Hst. apply countsBehind_mono; [apply emailSchedule_markedIfFound|].
  intros sid. by apply settled_markedIfFound.
Qed.

(** Recomputing the counts of a campaign sets them to the settled rows. *)
Lemma countsBehind_recounted sid w : countsBehind w -> countsBehind (recounted sid w).
Proof.
  intros Hinv s Hin. unfold settled. rewrite emailJob_recounted.
  fold (settled (EmailSchedule.id s) w). unfold recounted in Hin.
  destruct (find (Prisma.scheduleHasId sid) (emailSchedule w)) as [s0|] eqn:Hfind;
    [|by apply Hinv].
  cbn [set_emailSchedule emailSchedule] in Hin.
  apply elem_of_updateFirst in Hin as [Hin|(r & Hr & ->)]; [by apply Hinv|].
  rewrite Hfind in Hr. injection Hr as <-.
  destruct (find_elem_of _ _ _ Hfind) as [_ Hid%scheduleHasId_true].
  cbn [scheduleCountsPatch EmailSchedule.id EmailSchedule.sentCount
       EmailSchedule.failedCount].
  rewrite Hid, settled_counts. lia.
Qed.

(** A run of the processor settles job rows and recounts; it leaves no
    campaign row ahead of its job rows. *)
Lemma countsBehind_processor env job w :
  countsBehind w -> countsBehind (processor env job w).2.
Proof.
  intros Hinv. rewrite processor_run.
  destruct (defers _ _ w); [by apply (countsBehind_same w)|].
  rewrite sendAndRecord_run. cbv zeta.
  assert (Hstart : forall e1 e2 f,
            countsBehind (set_mailerCalls f (logged e1 (logged e2 w))))
    by (intros; by apply (countsBehind_same w)).
  destruct (emailTransporter _).
  - destruct (sendMail env _ _) as [mid|e]; cbn [snd].
    + apply countsBehind_recounted.
      eapply countsBehind_same; [reflexivity..|].
      apply countsBehind_markedIfFound; [done|].
      eapply countsBehind_same;
        [apply emailSchedule_incremented|apply emailJob_incremented|].
      eapply countsBehind_same; [reflexivity..|]. apply Hstart.
    + apply countsBehind_markedIfFound; [done|].
      apply countsBehind_recounted.
      eapply countsBehind_same; [reflexivity..|].
      apply countsBehind_markedIfFound; [done|]. apply Hstart.
  - cbn [snd]. apply countsBehind_markedIfFound; [done|].
    apply countsBehind_recounted.
    eapply countsBehind_same; [reflexivity..|].
    apply countsBehind_markedIfFound; [done|].
    by apply (countsBehind_same w).
Qed.

Lemma sameSettled_refl w : sameSettled w w.
Proof. by intros sid. Qed.

Lemma sameSettled_trans w1 w2 w3 :
  sameSettled w1 w2 -> sameSettled w2 w3 -> sameSettled w1 w3.
Proof. intros H1 H2 sid. by rewrite H2, H1. Qed.

Lemma sameSettled_set w f : emailJob (f w) = emailJob w -> sameSettled w (f w).
Proof. intros Hj sid. unfold settled. by rewrite Hj. Qed.

(** Steps through a computation that keeps the settled rows. *)
Ltac keeps_settled :=
  repeat first
    [ apply (keeps_bind sameSettled sameSettled_trans); [|intros ?]
    | apply (keeps_tryCatch sameSettled sameSettled_trans); [|intros ?]
    | apply (keeps_gets sameSettled sameSettled_refl)
    | apply (keeps_ret sameSettled sameSettled_refl)
    | apply (keeps_throw sameSettled sameSettled_refl)
    | apply (keeps_modify sameSettled); intros ?; by apply sameSettled_set ].

Lemma scheduleEmailJob_sameSettled data : keeps sameSettled (scheduleEmailJob data).
Proof.
  unfold scheduleEmailJob, getQueue, queue_add, emit, dateNow.
  keeps_settled. case_match; keeps_settled.
Qed.

Lemma emailJob_update_sameSettled id f :
  (forall r, EmailJob.scheduleId (f r) = EmailJob.scheduleId r
             /\ EmailJob.status (f r) = EmailJob.status r) ->
  keeps sameSettled (Prisma.emailJob_update id f).
Proof.
  intros Hf. unfold Prisma.emailJob_update, Prisma.emailJob_findUnique.
  keeps_settled. case_match; keeps_settled.
  apply (keeps_modify sameSettled). intros w sid. unfold settled.
  cbn [set_emailJob emailJob]. by apply settledAmong_updateFirst_same.
Qed.

Lemma enqueueAndLink_sameSettled emailJob data created :
  keeps sameSettled (enqueueAndLink emailJob data created).
Proof.
  unfold enqueueAndLink.
  apply (keeps_tryCatch sameSettled sameSettled_trans);
    [|intros _; apply (keeps_ret sameSettled sameSettled_refl)].
  apply (keeps_bind sameSettled sameSettled_trans);
    [apply scheduleEmailJob_sameSettled|intros jobId].
  apply (keeps_tryCatch sameSettled sameSettled_trans);
    [|intros _; apply (keeps_ret sameSettled sameSettled_refl)].
  apply (keeps_bind sameSettled sameSettled_trans);
    [apply (keeps_gets sameSettled sameSettled_refl)|intros t].
  apply (keeps_bind sameSettled sameSettled_trans);
    [by apply emailJob_update_sameSettled|intros _].
  apply (keeps_ret sameSettled sameSettled_refl).
Qed.

(** A new job row is pending: it is not among the settled ones. *)
Lemma emailJob_create_sameSettled row :
  EmailJob.status row = Pending -> keeps sameSettled (Prisma.emailJob_create row).
Proof.
  intros Hrow w sid. rewrite emailJob_create_run.
  destruct (find _ (emailJob w)); [done|]. unfold settled.
  cbn [snd set_emailJob emailJob].
  rewrite settledAmong_app, settledAmong_cons. rewrite Hrow.
  rewrite decide_False by (intros [_ H]; done). cbn. lia.
Qed.

Lemma scheduleLoop_sameSettled env schedule userId subject body atts start delay rest :
  forall i created,
    keeps sameSettled
      (scheduleLoop env schedule userId subject body atts start delay i rest created).
Proof.
  induction rest as [|recipient rest IH]; intros i created; cbn [scheduleLoop].
  - apply (keeps_ret sameSettled sameSettled_refl).
  - unfold next_uuid, dateNow.
    apply (keeps_bind sameSettled sameSettled_trans); [keeps_settled|intros jid].
    apply (keeps_bind sameSettled sameSettled_trans); [keeps_settled|intros t].
    apply (keeps_bind sameSettled sameSettled_trans);
      [by apply emailJob_create_sameSettled|intros row].
    apply (keeps_bind sameSettled sameSettled_trans);
      [apply enqueueAndLink_sameSettled|intros created'].
    apply IH.
Qed.

Lemma scheduleEmails_sameSettled env req : keeps sameSettled (scheduleEmails env req).
Proof.
  unfold scheduleEmails.
  apply (keeps_tryCatch sameSettled sameSettled_trans); [|intros e; keeps_settled].
  destruct (reqUserId req) as [userId|]; [|keeps_settled].
  destruct (negb (Js.truthy userId)); [keeps_settled|].
  destruct (reqRecipients req) as [rs|]; [|keeps_settled].
  destruct (falsy (reqSubject req) || falsy (reqBody req) || (length rs =? 0)%nat);
    [keeps_settled|].
  destruct (reqStartTime req) as [| |start]; [keeps_settled..|].
  destruct (0 <? length (List.filter _ rs))%nat; [keeps_settled|].
  unfold Prisma.user_upsert, next_uuid, dateNow.
  apply (keeps_bind sameSettled sameSettled_trans); [keeps_settled|intros _].
  apply (keeps_bind sameSettled sameSettled_trans); [keeps_settled|intros sid].
  apply (keeps_bind sameSettled sameSettled_trans); [keeps_settled|intros t].
  apply (keeps_bind sameSettled sameSettled_trans).
  { intros w sid'. rewrite emailSchedule_create_run.
    by destruct (find _ (emailSchedule w)). }
  intros schedule.
  apply (keeps_bind sameSettled sameSettled_trans);
    [apply scheduleLoop_sameSettled|intros created].
  apply (keeps_ret sameSettled sameSettled_refl).
Qed.

Lemma countsBehind_scheduleEmails env req w :
  countsBehind w -> countsBehind (scheduleEmails env req w).2.
Proof.
  intros Hinv s Hin.
  rewrite (scheduleEmails_sameSettled env req w (EmailSchedule.id s)).
  destruct (scheduleEmails_tables env req w)
    as [[[Hs _] _]|(rs & start & row & k & _ & _ & _ & _ & _ & _ & _ & _
                     & Hsent & Hfailed & _ & _ & Hs & _)].
  - rewrite Hs in Hin. by apply Hinv.
  - rewrite Hs in Hin.
    apply elem_of_app in Hin as [Hin|Hin%list_elem_of_singleton]; [by apply Hinv|].
    subst s. rewrite Hsent, Hfailed. lia.
Qed.

Lemma step_invariants w w' :
  step w w' -> tablesInv w /\ countsBehind w -> tablesInv w' /\ countsBehind w'.
Proof.
  intros [env req w0|env job w0|ms w0] [Htab Hcount].
  - split; [by apply scheduleEmails_tablesInv|by apply countsBehind_scheduleEmails].
  - split; [by apply processor_tablesInv|by apply countsBehind_processor].
  - split; [by apply (tablesInv_ext w0)|by apply (countsBehind_same w0)].
Qed.

Lemma served_invariants w : served w -> tablesInv w /\ countsBehind w.
Proof.
  induction 1 as [w Hs Hj|w w' _ IH Hstep]; [|by apply (step_invariants w)].
  split; [split|]; intros x; rewrite ?Hs, ?Hj; by intros ?%elem_of_nil.
Qed.

Lemma find_updateFirst_other {A} (p q : A -> bool) f rows :
  (forall r, q r = true -> p r = false /\ p (f r) = false) ->
  find p (Prisma.updateFirst q f rows) = find p rows.
Proof.
  intros Hq. induction rows as [|r rows IH]; [done|]. cbn.
  destruct (q r) eqn:Hr; cbn.
  - by destruct (Hq r Hr) as [-> ->].
  - by rewrite IH.
Qed.

Lemma completed_ext sid w w' :
  emailSchedule w' = emailSchedule w -> completed sid w -> completed sid w'.
Proof. unfold completed. by intros ->. Qed.

(** Recounting a campaign leaves a completed campaign completed: the
    settled rows of a completed campaign have reached its total. *)
Lemma completed_recounted sid sid' w :
  tablesInv w -> countsBehind w -> completed sid w -> completed sid (recounted sid' w).
Proof.
  intros [Hrows _] Hcount (s & Hfind & Hdone). unfold completed, recounted.
  destruct (find (Prisma.scheduleHasId sid') (emailSchedule w)) as [s'|] eqn:Hfind';
    [|eauto].
  cbn [set_emailSchedule emailSchedule].
  destruct (decide (sid = sid')) as [<-|Hne].
  - rewrite find_updateFirst by done. rewrite Hfind. cbn. eexists. split; [done|].
    rewrite Hfind in Hfind'. injection Hfind' as <-.
    destruct (find_elem_of _ _ _ Hfind) as [Hin Hid%scheduleHasId_true].
    destruct (Hrows s Hin) as [Hcons _]. apply Hcons in Hdone.
    specialize (Hcount s Hin). rewrite Hid, <- settled_counts in Hcount.
    cbn [scheduleCountsPatch EmailSchedule.status].
    by rewrite (proj2 (Nat.leb_le _ _)) by lia.
  - rewrite find_updateFirst_other; [eauto|].
    intros r Hr%scheduleHasId_true.
    split; apply scheduleHasId_false; cbn [scheduleCountsPatch EmailSchedule.id];
      congruence.
Qed.

Lemma completed_processor env job sid w :
  tablesInv w -> countsBehind w -> completed sid w ->
  completed sid (processor env job w).2.
Proof.
  intros Htab Hcount Hdone. rewrite processor_run.
  destruct (defers _ _ w); [by apply (completed_ext sid w)|].
  rewrite sendAndRecord_run. cbv zeta.
  destruct (emailTransporter _).
  - destruct (sendMail env _ _) as [mid|e]; cbn [snd].
    + apply completed_recounted.
      * apply tablesInv_logged, tablesInv_slept, tablesInv_markedIfFound,
          tablesInv_incremented, tablesInv_logged, tablesInv_mailerCalls,
          tablesInv_logged, tablesInv_logged, Htab.
      * eapply countsBehind_same; [reflexivity..|].
        apply countsBehind_markedIfFound; [done|].
        eapply countsBehind_same;
          [apply emailSchedule_incremented|apply emailJob_incremented|].
        by apply (countsBehind_same w).
      * eapply completed_ext; [|exact Hdone]. wsimpl. done.
    + eapply completed_ext; [apply emailSchedule_markedIfFound|].
      apply completed_recounted.
      * apply tablesInv_logged, tablesInv_markedIfFound, tablesInv_mailerCalls,
          tablesInv_logged, tablesInv_logged, Htab.
      * eapply countsBehind_same; [reflexivity..|].
        apply countsBehind_markedIfFound; [done|].
        by apply (countsBehind_same w).
      * eapply completed_ext; [|exact Hdone]. wsimpl. done.
  - cbn [snd]. eapply completed_ext; [apply emailSchedule_markedIfFound|].
    apply completed_recounted.
    + apply tablesInv_logged, tablesInv_markedIfFound, tablesInv_logged, Htab.
    + eapply countsBehind_same; [reflexivity..|].
      apply countsBehind_markedIfFound; [done|].
      by apply (countsBehind_same w).
    + eapply completed_ext; [|exact Hdone]. wsimpl. done.
Qed.

Lemma completed_step sid w w' :
  served w -> step w w' -> completed sid w -> completed sid w'.
Proof.
  intros [Htab Hcount]%served_invariants Hstep Hdone.
  destruct Hstep as [env req w|env job w|ms w].
  - destruct Hdone as (s & Hfind & Hst).
    destruct (scheduleEmails_tables env req w)
      as [[[Hs _] _]|(rs & start & row & k & _ & _ & _ & _ & _ & _ & _ & _
                       & _ & _ & _ & _ & Hs & _)].
    + exists s. by rewrite Hs.
    + exists s. rewrite Hs. split; [|done].
      clear -Hfind. induction (emailSchedule w) as [|r rows IH]; [done|].
      cbn in *. destruct (Prisma.scheduleHasId sid r); [done|by apply IH].
  - by apply completed_processor.
  - by apply (completed_ext sid w).
Qed.

(** X16. Completed is final: when the runs of the backend follow one
    another, a campaign whose row is completed stays completed over every
    further sequence of requests, runs of the worker and passing of
    time. *)
Theorem completed_is_final sid w w' :
  served w -> rtc step w w' -> completed sid w -> completed sid w'.
Proof.
  intros Hserved Hsteps. revert Hserved.
  induction Hsteps as [w|w w1 w' Hstep _ IH]; intros Hserved Hdone; [done|].
  apply IH; [by apply (served_step w)|by apply (completed_step sid w)].
Qed.

(** X16 on a completed campaign whose job bounces once more. *)
Lemma completed_is_final_witness : completed "uuid-0" Fixture.afterSecondBounce.
Proof.
  apply (completed_is_final "uuid-0" Fixture.afterDelivery Fixture.afterSecondBounce).
  - apply (served_step Fixture.afterBounce); [|apply step_process].
    apply (served_step Fixture.sameIdScheduled); [|apply step_process].
    apply (served_step Fixture.booted); [|apply step_schedule].
    apply served_init; reflexivity.
  - apply (rtc_l step _ Fixture.afterSecondBounce); [apply step_process|apply rtc_refl].
  - exists Fixture.completedRow. split; [vm_compute; reflexivity|reflexivity].
Defined.

(** ** The rows the worker writes *)

Lemma updateFirst_lookup_other {A} (p : A -> bool) f rows : forall i r,
  rows !! i = Some r -> p r = false -> Prisma.updateFirst p f rows !! i = Some r.
Proof.
  induction rows as [|r0 rows IH]; intros i r Hi Hr; [done|]. cbn.
  destruct (p r0) eqn:Hr0.
  - destruct i as [|i]; [|done]. injection Hi as ->. congruence.
  - destruct i as [|i]; [done|]. by apply IH.
Qed.

(** X17. A run of the processor writes to the job row whose id is the
    [scheduleId] of the job, and to no other: every row with another id
    is left as it was, and when no job row has that id, as when every row
    and campaign has an id of its own, the job table is left as it was,
    whatever the Mailer answered. *)
Theorem processor_updates_row_with_campaign_id env job w :
  (forall i r,
     emailJob w !! i = Some r ->
     EmailJob.id r <> EmailJobData.scheduleId (Job.data job) ->
     emailJob (processor env job w).2 !! i = Some r)
  /\ (find (Prisma.jobHasId (EmailJobData.scheduleId (Job.data job))) (emailJob w) = None ->
      emailJob (processor env job w).2 = emailJob w).
Proof.
  rewrite processor_run. destruct (defers _ _ w); [done|].
  rewrite sendAndRecord_run. cbv zeta. split.
  - intros i r Hi Hr%String.eqb_neq.
    destruct (emailTransporter _); [destruct (sendMail env _ _) as [mid|e]|];
      wsimpl; by repeat apply updateFirst_lookup_other.
  - intros Hfind.
    destruct (emailTransporter _); [destruct (sendMail env _ _) as [mid|e]|];
      wsimpl; by rewrite !updateFirst_none by (by rewrite ?updateFirst_none).
Qed.

(** On [Fixture.oneScheduled] the job row has the id uuid-1 and the
    campaign the id uuid-0: a delivery leaves the row pending. *)
Example delivery_leaves_row_pending :
  emitted (processor Fixture.envDeliver
             (Fixture.jobFor "uuid-0" "a@x.io" (Fixture.t0 + 100)))
    Fixture.oneScheduled
  = [RateLimiterCheck workerSender 200; MailerSend "a@x.io";
     RateLimiterIncrement workerSender; Sleep 2000; StoreUpdateCounts "uuid-0"]
  /\ Fixture.jobStates
       (processor Fixture.envDeliver
          (Fixture.jobFor "uuid-0" "a@x.io" (Fixture.t0 + 100))
          Fixture.oneScheduled).2
     = [("uuid-1", Pending, None)].
Proof. split; by vm_compute. Qed.

Lemma updateFirst_twice {A} (p : A -> bool) f g rows :
  (forall r, p (f r) = p r) ->
  Prisma.updateFirst p g (Prisma.updateFirst p f rows)
  = Prisma.updateFirst p (fun r => g (f r)) rows.
Proof.
  intros Hp. induction rows as [|r rows IH]; [done|]. cbn.
  destruct (p r) eqn:Hr; cbn.
  - by rewrite Hp, Hr.
  - by rewrite Hr, IH.
Qed.

Lemma emailSchedule_recounted sid w :
  emailSchedule (recounted sid w)
  = match find (Prisma.scheduleHasId sid) (emailSchedule w) with
    | Some s0 =>
        Prisma.updateFirst (Prisma.scheduleHasId sid)
          (scheduleCountsPatch (countByStatus sid Sent w) (countByStatus sid Failed w)
             (EmailSchedule.totalCount s0
                <=? countByStatus sid Sent w + countByStatus sid Failed w)%nat
             (now w)) (emailSchedule w)
    | None => emailSchedule w
    end.
Proof. unfold recounted. by destruct (find _ (emailSchedule w)). Qed.

Lemma countByStatus_ext sid st w w' :
  emailJob w' = emailJob w -> countByStatus sid st w' = countByStatus sid st w.
Proof. unfold countByStatus. by intros ->. Qed.

(** X18. [updateScheduleCounts] returns for every id: for an id that no
    campaign has it changes no table, and for a campaign it writes the
    numbers of its sent and failed job rows, so that a second call right
    after the first changes nothing. *)
Theorem updateScheduleCounts_idempotent scheduleId w :
  exists w',
    updateScheduleCounts scheduleId w = (Val tt, w')
    /\ emailJob w' = emailJob w
    /\ (find (Prisma.scheduleHasId scheduleId) (emailSchedule w) = None ->
        emailSchedule w' = emailSchedule w)
    /\ (forall s, find (Prisma.scheduleHasId scheduleId) (emailSchedule w') = Some s ->
          EmailSchedule.sentCount s = countByStatus scheduleId Sent w
          /\ EmailSchedule.failedCount s = countByStatus scheduleId Failed w)
    /\ emailSchedule (updateScheduleCounts scheduleId w').2 = emailSchedule w'.
Proof.
  eexists. split; [apply updateScheduleCounts_run|].
  set (w1 := logged (StoreUpdateCounts scheduleId) w).
  split; [by rewrite emailJob_recounted|].
  rewrite updateScheduleCounts_run. cbn [snd].
  set (w2 := logged (StoreUpdateCounts scheduleId) (recounted scheduleId w1)).
  assert (Hj : emailJob w2 = emailJob w) by (unfold w2; wsimpl; done).
  assert (Hnow : now w2 = now w) by (unfold w2; wsimpl; done).
  assert (Hs : emailSchedule w2 = emailSchedule (recounted scheduleId w1)) by done.
  rewrite (emailSchedule_recounted scheduleId w2), Hs, Hnow.
  rewrite !(countByStatus_ext scheduleId _ w w2 Hj).
  rewrite (emailSchedule_recounted scheduleId w1).
  change (emailSchedule w1) with (emailSchedule w). change (now w1) with (now w).
  rewrite !(countByStatus_ext scheduleId _ w w1 eq_refl).
  destruct (find (Prisma.scheduleHasId scheduleId) (emailSchedule w)) as [s0|] eqn:Hfind.
  - rewrite find_updateFirst by done. rewrite Hfind. cbn [fmap option_fmap option_map].
    split; [done|]. split; [by intros s [= <-]|].
    cbn [scheduleCountsPatch EmailSchedule.totalCount].
    by rewrite updateFirst_twice by done.
  - rewrite Hfind. split; [done|]. split; [done|done].
Qed.

(** ** Tables that only grow *)








